(** * Multiplicative-update NMF engines (algorithm/nmf.py)

    A shallow embedding of the NMF classes of [algorithm/nmf.py]: the
    shared iteration loop with its loss trace, the update rules of the
    Euclidean, Kullback-Leibler, Itakura-Saito, Student-t and Cauchy
    engines, the complex Euclidean engine and the multichannel
    Itakura-Saito engine.

    Numbers.  The arrays of the program hold IEEE double precision values.
    They are embedded as [num]: a real number, one of the two infinities, or
    NaN.  Arithmetic on finite values is exact (no rounding, no overflow, a
    single unsigned zero); the special values follow the IEEE rules that
    numpy applies to arrays (division by zero gives an infinity or NaN and
    does not raise, NaN compares false with everything).  The theorems
    on the values that a run or a step produces allow for the doubles:
    where a result could be an infinity or NaN through overflow, the
    statement says so; a lemma on finite values is a lemma of the exact
    arithmetic.  Where a statement is about rounding itself
    ([update_beta]), the operations are rounded ([Rounded]) or are the
    doubles of the kernel ([Binary64]).

    Arrays.  A 2-d array is a list of rows; arrays have positive dimensions
    and the shapes numpy requires, so elementwise operations pair the
    entries of equally shaped arrays.

    Objects.  An instance is a record of its attributes; an attribute that
    is created only by a run is an [option].  Methods are state transformers
    over the instance and numpy's global random generator, and return either
    a value or the exception raised.  Calls are modelled without keyword
    overrides ([**kwargs] empty). *)

From Stdlib Require Import Reals Lra Lia List String ZArith Bool.
From Stdlib Require Floats.PrimFloat.
Import ListNotations.
Open Scope R_scope.

(** ** IEEE values with exact finite arithmetic *)

Inductive num : Type :=
| Fin (r : R)
| PInf
| NInf
| NaN.

Definition Rltb (a b : R) : bool := if Rlt_dec a b then true else false.
Definition Reqb (a b : R) : bool := if Req_dec_T a b then true else false.

Definition fneg (x : num) : num :=
  match x with
  | Fin a => Fin (- a)
  | PInf => NInf
  | NInf => PInf
  | NaN => NaN
  end.

Definition fadd (x y : num) : num :=
  match x, y with
  | NaN, _ | _, NaN => NaN
  | Fin a, Fin b => Fin (a + b)
  | PInf, NInf | NInf, PInf => NaN
  | PInf, _ | _, PInf => PInf
  | NInf, _ | _, NInf => NInf
  end.

Definition fsub (x y : num) : num := fadd x (fneg y).

(** [inf_times a]: the product of plus infinity with the finite [a]. *)
Definition inf_times (a : R) : num :=
  if Rltb 0 a then PInf else if Rltb a 0 then NInf else NaN.

Definition fmul (x y : num) : num :=
  match x, y with
  | NaN, _ | _, NaN => NaN
  | Fin a, Fin b => Fin (a * b)
  | Fin a, PInf | PInf, Fin a => inf_times a
  | Fin a, NInf | NInf, Fin a => fneg (inf_times a)
  | PInf, PInf | NInf, NInf => PInf
  | PInf, NInf | NInf, PInf => NInf
  end.

Definition fdiv (x y : num) : num :=
  match x, y with
  | NaN, _ | _, NaN => NaN
  | Fin a, Fin b => if Reqb b 0 then inf_times a else Fin (a / b)
  | Fin _, PInf | Fin _, NInf => Fin 0
  | PInf, Fin b => if Rltb b 0 then NInf else PInf
  | NInf, Fin b => if Rltb b 0 then PInf else NInf
  | PInf, PInf | PInf, NInf | NInf, PInf | NInf, NInf => NaN
  end.

Definition is_int (y : R) : bool := Reqb (frac_part y) 0.

(** [x ** y] for a real exponent [y] (C's [pow]). *)
Definition fpow (x : num) (y : R) : num :=
  if Reqb y 0 then Fin 1
  else match x with
       | NaN => NaN
       | Fin a =>
           if Rltb 0 a then Fin (Rpower a y)
           else if Reqb a 0 then (if Rltb 0 y then Fin 0 else PInf)
           else if is_int y
                then (if Z.even (Int_part y) then Fin (Rpower (- a) y)
                      else Fin (- Rpower (- a) y))
                else NaN
       | PInf => if Rltb 0 y then PInf else Fin 0
       | NInf =>
           if Rltb 0 y
           then (if is_int y && Z.odd (Int_part y) then NInf else PInf)
           else Fin 0
       end.

(** [x ** 2] with the integer exponent 2: numpy squares. *)
Definition fsqr (x : num) : num := fmul x x.

Definition fsqrt (x : num) : num :=
  match x with
  | Fin a => if Rltb a 0 then NaN else Fin (sqrt a)
  | PInf => PInf
  | NInf | NaN => NaN
  end.

Definition flog (x : num) : num :=
  match x with
  | Fin a => if Rltb 0 a then Fin (ln a) else if Rltb a 0 then NaN else NInf
  | PInf => PInf
  | NInf | NaN => NaN
  end.

Definition fcos (x : num) : num :=
  match x with Fin a => Fin (cos a) | _ => NaN end.

Definition fsin (x : num) : num :=
  match x with Fin a => Fin (sin a) | _ => NaN end.

(** [x < y] on arrays: false as soon as one side is NaN. *)
Definition flt (x y : num) : bool :=
  match x, y with
  | NaN, _ | _, NaN => false
  | Fin a, Fin b => Rltb a b
  | NInf, NInf => false
  | NInf, _ => true
  | _, NInf => false
  | PInf, _ => false
  | Fin _, PInf => true
  end.

(** [A[A < eps] = eps], entry by entry. *)
Definition floor_at (eps : R) (x : num) : num :=
  if flt x (Fin eps) then Fin eps else x.

(** [np.maximum(x, eps)]: NaN propagates. *)
Definition fmaximum (x : num) (eps : R) : num :=
  match x with
  | NaN => NaN
  | _ => if flt x (Fin eps) then Fin eps else x
  end.

Definition fsum (l : list num) : num := fold_right fadd (Fin 0) l.

(** ** Arrays *)

Definition vector := list num.
Definition matrix := list (list num).
Definition tensor3 := list (list (list num)).

Fixpoint map2 {A B C : Type} (f : A -> B -> C) (l : list A) (m : list B)
  : list C :=
  match l, m with
  | a :: l', b :: m' => f a b :: map2 f l' m'
  | _, _ => []
  end.

Definition mmap {A B : Type} (f : A -> B) (M : list (list A)) : list (list B) :=
  map (map f) M.

Definition mmap2 {A B C : Type} (f : A -> B -> C)
  (M : list (list A)) (N : list (list B)) : list (list C) :=
  map2 (map2 f) M N.

Definition ncols {A : Type} (M : list (list A)) : nat :=
  match M with
  | [] => O
  | r :: _ => List.length r
  end.

Fixpoint transpose_n {A : Type} (d : A) (n : nat) (M : list (list A))
  : list (list A) :=
  match n with
  | O => []
  | S n' => map (hd d) M :: transpose_n d n' (map (@tl A) M)
  end.

(** [M.transpose(1, 0)] *)
Definition transpose (M : matrix) : matrix := transpose_n (Fin 0) (ncols M) M.

Definition dot (u v : vector) : num := fsum (map2 fmul u v).

(** [A @ B] *)
Definition matmul (A B : matrix) : matrix :=
  map (fun row => map (fun col => dot row col) (transpose B)) A.

Definition mscale (c : R) (M : matrix) : matrix := mmap (fmul (Fin c)) M.
Definition mfloor (eps : R) (M : matrix) : matrix := mmap (floor_at eps) M.
Definition mpow (M : matrix) (y : R) : matrix := mmap (fun x => fpow x y) M.
Definition msqr (M : matrix) : matrix := mmap fsqr M.
Definition msqrt (M : matrix) : matrix := mmap fsqrt M.
Definition mlog (M : matrix) : matrix := mmap flog M.
Definition madd_scalar (M : matrix) (c : R) : matrix :=
  mmap (fun x => fadd x (Fin c)) M.
Definition mmul : matrix -> matrix -> matrix := mmap2 fmul.
Definition mdiv : matrix -> matrix -> matrix := mmap2 fdiv.
Definition madd : matrix -> matrix -> matrix := mmap2 fadd.
Definition msub : matrix -> matrix -> matrix := mmap2 fsub.

(** [M.sum()] *)
Definition msum (M : matrix) : num := fsum (map fsum M).

(** [np.sum(V[np.newaxis,:,:] / TV[:,np.newaxis,:], axis=2)]: entry
    [(i, k)] is the sum over the frames [j] of [V[k,j] / TV[i,j]]. *)
Definition sum_div_frames (V TV : matrix) : matrix :=
  map (fun TVi => map (fun Vk => fsum (map2 fdiv Vk TVi)) V) TV.

(** [np.sum(T[:,:,np.newaxis] / TV[:,np.newaxis,:], axis=0)]: entry
    [(k, j)] is the sum over the bins [i] of [T[i,k] / TV[i,j]]. *)
Definition sum_div_bins (T TV : matrix) : matrix :=
  map (fun Tk => map (fun TVj => fsum (map2 fdiv Tk TVj)) (transpose TV))
      (transpose T).

(** ** Exceptions, state and the random generator *)

Inductive exn : Type :=
| AssertionError (msg : string)
| ValueError (msg : string)
| NotImplementedError (msg : string)
| AttributeError (name : string)
| ZeroDivisionError
| LinAlgError.

Inductive result (A : Type) : Type :=
| Ok (a : A)
| Raise (e : exn).
Arguments Ok {A} a.
Arguments Raise {A} e.

(** A method: it reads and writes the state [S] and returns or raises.
    The state reached when an exception is raised is kept, as the
    interpreter keeps the instance. *)
Definition M (S A : Type) : Type := S -> S * result A.

Definition ret {S A : Type} (a : A) : M S A := fun s => (s, Ok a).

Definition bind {S A B : Type} (m : M S A) (k : A -> M S B) : M S B :=
  fun s => match m s with
           | (s', Ok a) => k a s'
           | (s', Raise e) => (s', Raise e)
           end.

Definition raise {S A : Type} (e : exn) : M S A := fun s => (s, Raise e).
Definition gets {S A : Type} (f : S -> A) : M S A := fun s => (s, Ok (f s)).
Definition modify {S : Type} (f : S -> S) : M S unit := fun s => (f s, Ok tt).

(** [assert b, msg] *)
Definition assert {S : Type} (b : bool) (msg : string) : M S unit :=
  if b then ret tt else raise (AssertionError msg).

(** Reading an attribute that a run creates. *)
Definition attr {S A : Type} (name : string) (f : S -> option A) : M S A :=
  fun s => match f s with
           | Some a => (s, Ok a)
           | None => (s, Raise (AttributeError name))
           end.

Declare Scope monad_scope.
Delimit Scope monad_scope with monad.
Notation "x <- c1 ;; c2" := (bind c1 (fun x => c2))
  (at level 61, c1 at next level, right associativity) : monad_scope.
Notation "c1 ;; c2" := (bind c1 (fun _ => c2))
  (at level 61, right associativity) : monad_scope.
Open Scope monad_scope.

(** [for idx in range(n): body]; no loop body of the program reads [idx]. *)
Fixpoint for_range {S : Type} (n : nat) (body : M S unit) : M S unit :=
  match n with
  | O => ret tt
  | Datatypes.S n' => body ;; for_range n' body
  end.

(** numpy's global generator: the sequence of uniform draws it will
    produce and the number of draws already consumed. *)
Record RandomState : Type := mkRandomState {
  stream : nat -> R;
  drawn : nat
}.

(** [np.random.rand(r, c)]: [r * c] successive draws, row by row. *)
Definition rand_matrix (g : RandomState) (r c : nat) : matrix :=
  map (fun i => map (fun j => Fin (stream g (drawn g + i * c + j)%nat))
                    (seq 0 c))
      (seq 0 r).

Definition advance (g : RandomState) (n : nat) : RandomState :=
  mkRandomState (stream g) (drawn g + n).

(** ** The real-valued engines *)

Record NMF : Type := mkNMF {
  n_basis : nat;
  loss : list num;
  eps : R;
  domain : R;
  algorithm : string;
  nu : option R;
  criterion : matrix -> matrix -> result matrix;
  target : option matrix;
  basis : option matrix;
  activation : option matrix
}.

Definition set_loss (l : list num) (o : NMF) : NMF :=
  mkNMF (n_basis o) l (eps o) (domain o) (algorithm o) (nu o) (criterion o)
        (target o) (basis o) (activation o).
Definition set_target (t : option matrix) (o : NMF) : NMF :=
  mkNMF (n_basis o) (loss o) (eps o) (domain o) (algorithm o) (nu o)
        (criterion o) t (basis o) (activation o).
Definition set_basis (T : matrix) (o : NMF) : NMF :=
  mkNMF (n_basis o) (loss o) (eps o) (domain o) (algorithm o) (nu o)
        (criterion o) (target o) (Some T) (activation o).
Definition set_activation (V : matrix) (o : NMF) : NMF :=
  mkNMF (n_basis o) (loss o) (eps o) (domain o) (algorithm o) (nu o)
        (criterion o) (target o) (basis o) (Some V).

(** The state of a run: the instance and the global generator. *)
Definition World (O : Type) : Type := (O * RandomState)%type.

Definition self {O A : Type} (f : O -> A) : M (World O) A :=
  gets (fun w => f (fst w)).
Definition self_attr {O A : Type} (name : string) (f : O -> option A)
  : M (World O) A :=
  attr name (fun w => f (fst w)).
Definition update_self {O : Type} (f : O -> O) : M (World O) unit :=
  modify (fun w => (f (fst w), snd w)).

(** [np.random.rand(r, c)] on the global generator. *)
Definition rand {O : Type} (r c : nat) : M (World O) matrix :=
  fun w => ((fst w, advance (snd w) (r * c)), Ok (rand_matrix (snd w) r c)).

(** Calling [self.criterion]. *)
Definition lift_result {S A : Type} (r : result A) : M S A :=
  fun s => (s, r).

Definition Rle_bool (a b : R) : bool := if Rle_dec a b then true else false.

Module NMFbase.

(** [_reset] with no keyword overrides. *)
Definition _reset : M (World NMF) unit :=
  tgt <- self target ;;
  assert (match tgt with Some _ => true | None => false end)
         "Specify data!" ;;
  tgt <- self_attr "target" target ;;
  n_basis <- self n_basis ;;
  let n_bins := List.length tgt in
  let n_frames := ncols tgt in
  T <- rand n_bins n_basis ;;
  update_self (set_basis T) ;;
  V <- rand n_basis n_frames ;;
  update_self (set_activation V).

Definition update_once : M (World NMF) unit :=
  raise (NotImplementedError "Implement 'update_once' function").

(** The loop of [NMFbase.update], for the [update_once] of the class of
    the instance. *)
Definition update (update_once : M (World NMF) unit) (iteration : nat)
  : M (World NMF) unit :=
  target <- self target ;;
  for_range iteration
    (update_once ;;
     T <- self_attr "basis" basis ;;
     V <- self_attr "activation" activation ;;
     target <- lift_result
                 (match target with
                  | Some t => Ok t
                  | None => Raise (AttributeError "target")
                  end) ;;
     let TV := matmul T V in
     crit <- self criterion ;;
     l <- lift_result (crit TV target) ;;
     update_self (fun o => set_loss (loss o ++ [msum l]) o)).

(** [__call__(target, iteration)], for the [update] of the class of the
    instance. *)
Definition __call__ (update : nat -> M (World NMF) unit)
  (target : option matrix) (iteration : nat)
  : M (World NMF) (matrix * matrix) :=
  update_self (set_target target) ;;
  _reset ;;
  update iteration ;;
  T <- self_attr "basis" basis ;;
  V <- self_attr "activation" activation ;;
  ret (T, V).

End NMFbase.

(** The loop that the Euclidean, KL, IS and Student-t classes each
    redefine with the same text: the reconstruction is raised to the power
    [2 / domain] before the criterion is applied. *)
Definition update_with_domain (update_once : M (World NMF) unit)
  (iteration : nat) : M (World NMF) unit :=
  domain <- self domain ;;
  target <- self target ;;
  for_range iteration
    (update_once ;;
     T <- self_attr "basis" basis ;;
     V <- self_attr "activation" activation ;;
     target <- lift_result
                 (match target with
                  | Some t => Ok t
                  | None => Raise (AttributeError "target")
                  end) ;;
     let TV := mpow (matmul T V) (2 / domain) in
     crit <- self criterion ;;
     l <- lift_result (crit TV target) ;;
     update_self (fun o => set_loss (loss o ++ [msum l]) o)).

(** Storing [self.basis, self.activation = T, V]. *)
Definition store_factors (T V : matrix) : M (World NMF) unit :=
  update_self (fun o => set_activation V (set_basis T o)).

Definition recip (M : matrix) : matrix := mmap (fdiv (Fin 1)) M.

Definition not_supported {A : Type} (algorithm : string) : M (World NMF) A :=
  raise (ValueError ("Not support " ++ algorithm ++ " based update.")).

Definition domain_in_range (domain : R) : bool :=
  Rle_bool 1 domain && Rle_bool domain 2.

Module EUCNMF.

Definition __init__ (n_basis : nat) (domain : R) (algorithm : string)
  (eps : R) : result NMF :=
  if negb (domain_in_range domain)
  then Raise (AssertionError "1 <= `domain` <= 2 is not satisfied.")
  else if negb (algorithm =? "mm")%string
  then Raise (AssertionError "algorithm must be 'mm'.")
  else Ok (mkNMF n_basis [] eps domain algorithm None
             (fun input target => Ok (msqr (msub target input)))
             None None None).

Definition update_once_mm : M (World NMF) unit :=
  target <- self_attr "target" target ;;
  domain <- self domain ;;
  eps <- self eps ;;
  T <- self_attr "basis" basis ;;
  V <- self_attr "activation" activation ;;
  (* Update basis *)
  let V_transpose := transpose V in
  let TV := mfloor eps (matmul T V) in
  let TVV := mfloor eps (matmul (mpow TV ((4 - domain) / domain))
                                V_transpose) in
  let numerator :=
    matmul (mmul target (mpow TV ((2 - domain) / domain))) V_transpose in
  let T := mmul T (mpow (mdiv numerator TVV) (domain / (4 - domain))) in
  (* Update activations *)
  let T_transpose := transpose T in
  let TV := mfloor eps (matmul T V) in
  let TTV := mfloor eps (matmul T_transpose
                                (mpow TV ((4 - domain) / domain))) in
  let numerator :=
    matmul T_transpose (mmul target (mpow TV ((2 - domain) / domain))) in
  let V := mmul V (mpow (mdiv numerator TTV) (domain / (4 - domain))) in
  store_factors T V.

Definition update_once : M (World NMF) unit :=
  algorithm <- self algorithm ;;
  if (algorithm =? "mm")%string then update_once_mm
  else not_supported algorithm.

Definition update : nat -> M (World NMF) unit :=
  update_with_domain update_once.

Definition __call__ := NMFbase.__call__ update.

End EUCNMF.

Module KLNMF.

(** [generalized_kl_divergence] is imported from [criterion.divergence]
    and is a parameter here. *)
Definition __init__ (generalized_kl_divergence : matrix -> matrix -> matrix)
  (n_basis : nat) (domain : R) (algorithm : string) (eps : R)
  : result NMF :=
  if negb (domain_in_range domain)
  then Raise (AssertionError "1 <= `domain` <= 2 is not satisfied.")
  else if negb (algorithm =? "mm")%string
  then Raise (AssertionError "algorithm must be 'mm'.")
  else Ok (mkNMF n_basis [] eps domain algorithm None
             (fun input target => Ok (generalized_kl_divergence input target))
             None None None).

Definition update_once_mm : M (World NMF) unit :=
  target <- self_attr "target" target ;;
  domain <- self domain ;;
  eps <- self eps ;;
  T <- self_attr "basis" basis ;;
  V <- self_attr "activation" activation ;;
  (* Update basis *)
  let V_transpose := transpose V in
  let TV := mfloor eps (matmul T V) in
  let TVV := mfloor eps (matmul (mpow TV ((2 - domain) / domain))
                                V_transpose) in
  let division := mdiv target TV in
  let T := mmul T (mpow (mdiv (matmul division V_transpose) TVV)
                        (domain / 2)) in
  (* Update activations *)
  let T_transpose := transpose T in
  let TV := mfloor eps (matmul T V) in
  let TTV := mfloor eps (matmul T_transpose
                                (mpow TV ((2 - domain) / domain))) in
  let division := mdiv target TV in
  let V := mmul V (mpow (mdiv (matmul T_transpose division) TTV)
                        (domain / 2)) in
  store_factors T V.

Definition update_once : M (World NMF) unit :=
  algorithm <- self algorithm ;;
  if (algorithm =? "mm")%string then update_once_mm
  else not_supported algorithm.

Definition update : nat -> M (World NMF) unit :=
  update_with_domain update_once.

Definition __call__ := NMFbase.__call__ update.

End KLNMF.

Module ISNMF.

(** [is_divergence] is imported from [criterion.divergence] and is a
    parameter here. *)
Definition __init__ (is_divergence : matrix -> matrix -> matrix)
  (n_basis : nat) (domain : R) (algorithm : string) (eps : R)
  : result NMF :=
  if negb (domain_in_range domain)
  then Raise (AssertionError "1 <= `domain` <= 2 is not satisfied.")
  else Ok (mkNMF n_basis [] eps domain algorithm None
             (fun input target => Ok (is_divergence input target))
             None None None).

Definition update_once_mm : M (World NMF) unit :=
  target <- self_attr "target" target ;;
  domain <- self domain ;;
  eps <- self eps ;;
  T <- self_attr "basis" basis ;;
  V <- self_attr "activation" activation ;;
  (* Update basis *)
  let V_transpose := transpose V in
  let TV := mfloor eps (matmul T V) in
  let division := mdiv target (mpow TV ((domain + 2) / domain)) in
  let TV_inverse := recip TV in
  let TVV := mfloor eps (matmul TV_inverse V_transpose) in
  let T := mmul T (mpow (mdiv (matmul division V_transpose) TVV)
                        (domain / (domain + 2))) in
  (* Update activations *)
  let T_transpose := transpose T in
  let TV := mfloor eps (matmul T V) in
  let division := mdiv target (mpow TV ((domain + 2) / domain)) in
  let TV_inverse := recip TV in
  let TTV := mfloor eps (matmul T_transpose TV_inverse) in
  let V := mmul V (mpow (mdiv (matmul T_transpose division) TTV)
                        (domain / (domain + 2))) in
  store_factors T V.

Definition update_once_me : M (World NMF) unit :=
  target <- self_attr "target" target ;;
  domain <- self domain ;;
  eps <- self eps ;;
  assert (Reqb domain 2) "Only domain = 2 is supported." ;;
  T <- self_attr "basis" basis ;;
  V <- self_attr "activation" activation ;;
  (* Update basis *)
  let V_transpose := transpose V in
  let TV := mfloor eps (matmul T V) in
  let division := mdiv target (mpow TV ((domain + 2) / domain)) in
  let TV_inverse := recip TV in
  let TVV := mfloor eps (matmul TV_inverse V_transpose) in
  let T := mmul T (mdiv (matmul division V_transpose) TVV) in
  (* Update activations *)
  let T_transpose := transpose T in
  let TV := mfloor eps (matmul T V) in
  let division := mdiv target (mpow TV ((domain + 2) / domain)) in
  let TV_inverse := recip TV in
  let TTV := mfloor eps (matmul T_transpose TV_inverse) in
  let V := mmul V (mdiv (matmul T_transpose division) TTV) in
  store_factors T V.

Definition update_once : M (World NMF) unit :=
  algorithm <- self algorithm ;;
  if (algorithm =? "mm")%string then update_once_mm
  else if (algorithm =? "me")%string then update_once_me
  else not_supported algorithm.

Definition update : nat -> M (World NMF) unit :=
  update_with_domain update_once.

Definition __call__ := NMFbase.__call__ update.

End ISNMF.

Module tNMF.

(** The criterion closes over the constructor's [eps] and [nu]; the
    quotient [2 / nu] is a division of Python scalars. *)
Definition t_divergence (eps nu : R) (input target : matrix)
  : result matrix :=
  let _input := madd_scalar input eps in
  let _target := madd_scalar target eps in
  if Reqb nu 0 then Raise ZeroDivisionError
  else Ok (madd (mlog _input)
                (mscale ((2 + nu) / 2)
                   (mlog (mmap (fadd (Fin 1))
                               (mscale (2 / nu) (mdiv _target _input)))))).

Definition __init__ (n_basis : nat) (nu : R) (domain : R)
  (algorithm : string) (eps : R) : result NMF :=
  if negb (domain_in_range domain)
  then Raise (AssertionError "1 <= `domain` <= 2 is not satisfied.")
  else Ok (mkNMF n_basis [] eps domain algorithm (Some nu)
             (t_divergence eps nu) None None None).

Definition update_once_mm : M (World NMF) unit :=
  target <- self_attr "target" target ;;
  domain <- self domain ;;
  nu <- self_attr "nu" nu ;;
  eps <- self eps ;;
  assert (Reqb domain 2) "`domain` is expected 2." ;;
  T <- self_attr "basis" basis ;;
  V <- self_attr "activation" activation ;;
  let Z := mmap (fun x => fmaximum x eps) target in
  (* Update basis *)
  let V_transpose := transpose V in
  let TV := mfloor eps (matmul T V) in
  let harmonic :=
    recip (madd (mmap (fdiv (Fin 2)) (mscale (2 + nu) TV))
                (mmap (fdiv (Fin nu)) (mscale (2 + nu) Z))) in
  let division := mdiv harmonic (msqr TV) in
  let TV_inverse := recip TV in
  let TVV := mfloor eps (matmul TV_inverse V_transpose) in
  let T := mmul T (msqrt (mdiv (matmul division V_transpose) TVV)) in
  (* Update activations *)
  let T_transpose := transpose T in
  let TV := mfloor eps (matmul T V) in
  let harmonic :=
    recip (madd (mmap (fdiv (Fin 2)) (mscale (2 + nu) TV))
                (mmap (fdiv (Fin nu)) (mscale (2 + nu) Z))) in
  let division := mdiv harmonic (msqr TV) in
  let TV_inverse := recip TV in
  let TTV := mfloor eps (matmul T_transpose TV_inverse) in
  let V := mmul V (msqrt (mdiv (matmul T_transpose division) TTV)) in
  store_factors T V.

Definition update_once : M (World NMF) unit :=
  algorithm <- self algorithm ;;
  if (algorithm =? "mm")%string then update_once_mm
  else not_supported algorithm.

Definition update : nat -> M (World NMF) unit :=
  update_with_domain update_once.

Definition __call__ := NMFbase.__call__ update.

End tNMF.

Module CauchyNMF.

(** The criterion reads [self.eps]; without keyword overrides this is the
    constructor's [eps]. *)
Definition cauchy_divergence (eps : R) (input target : matrix) : matrix :=
  let _input := madd_scalar input eps in
  let _target := madd_scalar target eps in
  let numerator := madd (mscale 2 (msqr _target)) (msqr _input) in
  let denominator := mscale 3 (msqr _target) in
  madd (mlog (mdiv _target _input))
       (mscale (3 / 2) (mlog (mdiv numerator denominator))).

Definition __init__ (n_basis : nat) (domain : R) (algorithm : string)
  (eps : R) : result NMF :=
  if negb (Reqb domain 2)
  then Raise (AssertionError "Only `domain` = 2 is supported.")
  else Ok (mkNMF n_basis [] eps domain algorithm None
             (fun input target => Ok (cauchy_divergence eps input target))
             None None None).

Definition update_once_naive : M (World NMF) unit :=
  target <- self_attr "target" target ;;
  domain <- self domain ;;
  eps <- self eps ;;
  assert (Reqb domain 2) "Only 'domain' = 2 is supported." ;;
  T <- self_attr "basis" basis ;;
  V <- self_attr "activation" activation ;;
  let TV := mfloor eps (matmul T V) in
  let numerator := sum_div_frames V TV in
  let C := mfloor eps (madd (mscale 2 target) (msqr TV)) in
  let TVC := mdiv TV C in
  let denominator := mfloor eps (matmul (mscale 3 TVC) (transpose V)) in
  let T := mmul T (mdiv numerator denominator) in
  let TV := mfloor eps (matmul T V) in
  let numerator := sum_div_bins T TV in
  let C := mfloor eps (madd (mscale 2 target) (msqr TV)) in
  let TVC := mdiv TV C in
  let denominator := mfloor eps (matmul (mscale 3 (transpose T)) TVC) in
  let V := mmul V (mdiv numerator denominator) in
  store_factors T V.

Definition update_once_mm : M (World NMF) unit :=
  target <- self_attr "target" target ;;
  domain <- self domain ;;
  eps <- self eps ;;
  assert (Reqb domain 2) "Only 'domain' = 2 is supported." ;;
  T <- self_attr "basis" basis ;;
  V <- self_attr "activation" activation ;;
  let TV := mfloor eps (matmul T V) in
  let numerator := sum_div_frames V TV in
  let C := mfloor eps (madd (mscale 2 target) (msqr TV)) in
  let TVC := mdiv TV C in
  let denominator := mfloor eps (matmul (mscale 3 TVC) (transpose V)) in
  let T := mmul T (msqrt (mdiv numerator denominator)) in
  let TV := mfloor eps (matmul T V) in
  let numerator := sum_div_bins T TV in
  let C := mfloor eps (madd (mscale 2 target) (msqr TV)) in
  let TVC := mdiv TV C in
  let denominator := mfloor eps (matmul (mscale 3 (transpose T)) TVC) in
  let V := mmul V (msqrt (mdiv numerator denominator)) in
  store_factors T V.

Definition update_once_me : M (World NMF) unit :=
  target <- self_attr "target" target ;;
  domain <- self domain ;;
  eps <- self eps ;;
  assert (Reqb domain 2) "Only 'domain' = 2 is supported." ;;
  T <- self_attr "basis" basis ;;
  V <- self_attr "activation" activation ;;
  let TV := matmul T V in
  let TV2Z := mfloor eps (madd (msqr TV) target) in
  let A := matmul (mscale (3 / 4) (mdiv TV TV2Z)) (transpose V) in
  let B := sum_div_frames V TV in
  let denominator :=
    mfloor eps (madd A (msqrt (madd (msqr A) (mmul (mscale 2 B) A)))) in
  let T := mmul T (mdiv B denominator) in
  let TV := matmul T V in
  let TV2Z := mfloor eps (madd (msqr TV) target) in
  let A := matmul (mscale (3 / 4) (transpose T)) (mdiv TV TV2Z) in
  let B := sum_div_bins T TV in
  let denominator :=
    mfloor eps (madd A (msqrt (madd (msqr A) (mmul (mscale 2 B) A)))) in
  let V := mmul V (mdiv B denominator) in
  store_factors T V.

Definition update_once_mm_fast : M (World NMF) unit :=
  target <- self_attr "target" target ;;
  domain <- self domain ;;
  eps <- self eps ;;
  assert (Reqb domain 2) "Only 'domain' = 2 is supported." ;;
  T <- self_attr "basis" basis ;;
  V <- self_attr "activation" activation ;;
  (* Update basis *)
  let TV := matmul T V in
  let C := madd (mscale 2 target) (msqr TV) in
  let CTV := mfloor eps (mmul C TV) in
  let ZCTV := mdiv target CTV in
  let C := mfloor eps C in
  let TVC := mdiv TV C in
  let numerator := matmul ZCTV (transpose V) in
  let denominator := mfloor eps (matmul TVC (transpose V)) in
  let T := mmul T (msqrt (mdiv numerator denominator)) in
  (* Update activations *)
  let TV := matmul T V in
  let C := madd (mscale 2 target) (msqr TV) in
  let CTV := mfloor eps (mmul C TV) in
  let ZCTV := mdiv target CTV in
  let C := mfloor eps C in
  let TVC := mdiv TV C in
  let numerator := matmul (transpose T) ZCTV in
  let denominator := mfloor eps (matmul (transpose T) TVC) in
  let V := mmul V (msqrt (mdiv numerator denominator)) in
  store_factors T V.

Definition update_once : M (World NMF) unit :=
  algorithm <- self algorithm ;;
  if (algorithm =? "naive-multipricative")%string then update_once_naive
  else if (algorithm =? "mm")%string then update_once_mm
  else if (algorithm =? "me")%string then update_once_me
  else if (algorithm =? "mm_fast")%string then update_once_mm_fast
  else not_supported algorithm.

(** [update] is inherited from [NMFbase]. *)
Definition update : nat -> M (World NMF) unit :=
  NMFbase.update update_once.

Definition __call__ := NMFbase.__call__ update.

End CauchyNMF.

(** ** The five engines, uniformly *)

Inductive engine : Type :=
| Euclidean
| KullbackLeibler (generalized_kl_divergence : matrix -> matrix -> matrix)
| ItakuraSaito (is_divergence : matrix -> matrix -> matrix)
| StudentT (nu : R)
| Cauchy.

Definition construct (c : engine) (n_basis : nat) (domain : R)
  (algorithm : string) (eps : R) : result NMF :=
  match c with
  | Euclidean => EUCNMF.__init__ n_basis domain algorithm eps
  | KullbackLeibler d => KLNMF.__init__ d n_basis domain algorithm eps
  | ItakuraSaito d => ISNMF.__init__ d n_basis domain algorithm eps
  | StudentT nu => tNMF.__init__ n_basis nu domain algorithm eps
  | Cauchy => CauchyNMF.__init__ n_basis domain algorithm eps
  end.

Definition update_once_of (c : engine) : M (World NMF) unit :=
  match c with
  | Euclidean => EUCNMF.update_once
  | KullbackLeibler _ => KLNMF.update_once
  | ItakuraSaito _ => ISNMF.update_once
  | StudentT _ => tNMF.update_once
  | Cauchy => CauchyNMF.update_once
  end.

Definition update_of (c : engine) : nat -> M (World NMF) unit :=
  match c with
  | Euclidean => EUCNMF.update
  | KullbackLeibler _ => KLNMF.update
  | ItakuraSaito _ => ISNMF.update
  | StudentT _ => tNMF.update
  | Cauchy => CauchyNMF.update
  end.

Definition call_of (c : engine) (target : option matrix) (iteration : nat)
  : M (World NMF) (matrix * matrix) :=
  NMFbase.__call__ (update_of c) target iteration.

(** The state in which the loop of a run starts: the target is stored and
    both factors are freshly drawn. *)
Definition after_reset (o : NMF) (tgt : matrix) (g : RandomState)
  : World NMF :=
  let T := rand_matrix g (List.length tgt) (n_basis o) in
  let g1 := advance g (List.length tgt * n_basis o) in
  let V := rand_matrix g1 (n_basis o) (ncols tgt) in
  (set_activation V (set_basis T (set_target (Some tgt) o)),
   advance g1 (n_basis o * ncols tgt)).


(** The algorithm names that [update_once] of each class dispatches on. *)
Definition known_algorithm (c : engine) (a : string) : bool :=
  match c with
  | Euclidean | KullbackLeibler _ | StudentT _ => (a =? "mm")%string
  | ItakuraSaito _ => (a =? "mm")%string || (a =? "me")%string
  | Cauchy =>
      (a =? "naive-multipricative")%string || (a =? "mm")%string
      || (a =? "me")%string || (a =? "mm_fast")%string
  end.

(** An exception that a run raises in the first step of its loop: reset
    has completed, the step raises and changes nothing, every run of at
    least one iteration ends with it, and a run of no iteration returns. *)
Definition raised_in_first_step (c : engine) (o : NMF) (e : exn) : Prop :=
  forall (tgt : matrix) (g : RandomState),
    (update_self (set_target (Some tgt)) ;; NMFbase._reset) (o, g)
    = (after_reset o tgt g, Ok tt)
    /\ update_once_of c (after_reset o tgt g)
       = (after_reset o tgt g, Raise e)
    /\ (forall n, call_of c (Some tgt) (S n) (o, g)
                  = (after_reset o tgt g, Raise e))
    /\ (exists TV, call_of c (Some tgt) 0 (o, g)
                   = (after_reset o tgt g, Ok TV)).

(** A generator whose draws are all [1/2], for the examples. *)
Definition constant_half : RandomState := mkRandomState (fun _ => 1 / 2) 0.

(** The instances on which [update_once] and the criterion do not raise:
    a known algorithm, [domain = 2] where the rule asserts it, the
    attribute [nu] where the rule reads it. *)
Definition criterion_total (o : NMF) : Prop :=
  forall a b, exists m, criterion o a b = Ok m.

Definition step_configured (c : engine) (o : NMF) : Prop :=
  known_algorithm c (algorithm o) = true
  /\ match c with
     | ItakuraSaito _ => algorithm o = "me"%string -> domain o = 2
     | StudentT _ => domain o = 2 /\ exists v, nu o = Some v
     | Cauchy => domain o = 2
     | _ => True
     end.

Definition configured (c : engine) (o : NMF) : Prop :=
  criterion_total o /\ step_configured c o.

(** The state of an instance once a run has reset it. *)
Definition ready (w : World NMF) : Prop :=
  (exists t, target (fst w) = Some t)
  /\ (exists T, basis (fst w) = Some T)
  /\ (exists V, activation (fst w) = Some V).

(** The body shared by the two loops: [f] is what the loop applies to the
    product [T @ V] before the criterion. *)
Definition loop_body (f : matrix -> matrix) (update_once : M (World NMF) unit)
  (target : option matrix) : M (World NMF) unit :=
  update_once ;;
  T <- self_attr "basis" basis ;;
  V <- self_attr "activation" activation ;;
  target <- lift_result
              (match target with
               | Some t => Ok t
               | None => Raise (AttributeError "target")
               end) ;;
  let TV := f (matmul T V) in
  crit <- self criterion ;;
  l <- lift_result (crit TV target) ;;
  update_self (fun o => set_loss (loss o ++ [msum l]) o).

(** What the loop of the class applies to [T @ V]. *)
Definition reconstruction_of (c : engine) (domain : R) (TV : matrix) : matrix :=
  match c with
  | Cauchy => TV
  | _ => mpow TV (2 / domain)
  end.

Definition same_config (o o' : NMF) : Prop :=
  n_basis o' = n_basis o /\ eps o' = eps o /\ domain o' = domain o
  /\ algorithm o' = algorithm o /\ nu o' = nu o
  /\ criterion o' = criterion o /\ target o' = target o.

(** ** Complex values and 3-d arrays *)

(** A complex double: real and imaginary part. *)
Definition cnum : Type := (num * num)%type.
Definition cmatrix : Type := list (list cnum).
Definition ctensor3 : Type := list (list (list cnum)).

(** The promotion of a real to a complex value. *)
Definition of_real (x : num) : cnum := (x, Fin 0).

Definition cadd (z w : cnum) : cnum := (fadd (fst z) (fst w), fadd (snd z) (snd w)).
Definition csub (z w : cnum) : cnum := (fsub (fst z) (fst w), fsub (snd z) (snd w)).
Definition cmul (z w : cnum) : cnum :=
  (fsub (fmul (fst z) (fst w)) (fmul (snd z) (snd w)),
   fadd (fmul (fst z) (snd w)) (fmul (snd z) (fst w))).
Definition cconj (z : cnum) : cnum := (fst z, fneg (snd z)).
Definition creal (z : cnum) : num := fst z.

(** A real array times a complex array: the real operand is promoted. *)
Definition rcmul (a : num) (z : cnum) : cnum := cmul (of_real a) z.

(** [np.exp(1j * phi)] *)
Definition cexp_i (phi : num) : cnum := (fcos phi, fsin phi).

(** [np.abs(z)] *)
Definition cabs (z : cnum) : num :=
  match fst z, snd z with
  | PInf, _ | NInf, _ | _, PInf | _, NInf => PInf
  | NaN, _ | _, NaN => NaN
  | Fin a, Fin b => Fin (sqrt (a * a + b * b))
  end.

(** [np.arctan2(y, x)] *)
Definition arctan2 (y x : num) : num :=
  match y, x with
  | NaN, _ | _, NaN => NaN
  | Fin b, Fin a =>
      if Rltb 0 a then Fin (atan (b / a))
      else if Rltb a 0
           then (if Rltb b 0 then Fin (atan (b / a) - PI)
                 else Fin (atan (b / a) + PI))
           else if Rltb 0 b then Fin (PI / 2)
                else if Rltb b 0 then Fin (- PI / 2) else Fin 0
  | Fin _, PInf => Fin 0
  | Fin b, NInf => if Rltb b 0 then Fin (- PI) else Fin PI
  | PInf, Fin _ => Fin (PI / 2)
  | NInf, Fin _ => Fin (- PI / 2)
  | PInf, PInf => Fin (PI / 4)
  | PInf, NInf => Fin (3 * PI / 4)
  | NInf, PInf => Fin (- PI / 4)
  | NInf, NInf => Fin (- 3 * PI / 4)
  end.

(** [np.angle(z)] *)
Definition cangle (z : cnum) : num := arctan2 (snd z) (fst z).

Definition t3map {A B : Type} (f : A -> B) (X : list (list (list A)))
  : list (list (list B)) :=
  map (mmap f) X.

Definition t3map2 {A B C : Type} (f : A -> B -> C)
  (X : list (list (list A))) (Y : list (list (list B)))
  : list (list (list C)) :=
  map2 (mmap2 f) X Y.

(** Broadcasting a (basis, frames) array over the bins of a 3-d array. *)
Definition over_bins {A B C : Type} (f : A -> B -> C)
  (X : list (list (list A))) (V : list (list B)) : list (list (list C)) :=
  map (fun Xi => mmap2 f Xi V) X.

(** Broadcasting a (bins, basis) array over the frames of a 3-d array. *)
Definition over_frames {A B C : Type} (f : A -> B -> C)
  (X : list (list (list A))) (T : list (list B)) : list (list (list C)) :=
  map2 (fun Xi Ti => map2 (fun Xik t => map (fun x => f x t) Xik) Xi Ti) X T.

(** Broadcasting a (bins, frames) array over the bases of a 3-d array. *)
Definition over_bases {A B C : Type} (f : A -> B -> C)
  (X : list (list (list A))) (Z : list (list B)) : list (list (list C)) :=
  map2 (fun Xi Zi => map (fun Xik => map2 f Xik Zi) Xi) X Z.

(** [T[:,:,np.newaxis] * V[np.newaxis,:,:]]: entry [(i, k, j)] is
    [T[i,k] * V[k,j]]. *)
Definition outer (T V : matrix) : tensor3 :=
  map (fun Ti => map2 (fun t Vk => map (fmul t) Vk) Ti V) T.

(** The sum of the rows of a 2-d array, entry by entry. *)
Definition sum_rows {A : Type} (add : A -> A -> A) (M : list (list A))
  : list A :=
  match M with
  | [] => []
  | r :: rest => fold_left (map2 add) rest r
  end.

(** [X.sum(axis=1)], [X.sum(axis=2)] and [X.sum(axis=0)] of a 3-d array. *)
Definition sum_axis1 {A : Type} (add : A -> A -> A)
  (X : list (list (list A))) : list (list A) :=
  map (sum_rows add) X.

Definition sum_axis2 (X : tensor3) : matrix := mmap fsum X.

Definition sum_axis0 (X : tensor3) : matrix :=
  match X with
  | [] => []
  | X0 :: rest => fold_left madd rest X0
  end.

(** [np.random.rand(a, b, c)] on the global generator. *)
Definition rand_tensor3 (g : RandomState) (a b c : nat) : tensor3 :=
  map (fun i =>
         map (fun k =>
                map (fun j => Fin (stream g (drawn g + (i * b + k) * c + j)%nat))
                    (seq 0 c))
             (seq 0 b))
      (seq 0 a).

(** ** The complex Euclidean engine *)

Module ComplexEUCNMF.

(** The attributes set by [ComplexNMFbase.__init__] and
    [ComplexEUCNMF.__init__], and those a run creates. *)
Record t : Type := mk {
  n_basis : nat;
  regularizer : R;
  p : R;
  loss : list num;
  eps : R;
  target : option cmatrix;
  basis : option matrix;
  activation : option matrix;
  phase : option tensor3;
  Beta : option tensor3
}.

Definition set_loss (l : list num) (o : t) : t :=
  mk (n_basis o) (regularizer o) (p o) l (eps o) (target o) (basis o)
     (activation o) (phase o) (Beta o).
Definition set_target (x : option cmatrix) (o : t) : t :=
  mk (n_basis o) (regularizer o) (p o) (loss o) (eps o) x (basis o)
     (activation o) (phase o) (Beta o).
Definition set_basis (x : matrix) (o : t) : t :=
  mk (n_basis o) (regularizer o) (p o) (loss o) (eps o) (target o) (Some x)
     (activation o) (phase o) (Beta o).
Definition set_activation (x : matrix) (o : t) : t :=
  mk (n_basis o) (regularizer o) (p o) (loss o) (eps o) (target o) (basis o)
     (Some x) (phase o) (Beta o).
Definition set_phase (x : tensor3) (o : t) : t :=
  mk (n_basis o) (regularizer o) (p o) (loss o) (eps o) (target o) (basis o)
     (activation o) (Some x) (Beta o).
Definition set_Beta (x : tensor3) (o : t) : t :=
  mk (n_basis o) (regularizer o) (p o) (loss o) (eps o) (target o) (basis o)
     (activation o) (phase o) (Some x).

Definition __init__ (n_basis : nat) (regularizer p eps : R) : t :=
  mk n_basis regularizer p [] eps None None None None None.

(** [self.criterion]: [np.abs(input - target)**2]; the loop passes a real
    [input]. *)
Definition criterion (input : matrix) (target : cmatrix) : matrix :=
  mmap2 (fun x z => fsqr (cabs (csub (of_real x) z))) input target.

Definition init_phase : M (World t) unit :=
  n_basis <- self n_basis ;;
  target <- self_attr "target" target ;;
  let phase := mmap cangle target in
  update_self (set_phase (map (fun row => repeat row n_basis) phase)).

Definition update_beta : M (World t) unit :=
  T <- self_attr "basis" basis ;;
  V <- self_attr "activation" activation ;;
  eps <- self eps ;;
  let TV := outer T V in
  let TVsum := mfloor eps (sum_axis1 fadd TV) in
  update_self (set_Beta (over_bases fdiv TV TVsum)).

Definition _reset : M (World t) unit :=
  (* ComplexNMFbase._reset *)
  tgt <- self target ;;
  assert (match tgt with Some _ => true | None => false end)
         "Specify data!" ;;
  tgt <- self_attr "target" target ;;
  n_basis <- self n_basis ;;
  let n_bins := List.length tgt in
  let n_frames := ncols tgt in
  T <- rand n_bins n_basis ;;
  update_self (set_basis T) ;;
  V <- rand n_basis n_frames ;;
  update_self (set_activation V) ;;
  Phi <- (fun w => ((fst w, advance (snd w) (n_bins * n_basis * n_frames)),
                    Ok (rand_tensor3 (snd w) n_bins n_basis n_frames))) ;;
  update_self (set_phase (t3map (fmul (Fin (2 * PI))) Phi)) ;;
  (* ComplexEUCNMF._reset *)
  init_phase ;;
  update_beta.

Definition update_once : M (World t) unit :=
  target <- self_attr "target" target ;;
  regularizer <- self regularizer ;;
  p <- self p ;;
  eps <- self eps ;;
  T <- self_attr "basis" basis ;;
  V <- self_attr "activation" activation ;;
  Phi <- self_attr "phase" phase ;;
  let Ephi := t3map cexp_i Phi in
  Beta <- self_attr "Beta" Beta ;;
  let Beta := t3map (floor_at eps) Beta in
  update_self (set_Beta Beta) ;;
  let X := t3map2 rcmul (outer T V) Ephi in
  let ZX := mmap2 csub target (sum_axis1 cadd X) in
  let Z_bar := t3map2 cadd X (over_bases rcmul Beta ZX) in
  (* V_bar is V itself: the floor is applied in place *)
  let V := mfloor eps V in
  update_self (set_activation V) ;;
  let V_bar := V in
  let Re := t3map2 (fun z e => creal (cmul (cconj z) e)) Z_bar Ephi in
  (* Update basis *)
  let VV := msqr V in
  let numerator :=
    sum_axis2 (t3map2 fmul (over_bins (fun b v => fdiv v b) Beta V) Re) in
  let denominator :=
    mfloor eps (sum_axis2 (over_bins (fun b v => fdiv v b) Beta VV)) in
  let T := mdiv numerator denominator in
  (* Update activations *)
  let TT := msqr T in
  let numerator :=
    sum_axis0 (t3map2 fmul (over_frames (fun b t => fdiv t b) Beta T) Re) in
  let denominator :=
    mfloor eps
      (madd (sum_axis0 (over_frames (fun b t => fdiv t b) Beta TT))
            (mscale (regularizer * p) (mpow V_bar (p - 2)))) in
  let V := mdiv numerator denominator in
  (* Update phase *)
  let phase := t3map cangle Z_bar in
  (* Normalize basis *)
  let T := map (fun Ti => map2 fdiv Ti (sum_rows fadd T)) T in
  update_self (fun o => set_phase phase (set_activation V (set_basis T o))) ;;
  (* Update beta *)
  update_beta.

Definition update (iteration : nat) : M (World t) unit :=
  target <- self_attr "target" target ;;
  for_range iteration
    (update_once ;;
     T <- self_attr "basis" basis ;;
     V <- self_attr "activation" activation ;;
     Phi <- self_attr "phase" phase ;;
     let TVPhi := sum_axis1 fadd (t3map2 fmul (outer T V) Phi) in
     let l := criterion TVPhi target in
     update_self (fun o => set_loss (loss o ++ [msum l]) o)).

(** [ComplexNMFbase.__call__] *)
Definition __call__ (target : option cmatrix) (iteration : nat)
  : M (World t) (matrix * matrix * tensor3) :=
  update_self (set_target target) ;;
  _reset ;;
  update iteration ;;
  T <- self_attr "basis" basis ;;
  V <- self_attr "activation" activation ;;
  Phi <- self_attr "phase" phase ;;
  ret (T, V, Phi).

End ComplexEUCNMF.

(** ** Small complex matrices and 4-d arrays *)

(** A (bins, frames) or (bins, basis) array of (channels, channels)
    matrices. *)
Definition tensor4 : Type := list (list cmatrix).

Definition czero : cnum := of_real (Fin 0).
Definition csum (l : list cnum) : cnum := fold_right cadd czero l.

(** Complex division, componentwise on the quotient by [|w|^2]: the value
    numpy computes for a finite non-zero divisor. *)
Definition cdiv (z w : cnum) : cnum :=
  let d := fadd (fmul (fst w) (fst w)) (fmul (snd w) (snd w)) in
  (fdiv (fadd (fmul (fst z) (fst w)) (fmul (snd z) (snd w))) d,
   fdiv (fsub (fmul (snd z) (fst w)) (fmul (fst z) (snd w))) d).

Definition ctranspose (M : cmatrix) : cmatrix := transpose_n czero (ncols M) M.

Definition cm_matmul (A B : cmatrix) : cmatrix :=
  map (fun row => map (fun col => csum (map2 cmul row col)) (ctranspose B)) A.

Definition cm_add (A B : cmatrix) : cmatrix := mmap2 cadd A B.

(** A real scalar times a complex matrix. *)
Definition cm_scale (a : num) (A : cmatrix) : cmatrix := mmap (rcmul a) A.

(** [np.trace(A)] *)
Definition cm_trace (A : cmatrix) : cnum :=
  csum (map (fun i => nth i (nth i A []) czero) (seq 0 (List.length A))).

(** [np.eye(n)] *)
Definition eye (n : nat) : matrix :=
  map (fun i => map (fun j => if Nat.eqb i j then Fin 1 else Fin 0) (seq 0 n))
      (seq 0 n).

(** A real matrix promoted to a complex one. *)
Definition cm_of_real (A : matrix) : cmatrix := mmap of_real A.

(** The sum of a list of matrices. *)
Definition cm_sum (l : list cmatrix) : cmatrix :=
  match l with
  | [] => []
  | A :: rest => fold_left cm_add rest A
  end.

(** ** The multichannel Itakura-Saito engine *)

Module MultichannelISNMF.

Record t : Type := mk {
  n_basis : nat;
  normalize : bool;
  loss : list num;
  eps : R;
  target : option tensor4;
  n_bins : option nat;
  n_frames : option nat;
  n_channels : option nat;
  spatial : option tensor4;
  basis : option matrix;
  activation : option matrix
}.

Definition set_loss (l : list num) (o : t) : t :=
  mk (n_basis o) (normalize o) l (eps o) (target o) (n_bins o) (n_frames o)
     (n_channels o) (spatial o) (basis o) (activation o).
Definition set_target (x : option tensor4) (o : t) : t :=
  mk (n_basis o) (normalize o) (loss o) (eps o) x (n_bins o) (n_frames o)
     (n_channels o) (spatial o) (basis o) (activation o).
Definition set_shape (b f c : nat) (o : t) : t :=
  mk (n_basis o) (normalize o) (loss o) (eps o) (target o) (Some b) (Some f)
     (Some c) (spatial o) (basis o) (activation o).
Definition set_spatial (x : tensor4) (o : t) : t :=
  mk (n_basis o) (normalize o) (loss o) (eps o) (target o) (n_bins o)
     (n_frames o) (n_channels o) (Some x) (basis o) (activation o).
Definition set_basis (x : matrix) (o : t) : t :=
  mk (n_basis o) (normalize o) (loss o) (eps o) (target o) (n_bins o)
     (n_frames o) (n_channels o) (spatial o) (Some x) (activation o).
Definition set_activation (x : matrix) (o : t) : t :=
  mk (n_basis o) (normalize o) (loss o) (eps o) (target o) (n_bins o)
     (n_frames o) (n_channels o) (spatial o) (basis o) (Some x).

Definition __init__ (n_basis : nat) (normalize : bool) (eps : R) : t :=
  mk n_basis normalize [] eps None None None None None None None.

(** [np.tile(np.eye(n_channels), reps=(n_bins, n_basis, 1, 1))] *)
Definition tile_eye (n_bins n_basis n_channels : nat) : tensor4 :=
  repeat (repeat (cm_of_real (eye n_channels)) n_basis) n_bins.

(** [hasattr(self, name)] for an attribute that a run creates. *)
Definition hasattr {A : Type} (x : option A) : bool :=
  match x with Some _ => true | None => false end.

Definition _reset : M (World t) unit :=
  (* MultichannelNMFbase._reset *)
  tgt <- self target ;;
  assert (hasattr tgt) "Specify data!" ;;
  tgt <- self_attr "target" target ;;
  n_basis <- self n_basis ;;
  let n_bins := List.length tgt in
  let n_frames := ncols tgt in
  let n_channels := List.length (hd [] (hd [] tgt)) in
  let _n_channels := ncols (hd [] (hd [] tgt)) in
  assert (Nat.eqb _n_channels n_channels) "Invalid input shape" ;;
  update_self (set_shape n_bins n_frames n_channels) ;;
  H <- self spatial ;;
  (if hasattr H then ret tt
   else update_self (set_spatial (tile_eye n_bins n_basis n_channels))) ;;
  T <- self basis ;;
  (if hasattr T then ret tt
   else (T <- rand n_bins n_basis ;; update_self (set_basis T))) ;;
  V <- self activation ;;
  (if hasattr V then ret tt
   else (V <- rand n_basis n_frames ;; update_self (set_activation V))).

Section Imported.

(** [np.linalg.inv] on a (bins, frames) stack of matrices, and the two
    functions imported from [algorithm.linalg] and
    [criterion.divergence]: parameters. *)
Variable np_linalg_inv : tensor4 -> result tensor4.
Variable solve_Riccati : tensor4 -> tensor4 -> result tensor4.
Variable multichannel_is_divergence : tensor4 -> tensor4 -> result matrix.

(** [reconstruct]: entry [(i, j)] is the sum over the bases [k] of
    [H[i,k] * (T[i,k] * V[k,j])]. *)
Definition reconstruct : M (World t) tensor4 :=
  H <- self_attr "spatial" spatial ;;
  T <- self_attr "basis" basis ;;
  V <- self_attr "activation" activation ;;
  ret (map2 (fun Hi Ti =>
               map (fun Vj =>
                      cm_sum (map2 (fun Hik tv => cm_scale tv Hik)
                                   Hi (map2 fmul Ti Vj)))
                   (transpose V))
            H T).

(** [np.linalg.inv(X_hat + eps * np.eye(n_channels))] *)
Definition inverse (eps : R) (n_channels : nat) (X_hat : tensor4)
  : M (World t) tensor4 :=
  lift_result
    (np_linalg_inv
       (mmap (fun X => cm_add X (cm_of_real (mscale eps (eye n_channels))))
             X_hat)).

(** [np.trace(P[:, np.newaxis] @ H[:, :, np.newaxis]).real]: entry
    [(i, k, j)] is the real part of the trace of [P[i,j] @ H[i,k]]. *)
Definition traces (P H : tensor4) : tensor3 :=
  map2 (fun Pi Hi =>
          map (fun Hik =>
                 map (fun Pij => creal (cm_trace (cm_matmul Pij Hik))) Pi)
              Hi)
       P H.

Definition sandwich (inv_X_hat X : tensor4) : tensor4 :=
  mmap2 (fun I Xij => cm_matmul (cm_matmul I Xij) I) inv_X_hat X.

Definition update_basis : M (World t) unit :=
  n_channels <- self_attr "n_channels" n_channels ;;
  eps <- self eps ;;
  X <- self_attr "target" target ;;
  H <- self_attr "spatial" spatial ;;
  T <- self_attr "basis" basis ;;
  V <- self_attr "activation" activation ;;
  X_hat <- reconstruct ;;
  inv_X_hat <- inverse eps n_channels X_hat ;;
  let XXX := sandwich inv_X_hat X in
  let numerator := traces XXX H in
  let numerator := sum_axis2 (over_bins (fun n v => fmul v n) numerator V) in
  let denominator := traces inv_X_hat H in
  let denominator :=
    mfloor eps (sum_axis2 (over_bins (fun d v => fmul v d) denominator V)) in
  let T := mmul T (msqrt (mdiv numerator denominator)) in
  update_self (set_basis T).

Definition update_activation : M (World t) unit :=
  n_channels <- self_attr "n_channels" n_channels ;;
  eps <- self eps ;;
  X <- self_attr "target" target ;;
  H <- self_attr "spatial" spatial ;;
  T <- self_attr "basis" basis ;;
  V <- self_attr "activation" activation ;;
  X_hat <- reconstruct ;;
  inv_X_hat <- inverse eps n_channels X_hat ;;
  let XXX := sandwich inv_X_hat X in
  let numerator := traces XXX H in
  let numerator :=
    sum_axis0 (over_frames (fun n t => fmul t n) numerator T) in
  let denominator := traces inv_X_hat H in
  let denominator :=
    mfloor eps
      (sum_axis0 (over_frames (fun d t => fmul t d) denominator T)) in
  let V := mmul V (msqrt (mdiv numerator denominator)) in
  update_self (set_activation V).

(** [np.sum(V[np.newaxis,:,:,np.newaxis,np.newaxis]
            * P[:,np.newaxis,:,:,:], axis=2)]: entry [(i, k)] is the sum
    over the frames [j] of [V[k,j] * P[i,j]]. *)
Definition weighted_sum (V : matrix) (P : tensor4) : tensor4 :=
  map (fun Pi => map (fun Vk => cm_sum (map2 cm_scale Vk Pi)) V) P.

Definition update_spatial : M (World t) unit :=
  n_channels <- self_attr "n_channels" n_channels ;;
  eps <- self eps ;;
  X <- self_attr "target" target ;;
  H <- self_attr "spatial" spatial ;;
  T <- self_attr "basis" basis ;;
  V <- self_attr "activation" activation ;;
  X_hat <- reconstruct ;;
  inv_X_hat <- inverse eps n_channels X_hat ;;
  let XXX := sandwich inv_X_hat X in
  let VXXX := weighted_sum V XXX in
  let A := weighted_sum V inv_X_hat in
  let B := mmap2 (fun Hik W => cm_matmul (cm_matmul Hik W) Hik) H VXXX in
  H <- lift_result (solve_Riccati A B) ;;
  let H :=
    mmap (fun Hik => cm_add Hik (cm_of_real (mscale eps (eye n_channels))))
         H in
  normalize <- self normalize ;;
  let H :=
    if normalize
    then mmap (fun Hik => mmap (fun h => cdiv h (cm_trace Hik)) Hik) H
    else H in
  update_self (set_spatial H).

Definition update_once : M (World t) unit :=
  update_basis ;;
  update_activation ;;
  update_spatial.

Definition update (target : tensor4) (iteration : nat) : M (World t) unit :=
  for_range iteration
    (update_once ;;
     HTV <- reconstruct ;;
     l <- lift_result (multichannel_is_divergence HTV target) ;;
     update_self (fun o => set_loss (loss o ++ [msum l]) o)).

Definition __call__ (target : tensor4) (iteration : nat)
  : M (World t) (tensor4 * matrix * matrix) :=
  update_self (set_target (Some target)) ;;
  _reset ;;
  update target iteration ;;
  H <- self_attr "spatial" spatial ;;
  T <- self_attr "basis" basis ;;
  V <- self_attr "activation" activation ;;
  ret (H, T, V).

End Imported.

End MultichannelISNMF.

(** The shape test of [MultichannelISNMF._reset]: the two trailing
    dimensions of the target agree. *)
Definition square_channels (tgt : tensor4) : bool :=
  Nat.eqb (ncols (hd [] (hd [] tgt))) (List.length (hd [] (hd [] tgt))).

(** The instance as [MultichannelISNMF._reset] leaves it when the three
    tensors already exist: the target and its shape are stored. *)
Definition warm (o : MultichannelISNMF.t) (tgt : tensor4)
  : MultichannelISNMF.t :=
  MultichannelISNMF.set_shape
    (List.length tgt) (ncols tgt) (List.length (hd [] (hd [] tgt)))
    (MultichannelISNMF.set_target (Some tgt) o).

(** ** The update rules as two half steps

    The alternation the specification describes: a Basis update computed
    from the current factors, then an Activation update computed from the
    Basis it is given and the current Activation. *)

Inductive rule : Type :=
| EUC_mm | KL_mm | IS_mm | IS_me | t_mm
| Cauchy_naive | Cauchy_mm | Cauchy_me | Cauchy_mm_fast.

(** The rule that [update_once] of a class selects for an algorithm. *)
Definition rule_of (c : engine) (a : string) : option rule :=
  match c with
  | Euclidean => if (a =? "mm")%string then Some EUC_mm else None
  | KullbackLeibler _ => if (a =? "mm")%string then Some KL_mm else None
  | ItakuraSaito _ =>
      if (a =? "mm")%string then Some IS_mm
      else if (a =? "me")%string then Some IS_me else None
  | StudentT _ => if (a =? "mm")%string then Some t_mm else None
  | Cauchy =>
      if (a =? "naive-multipricative")%string then Some Cauchy_naive
      else if (a =? "mm")%string then Some Cauchy_mm
      else if (a =? "me")%string then Some Cauchy_me
      else if (a =? "mm_fast")%string then Some Cauchy_mm_fast else None
  end.

Definition harmonic (eps nu : R) (target TV : matrix) : matrix :=
  let Z := mmap (fun x => fmaximum x eps) target in
  recip (madd (mmap (fdiv (Fin 2)) (mscale (2 + nu) TV))
              (mmap (fdiv (Fin nu)) (mscale (2 + nu) Z))).

Definition basis_update (r : rule) (target : matrix) (domain eps nu : R)
  (T V : matrix) : matrix :=
  match r with
  | EUC_mm =>
      let TV := mfloor eps (matmul T V) in
      let TVV := mfloor eps (matmul (mpow TV ((4 - domain) / domain))
                                    (transpose V)) in
      let numerator :=
        matmul (mmul target (mpow TV ((2 - domain) / domain))) (transpose V) in
      mmul T (mpow (mdiv numerator TVV) (domain / (4 - domain)))
  | KL_mm =>
      let TV := mfloor eps (matmul T V) in
      let TVV := mfloor eps (matmul (mpow TV ((2 - domain) / domain))
                                    (transpose V)) in
      let division := mdiv target TV in
      mmul T (mpow (mdiv (matmul division (transpose V)) TVV) (domain / 2))
  | IS_mm =>
      let TV := mfloor eps (matmul T V) in
      let division := mdiv target (mpow TV ((domain + 2) / domain)) in
      let TVV := mfloor eps (matmul (recip TV) (transpose V)) in
      mmul T (mpow (mdiv (matmul division (transpose V)) TVV)
                   (domain / (domain + 2)))
  | IS_me =>
      let TV := mfloor eps (matmul T V) in
      let division := mdiv target (mpow TV ((domain + 2) / domain)) in
      let TVV := mfloor eps (matmul (recip TV) (transpose V)) in
      mmul T (mdiv (matmul division (transpose V)) TVV)
  | t_mm =>
      let TV := mfloor eps (matmul T V) in
      let division := mdiv (harmonic eps nu target TV) (msqr TV) in
      let TVV := mfloor eps (matmul (recip TV) (transpose V)) in
      mmul T (msqrt (mdiv (matmul division (transpose V)) TVV))
  | Cauchy_naive =>
      let TV := mfloor eps (matmul T V) in
      let numerator := sum_div_frames V TV in
      let C := mfloor eps (madd (mscale 2 target) (msqr TV)) in
      let denominator :=
        mfloor eps (matmul (mscale 3 (mdiv TV C)) (transpose V)) in
      mmul T (mdiv numerator denominator)
  | Cauchy_mm =>
      let TV := mfloor eps (matmul T V) in
      let numerator := sum_div_frames V TV in
      let C := mfloor eps (madd (mscale 2 target) (msqr TV)) in
      let denominator :=
        mfloor eps (matmul (mscale 3 (mdiv TV C)) (transpose V)) in
      mmul T (msqrt (mdiv numerator denominator))
  | Cauchy_me =>
      let TV := matmul T V in
      let TV2Z := mfloor eps (madd (msqr TV) target) in
      let A := matmul (mscale (3 / 4) (mdiv TV TV2Z)) (transpose V) in
      let B := sum_div_frames V TV in
      let denominator :=
        mfloor eps (madd A (msqrt (madd (msqr A) (mmul (mscale 2 B) A)))) in
      mmul T (mdiv B denominator)
  | Cauchy_mm_fast =>
      let TV := matmul T V in
      let C := madd (mscale 2 target) (msqr TV) in
      let ZCTV := mdiv target (mfloor eps (mmul C TV)) in
      let TVC := mdiv TV (mfloor eps C) in
      let numerator := matmul ZCTV (transpose V) in
      let denominator := mfloor eps (matmul TVC (transpose V)) in
      mmul T (msqrt (mdiv numerator denominator))
  end.

Definition activation_update (r : rule) (target : matrix) (domain eps nu : R)
  (T V : matrix) : matrix :=
  match r with
  | EUC_mm =>
      let TV := mfloor eps (matmul T V) in
      let TTV := mfloor eps (matmul (transpose T)
                                    (mpow TV ((4 - domain) / domain))) in
      let numerator :=
        matmul (transpose T) (mmul target (mpow TV ((2 - domain) / domain))) in
      mmul V (mpow (mdiv numerator TTV) (domain / (4 - domain)))
  | KL_mm =>
      let TV := mfloor eps (matmul T V) in
      let TTV := mfloor eps (matmul (transpose T)
                                    (mpow TV ((2 - domain) / domain))) in
      let division := mdiv target TV in
      mmul V (mpow (mdiv (matmul (transpose T) division) TTV) (domain / 2))
  | IS_mm =>
      let TV := mfloor eps (matmul T V) in
      let division := mdiv target (mpow TV ((domain + 2) / domain)) in
      let TTV := mfloor eps (matmul (transpose T) (recip TV)) in
      mmul V (mpow (mdiv (matmul (transpose T) division) TTV)
                   (domain / (domain + 2)))
  | IS_me =>
      let TV := mfloor eps (matmul T V) in
      let division := mdiv target (mpow TV ((domain + 2) / domain)) in
      let TTV := mfloor eps (matmul (transpose T) (recip TV)) in
      mmul V (mdiv (matmul (transpose T) division) TTV)
  | t_mm =>
      let TV := mfloor eps (matmul T V) in
      let division := mdiv (harmonic eps nu target TV) (msqr TV) in
      let TTV := mfloor eps (matmul (transpose T) (recip TV)) in
      mmul V (msqrt (mdiv (matmul (transpose T) division) TTV))
  | Cauchy_naive =>
      let TV := mfloor eps (matmul T V) in
      let numerator := sum_div_bins T TV in
      let C := mfloor eps (madd (mscale 2 target) (msqr TV)) in
      let denominator :=
        mfloor eps (matmul (mscale 3 (transpose T)) (mdiv TV C)) in
      mmul V (mdiv numerator denominator)
  | Cauchy_mm =>
      let TV := mfloor eps (matmul T V) in
      let numerator := sum_div_bins T TV in
      let C := mfloor eps (madd (mscale 2 target) (msqr TV)) in
      let denominator :=
        mfloor eps (matmul (mscale 3 (transpose T)) (mdiv TV C)) in
      mmul V (msqrt (mdiv numerator denominator))
  | Cauchy_me =>
      let TV := matmul T V in
      let TV2Z := mfloor eps (madd (msqr TV) target) in
      let A := matmul (mscale (3 / 4) (transpose T)) (mdiv TV TV2Z) in
      let B := sum_div_bins T TV in
      let denominator :=
        mfloor eps (madd A (msqrt (madd (msqr A) (mmul (mscale 2 B) A)))) in
      mmul V (mdiv B denominator)
  | Cauchy_mm_fast =>
      let TV := matmul T V in
      let C := madd (mscale 2 target) (msqr TV) in
      let ZCTV := mdiv target (mfloor eps (mmul C TV)) in
      let TVC := mdiv TV (mfloor eps C) in
      let numerator := matmul (transpose T) ZCTV in
      let denominator := mfloor eps (matmul (transpose T) TVC) in
      mmul V (msqrt (mdiv numerator denominator))
  end.

(** Gauss-Seidel: the Activation half step takes the updated Basis. *)
Definition alternate (r : rule) (target : matrix) (domain eps nu : R)
  (T V : matrix) : matrix * matrix :=
  let T' := basis_update r target domain eps nu T V in
  (T', activation_update r target domain eps nu T' V).

(** Jacobi, for comparison: both half steps take the factors the step
    started from. *)
Definition simultaneous (r : rule) (target : matrix) (domain eps nu : R)
  (T V : matrix) : matrix * matrix :=
  (basis_update r target domain eps nu T V,
   activation_update r target domain eps nu T V).

Definition nu_of (o : NMF) : R :=
  match nu o with Some v => v | None => 0 end.

(** ** Finite non-negative values *)

(** A finite entry that is non-negative, respectively positive. *)
Definition nn (x : num) : Prop := exists a, x = Fin a /\ 0 <= a.
Definition pos (x : num) : Prop := exists a, x = Fin a /\ 0 < a.

(** Every entry of a 2-d array satisfies [P]. *)
Definition mat (P : num -> Prop) (M : matrix) : Prop := Forall (Forall P) M.

(** Every row of a 2-d array has the length of the first one. *)
Definition rect {A : Type} (M : list (list A)) : Prop :=
  Forall (fun r => List.length r = ncols M) M.

(** A generator whose first draw is [0] and whose later draws are [1/2]. *)
Definition zero_then_half : RandomState :=
  mkRandomState (fun i => match i with O => 0 | _ => 1 / 2 end) 0.

(** A Euclidean instance in the state a run's reset leaves: target [4],
    Basis [1], Activation [1]. *)
Definition euclidean_example : NMF :=
  mkNMF 1 [] 1e-12 2 "mm" None
        (fun input target => Ok (msqr (msub target input)))
        (Some [[Fin 4]]) (Some [[Fin 1]]) (Some [[Fin 1]]).

(** The Euclidean half steps as the claim words them: the numerator and
    the denominator are built from the product [T @ V] itself, and only the
    denominator is floored. *)
Definition claimed_euclidean_basis (target : matrix) (domain eps : R)
  (T V : matrix) : matrix :=
  let TV := matmul T V in
  let numerator :=
    matmul (mmul target (mpow TV ((2 - domain) / domain))) (transpose V) in
  let denominator :=
    mfloor eps (matmul (mpow TV ((4 - domain) / domain)) (transpose V)) in
  mmul T (mpow (mdiv numerator denominator) (domain / (4 - domain))).

Definition claimed_euclidean_activation (target : matrix) (domain eps : R)
  (T V : matrix) : matrix :=
  let TV := matmul T V in
  let numerator :=
    matmul (transpose T) (mmul target (mpow TV ((2 - domain) / domain))) in
  let denominator :=
    mfloor eps (matmul (transpose T) (mpow TV ((4 - domain) / domain))) in
  mmul V (mpow (mdiv numerator denominator) (domain / (4 - domain))).

(** A Euclidean instance after reset: one bin, one basis, two frames;
    the product of the Basis with the first Activation entry is below
    [eps]. *)
Definition small_product_example : NMF :=
  mkNMF 1 [] 1e-12 2 "mm" None
        (fun input target => Ok (msqr (msub target input)))
        (Some [[Fin 1; Fin 1]]) (Some [[Fin 1e-6]])
        (Some [[Fin 1e-7; Fin (1 / 2)]]).

(** The run of the Cauchy engine with the loss the specification
    prescribes for the real-valued engines: the criterion applied to
    [(T @ V) ** (2 / domain)]. *)
Definition CauchyNMF_prescribed_call
  : option matrix -> nat -> M (World NMF) (matrix * matrix) :=
  NMFbase.__call__ (update_with_domain CauchyNMF.update_once).

(** A finite entry of the interval [0, 1]. *)
Definition unit_interval (x : num) : Prop := exists b, x = Fin b /\ 0 <= b <= 1.

(** [Beta] as [update_beta] computes it from the two factors. *)
Definition beta_of (eps : R) (T V : matrix) : tensor3 :=
  over_bases fdiv (outer T V) (mfloor eps (sum_axis1 fadd (outer T V))).

(** The loss of the complex engine as the specification prescribes it: the
    squared magnitude of the difference between the target and the sum over
    the components of [T[i,k] * V[k,j] * exp(1j * Phi[i,k,j])], summed over
    the cells. *)
Definition prescribed_complex_loss (T V : matrix) (Phi : tensor3)
  (target : cmatrix) : num :=
  let X := t3map2 rcmul (outer T V) (t3map cexp_i Phi) in
  msum (mmap2 (fun x z => fsqr (cabs (csub x z))) (sum_axis1 cadd X) target).

(** The loss that the loop of the complex engine appends. *)
Definition logged_complex_loss (T V : matrix) (Phi : tensor3)
  (target : cmatrix) : num :=
  msum (ComplexEUCNMF.criterion
          (sum_axis1 fadd (t3map2 fmul (outer T V) Phi)) target).

(** What the constructor of the Euclidean class establishes and a run
    keeps: the algorithm, the range of [domain] and the criterion. *)
Definition euclidean_instance (o : NMF) : Prop :=
  algorithm o = "mm"%string
  /\ 1 <= domain o <= 2
  /\ criterion o = (fun input target => Ok (msqr (msub target input))).

(** The draws of the generator are non-negative, as those of
    [np.random.rand] are. *)
Definition draws_nonneg (g : RandomState) : Prop := forall i, 0 <= stream g i.

(** The complex instance once a run has reset it: every tensor exists. *)
Definition complex_ready (w : World ComplexEUCNMF.t) : Prop :=
  (exists x, ComplexEUCNMF.target (fst w) = Some x)
  /\ (exists x, ComplexEUCNMF.basis (fst w) = Some x)
  /\ (exists x, ComplexEUCNMF.activation (fst w) = Some x)
  /\ (exists x, ComplexEUCNMF.phase (fst w) = Some x)
  /\ (exists x, ComplexEUCNMF.Beta (fst w) = Some x).

(** A multichannel method that leaves the loss trace alone when it
    returns. *)
Definition keeps_loss {A : Type} (m : M (World MultichannelISNMF.t) A) : Prop :=
  forall w w' a,
    m w = (w', Ok a) ->
    MultichannelISNMF.loss (fst w') = MultichannelISNMF.loss (fst w).

(** A multichannel target with one bin, one frame and one channel. *)
Definition single_cell_target : tensor4 := [[ [[ (Fin 1, Fin 0) ]] ]].

(** * Further properties of the engines: definitions *)

(** ** Shapes *)

(** A 2-d array of [r] rows and [c] columns. *)
Definition shape {A : Type} (r c : nat) (M : list (list A)) : Prop :=
  List.length M = r /\ Forall (fun row => List.length row = c) M.

(** The factors a run starts from: the two arrays [_reset] draws. *)
Definition initial_factors (o : NMF) (tgt : matrix) (g : RandomState)
  : matrix * matrix :=
  (rand_matrix g (List.length tgt) (n_basis o),
   rand_matrix (advance g (List.length tgt * n_basis o))
               (n_basis o) (ncols tgt)).

(** One update step on a pair of factors. *)
Definition step_of (r : rule) (target : matrix) (domain eps nu : R)
  (TV : matrix * matrix) : matrix * matrix :=
  alternate r target domain eps nu (fst TV) (snd TV).

(** An instance that holds an exact factorisation: target [2], Basis [1],
    Activation [2]. *)
Definition factorised_example (algorithm : string)
  (criterion : matrix -> matrix -> result matrix) : NMF :=
  mkNMF 1 [] 1e-12 2 algorithm None criterion
        (Some [[Fin 2]]) (Some [[Fin 1]]) (Some [[Fin 2]]).

(** ** The abstract multichannel base class *)

Module MultichannelNMFbase.

(** The base class sets and reads [target] only; its instances are
    embedded in the record of the multichannel engine. *)
Definition _reset : M (World MultichannelISNMF.t) unit :=
  tgt <- self MultichannelISNMF.target ;;
  assert (match tgt with Some _ => true | None => false end) "Specify data!".

Definition update_once : M (World MultichannelISNMF.t) unit :=
  raise (NotImplementedError "Implement `update_once` method.").

Definition update (iteration : nat) : M (World MultichannelISNMF.t) unit :=
  for_range iteration update_once ;;
  raise (NotImplementedError "Implement `update` method.").

Definition __call__ (target : option tensor4) (iteration : nat)
  : M (World MultichannelISNMF.t) unit :=
  update_self (MultichannelISNMF.set_target target) ;;
  _reset ;;
  update iteration.

End MultichannelNMFbase.

(** A Student-t instance as the constructor builds it for [nu = 0]. *)
Definition student_t_zero_nu_example : NMF :=
  mkNMF 1 [] 1e-12 2 "mm" (Some 0) (tNMF.t_divergence 1e-12 0)
        None None None.

(** The attributes that the update methods of the multichannel engine
    read all exist. *)
Definition multichannel_ready (o : MultichannelISNMF.t) : Prop :=
  (exists X, MultichannelISNMF.target o = Some X)
  /\ (exists c, MultichannelISNMF.n_channels o = Some c)
  /\ (exists H, MultichannelISNMF.spatial o = Some H)
  /\ (exists T, MultichannelISNMF.basis o = Some T)
  /\ (exists V, MultichannelISNMF.activation o = Some V).

(** The array [reconstruct] returns for the tensors [H], [T] and [V]. *)
Definition reconstruction (H : tensor4) (T V : matrix) : tensor4 :=
  map2 (fun Hi Ti =>
          map (fun Vj =>
                 cm_sum (map2 (fun Hik tv => cm_scale tv Hik)
                              Hi (map2 fmul Ti Vj)))
              (transpose V))
       H T.

(** [X_hat + eps * np.eye(n_channels)]: the array that each of the three
    update methods passes to [np.linalg.inv]. *)
Definition regularised (eps : R) (n_channels : nat) (X_hat : tensor4)
  : tensor4 :=
  mmap (fun X => cm_add X (cm_of_real (mscale eps (eye n_channels)))) X_hat.

(** [np.linalg.inv] on a stack of 1 x 1 matrices: the reciprocal of the
    entry, and [LinAlgError] when one of the matrices is zero. *)
Definition singular_1x1 (A : cmatrix) : bool :=
  match A with
  | [[(Fin a, Fin b)]] => Reqb a 0 && Reqb b 0
  | _ => false
  end.

Definition inv_1x1 (X : tensor4) : result tensor4 :=
  if existsb (existsb singular_1x1) X then Raise LinAlgError
  else Ok (mmap (mmap (cdiv (Fin 1, Fin 0))) X).

(** A multichannel instance as reset leaves it on a cold start, for the
    one-cell target and draws that are all [1/2]. *)
Definition multichannel_cold_example : MultichannelISNMF.t :=
  MultichannelISNMF.set_activation [[Fin (1 / 2)]]
    (MultichannelISNMF.set_basis [[Fin (1 / 2)]]
       (MultichannelISNMF.set_spatial (MultichannelISNMF.tile_eye 1 1 1)
          (warm (MultichannelISNMF.__init__ 1 true 1e-12)
                single_cell_target))).

(** A generator whose draws are all [0], the least value
    [np.random.rand] returns. *)
Definition constant_zero : RandomState := mkRandomState (fun _ => 0) 0.

(** A finite entry: neither an infinity nor NaN. *)
Definition finite (x : num) : Prop := exists a, x = Fin a.

(** A value that is not negative: a finite non-negative number, plus
    infinity, or NaN. *)
Definition not_negative (x : num) : Prop := nn x \/ x = PInf \/ x = NaN.

(** Entry by entry, a zero of [M] is a zero or a NaN of [M']; the two
    arrays have the same shape. *)
Definition keeps_zeros (M M' : matrix) : Prop :=
  Forall2 (Forall2 (fun old new => old = Fin 0 -> new = Fin 0 \/ new = NaN))
          M M'.


(** ** [update_beta] in floating-point arithmetic *)

(** A 3-d array of [a] blocks of [b] rows and [c] columns. *)
Definition shape3 {A : Type} (a b c : nat) (X : list (list (list A)))
  : Prop :=
  List.length X = a /\ Forall (shape b c) X.

(** [T[:,:,np.newaxis] * V[np.newaxis,:,:]] over the numbers of any format
    with the product [mul]. *)
Definition outer_with {A : Type} (mul : A -> A -> A) (T V : list (list A))
  : list (list (list A)) :=
  map (fun Ti => map2 (fun t Vk => map (mul t) Vk) Ti V) T.

(** The array that [update_beta] stores, over the numbers of any format:
    [mul], [add] and [div] are the operations of the format and [floor]
    is [x[x < eps] = eps]. *)
Definition beta_with {A : Type} (mul add div : A -> A -> A) (floor : A -> A)
  (T V : list (list A)) : list (list (list A)) :=
  let TV := outer_with mul T V in
  let TVsum := mmap floor (sum_axis1 add TV) in
  over_bases div TV TVsum.

(** The products [T[i,k] * V[k,j]] of a cell [(i, j)], for [k] along the
    basis axis, [Ti] being the row [T[i,:]]. *)
Definition products {A : Type} (mul : A -> A -> A) (d : A) (Ti : list A)
  (V : list (list A)) (j : nat) : list A :=
  map2 (fun t Vk => mul t (nth j Vk d)) Ti V.

(** The sum of a list added up from the left, as numpy adds along an
    axis. *)
Definition sum_of {A : Type} (add : A -> A -> A) (d : A) (l : list A) : A :=
  match l with
  | [] => d
  | x :: r => fold_left add r x
  end.

(** The result of an operation in a floating-point format: the exact
    result rounded by [rnd] to a value of the format, and an infinity when
    the rounded value is beyond [big], the largest finite value.  For
    binary64 [rnd] rounds to the nearest double, ties to even. *)
Definition round (rnd : R -> R) (big : R) (x : num) : num :=
  match x with
  | Fin a =>
      if Rltb big (rnd a) then PInf
      else if Rltb (rnd a) (- big) then NInf
      else Fin (rnd a)
  | _ => x
  end.

Module Rounded.

Definition fadd (rnd : R -> R) (big : R) (x y : num) : num :=
  round rnd big (fadd x y).
Definition fmul (rnd : R -> R) (big : R) (x y : num) : num :=
  round rnd big (fmul x y).
Definition fdiv (rnd : R -> R) (big : R) (x y : num) : num :=
  round rnd big (fdiv x y).

(** [ComplexEUCNMF.update_beta] with every product, sum and quotient
    rounded. *)
Definition update_beta (rnd : R -> R) (big : R)
  : M (World ComplexEUCNMF.t) unit :=
  T <- self_attr "basis" ComplexEUCNMF.basis ;;
  V <- self_attr "activation" ComplexEUCNMF.activation ;;
  eps <- self ComplexEUCNMF.eps ;;
  update_self
    (ComplexEUCNMF.set_Beta
       (beta_with (fmul rnd big) (fadd rnd big) (fdiv rnd big)
                  (floor_at eps) T V)).

End Rounded.

Module Binary64.

Import PrimFloat.

(** [x[x < eps] = eps] on doubles: a NaN is left alone. *)
Definition floor_at (eps x : float) : float :=
  if PrimFloat.ltb x eps then eps else x.

(** The array [ComplexEUCNMF.update_beta] stores, on IEEE 754 binary64
    values, the numbers numpy computes with. *)
Definition update_beta (eps : float) (T V : list (list float))
  : list (list (list float)) :=
  beta_with PrimFloat.mul PrimFloat.add PrimFloat.div (floor_at eps) T V.

Definition zero : float := 0%float.
Definition one : float := 1%float.

(** The doubles nearest to [1e-12], [0.1], [0.2] and [0.3], and [0.5]. *)
Definition eps_default : float := 0x1.19799812dea11p-40%float.
Definition tenth : float := 0x1.999999999999ap-4%float.
Definition fifth : float := 0x1.999999999999ap-3%float.
Definition three_tenths : float := 0x1.3333333333333p-2%float.
Definition half : float := 0x1p-1%float.

(** [2^600], whose square is beyond the largest double. *)
Definition huge : float := 0x1p600%float.

(** The double just below [1]: [1 - 2^-53], printed 0.99999999999999989. *)
Definition below_one : float := 0x1.fffffffffffffp-1%float.

(** A Basis of one bin and three components, and an Activation of three
    components and one frame. *)
Definition basis_example : list (list float) := [[half; half; half]].
Definition activation_example : list (list float) :=
  [[tenth]; [fifth]; [three_tenths]].

End Binary64.

(** A value that an operation of the format returns on operands that are
    not negative: a finite non-negative value of the format, plus
    infinity, or NaN. *)
Definition rounded_not_negative (rnd : R -> R) (x : num) : Prop :=
  match x with
  | Fin a => 0 <= a /\ rnd a = a
  | PInf | NaN => True
  | NInf => False
  end.

(** What relates a term [x] of a sum of such values to the sum [s]: unless
    one of the two is NaN, the sum is plus infinity or a finite value that
    is at least the term. *)
Definition term_of_sum (x s : num) : Prop :=
  x = NaN \/ s = NaN \/ (s = PInf /\ x <> NInf)
  \/ exists a b, x = Fin a /\ s = Fin b /\ 0 <= a <= b.

Definition terms_of_sums (r s : vector) : Prop :=
  Forall (fun p => term_of_sum (fst p) (snd p)) (combine r s).

(** A finite entry of the interval [0, 1], or NaN. *)
Definition unit_interval_or_nan (x : num) : Prop :=
  unit_interval x \/ x = NaN.

(** Rounding down to a multiple of [1/8]: a fixed-point format. *)
Definition round_to_eighths (x : R) : R := IZR (Zfloor (x * 8)) / 8.

(** A complex instance of one bin, two components and one frame. *)
Definition two_component_example : ComplexEUCNMF.t :=
  ComplexEUCNMF.set_activation [[Fin (1 / 2)]; [Fin 1]]
    (ComplexEUCNMF.set_basis [[Fin (1 / 2); Fin (1 / 2)]]
       (ComplexEUCNMF.__init__ 2 (1 / 10) 1 1e-12)).
(** ** Basic facts *)

Lemma Reqb_true (a b : R) : a = b -> Reqb a b = true.
Proof. intros H. unfold Reqb. destruct (Req_dec_T a b); congruence. Qed.

Lemma Reqb_false (a b : R) : a <> b -> Reqb a b = false.
Proof. intros H. unfold Reqb. destruct (Req_dec_T a b); congruence. Qed.

Lemma Rltb_true (a b : R) : a < b -> Rltb a b = true.
Proof. intros H. unfold Rltb. destruct (Rlt_dec a b); tauto. Qed.

Lemma Rltb_false (a b : R) : ~ a < b -> Rltb a b = false.
Proof. intros H. unfold Rltb. destruct (Rlt_dec a b); tauto. Qed.

Lemma domain_in_range_true (d : R) : 1 <= d <= 2 -> domain_in_range d = true.
Proof.
  intros [H1 H2]. unfold domain_in_range, Rle_bool.
  destruct (Rle_dec 1 d); [|tauto]. destruct (Rle_dec d 2); [|tauto].
  reflexivity.
Qed.

Lemma domain_in_range_false (d : R) :
  d < 1 \/ 2 < d -> domain_in_range d = false.
Proof.
  intros H. unfold domain_in_range, Rle_bool.
  destruct (Rle_dec 1 d); [|reflexivity].
  destruct (Rle_dec d 2); [|reflexivity]. lra.
Qed.

Lemma reset_ok (o : NMF) (tgt : matrix) (g : RandomState) :
  (update_self (set_target (Some tgt)) ;; NMFbase._reset) (o, g)
  = (after_reset o tgt g, Ok tt).
Proof. reflexivity. Qed.

Lemma call_unfold (c : engine) (tgt : matrix) (it : nat) (o : NMF)
  (g : RandomState) :
  call_of c (Some tgt) it (o, g)
  = (update_of c it ;;
     T <- self_attr "basis" basis ;;
     V <- self_attr "activation" activation ;;
     ret (T, V)) (after_reset o tgt g).
Proof. reflexivity. Qed.

Lemma update_of_unfold (c : engine) (it : nat) (w : World NMF) :
  update_of c it w
  = match c with
    | Cauchy => NMFbase.update (update_once_of c) it w
    | _ => update_with_domain (update_once_of c) it w
    end.
Proof. destruct c; reflexivity. Qed.

(** An exception of the first update step ends the run in the state that
    step left. *)
Lemma update_with_domain_first_raises (uo : M (World NMF) unit) (n : nat)
  (w w' : World NMF) (e : exn) :
  uo w = (w', Raise e) ->
  update_with_domain uo (S n) w = (w', Raise e).
Proof.
  intros H. unfold update_with_domain, bind, self, gets.
  cbn [for_range]. unfold bind. rewrite H. reflexivity.
Qed.

Lemma NMFbase_update_first_raises (uo : M (World NMF) unit) (n : nat)
  (w w' : World NMF) (e : exn) :
  uo w = (w', Raise e) ->
  NMFbase.update uo (S n) w = (w', Raise e).
Proof.
  intros H. unfold NMFbase.update, bind, self, gets.
  cbn [for_range]. unfold bind. rewrite H. reflexivity.
Qed.

Lemma update_of_first_raises (c : engine) (n : nat) (w w' : World NMF)
  (e : exn) :
  update_once_of c w = (w', Raise e) ->
  update_of c (S n) w = (w', Raise e).
Proof.
  intros H. rewrite update_of_unfold.
  destruct c;
    auto using update_with_domain_first_raises, NMFbase_update_first_raises.
Qed.

Lemma call_first_raises (c : engine) (tgt : matrix) (n : nat) (o : NMF)
  (g : RandomState) (w' : World NMF) (e : exn) :
  update_once_of c (after_reset o tgt g) = (w', Raise e) ->
  call_of c (Some tgt) (S n) (o, g) = (w', Raise e).
Proof.
  intros H. rewrite call_unfold. unfold bind at 1.
  rewrite (update_of_first_raises _ _ _ _ _ H). reflexivity.
Qed.

Lemma call_zero_iterations (c : engine) (tgt : matrix) (o : NMF)
  (g : RandomState) :
  call_of c (Some tgt) 0 (o, g)
  = (after_reset o tgt g,
     Ok (rand_matrix g (List.length tgt) (n_basis o),
         rand_matrix (advance g (List.length tgt * n_basis o))
                     (n_basis o) (ncols tgt))).
Proof. destruct c; reflexivity. Qed.

Lemma construct_domain_out_of_range (c : engine) (n : nat) (d : R)
  (a : string) (e : R) :
  d < 1 \/ 2 < d ->
  exists msg, construct c n d a e = Raise (AssertionError msg).
Proof.
  intros H.
  destruct c; simpl;
    unfold EUCNMF.__init__, KLNMF.__init__, ISNMF.__init__, tNMF.__init__,
      CauchyNMF.__init__;
    try (rewrite (domain_in_range_false d H); simpl; eauto).
  rewrite Reqb_false by lra. simpl. eauto.
Qed.

(** C7. Every constructor of a real-valued engine (Euclidean, KL,
    Itakura-Saito, Student-t, Cauchy) rejects a [domain] outside the
    interval [1, 2]: construction raises the assertion error and returns no
    instance, so no state exists and no update can run. *)
Theorem constructor_rejects_domain_outside_1_2 (c : engine) (n_basis : nat)
  (domain : R) (algorithm : string) (eps : R) :
  domain < 1 \/ 2 < domain ->
  (exists msg,
      construct c n_basis domain algorithm eps = Raise (AssertionError msg))
  /\ (forall o, construct c n_basis domain algorithm eps <> Ok o).
Proof.
  intros H.
  destruct (construct_domain_out_of_range c n_basis domain algorithm eps H)
    as [msg Hm].
  split; [eauto|]. intros o Ho. congruence.
Qed.

Lemma constructor_rejects_domain_3 :
  (3 < 1 \/ 2 < 3)
  /\ (exists msg,
         construct Euclidean 2 3 "mm" 1e-12 = Raise (AssertionError msg))
  /\ (forall o, construct Euclidean 2 3 "mm" 1e-12 <> Ok o).
Proof.
  split; [right; lra|].
  apply (constructor_rejects_domain_outside_1_2 Euclidean 2 3 "mm" 1e-12).
  right; lra.
Defined.

(** ** Where configuration errors are raised *)

Lemma raised_in_first_step_intro (c : engine) (o : NMF) (e : exn) :
  (forall tgt g, update_once_of c (after_reset o tgt g)
                 = (after_reset o tgt g, Raise e)) ->
  raised_in_first_step c o e.
Proof.
  intros H tgt g. split; [apply reset_ok|]. split; [apply H|].
  split.
  - intros n. apply call_first_raises, H.
  - rewrite call_zero_iterations. eauto.
Qed.

(** Evaluation of the monadic plumbing and of attribute access, leaving
    the array arithmetic folded. *)
Ltac psimpl :=
  cbn [fst snd
       n_basis loss eps domain algorithm nu criterion target basis activation
       set_loss set_target set_basis set_activation].

Ltac msimpl :=
  unfold store_factors, not_supported, self, self_attr, update_self, assert,
    attr, gets, modify, raise, ret, lift_result, bind;
  psimpl.

Lemma ISNMF_me_step_raises (o : NMF) (g : RandomState) (t : matrix) :
  algorithm o = "me"%string -> target o = Some t -> domain o <> 2 ->
  ISNMF.update_once (o, g)
  = ((o, g), Raise (AssertionError "Only domain = 2 is supported.")).
Proof.
  intros Ha Ht Hd.
  unfold ISNMF.update_once. msimpl. rewrite Ha. simpl (_ =? _)%string.
  unfold ISNMF.update_once_me. msimpl. rewrite Ht. msimpl.
  rewrite (Reqb_false _ _ Hd). reflexivity.
Qed.

Lemma tNMF_mm_step_raises (o : NMF) (g : RandomState) (t : matrix) (v : R) :
  algorithm o = "mm"%string -> target o = Some t -> nu o = Some v ->
  domain o <> 2 ->
  tNMF.update_once (o, g)
  = ((o, g), Raise (AssertionError "`domain` is expected 2.")).
Proof.
  intros Ha Ht Hn Hd.
  unfold tNMF.update_once. msimpl. rewrite Ha. simpl (_ =? _)%string.
  unfold tNMF.update_once_mm. msimpl. rewrite Ht. msimpl. rewrite Hn. msimpl.
  rewrite (Reqb_false _ _ Hd). reflexivity.
Qed.

Lemma unknown_algorithm_step_raises (c : engine) (o : NMF) (g : RandomState) :
  known_algorithm c (algorithm o) = false ->
  update_once_of c (o, g)
  = ((o, g),
     Raise (ValueError ("Not support " ++ algorithm o ++ " based update."))).
Proof.
  intros H.
  destruct c; simpl in H |- *;
    unfold EUCNMF.update_once, KLNMF.update_once, ISNMF.update_once,
      tNMF.update_once, CauchyNMF.update_once, bind, self, gets,
      not_supported, raise; simpl;
    repeat match type of H with
      | (_ || _)%bool = false => apply orb_false_iff in H; destruct H as [H ?]
      end;
    repeat match goal with
      | E : (_ =? _)%string = false |- _ => rewrite E; clear E
      end; reflexivity.
Qed.

Lemma construct_algorithm (c : engine) (n : nat) (d : R) (a : string)
  (e : R) (o : NMF) :
  construct c n d a e = Ok o ->
  n_basis o = n /\ domain o = d /\ algorithm o = a /\ eps o = e
  /\ loss o = [] /\ target o = None /\ basis o = None /\ activation o = None.
Proof.
  destruct c; simpl;
    unfold EUCNMF.__init__, KLNMF.__init__, ISNMF.__init__, tNMF.__init__,
      CauchyNMF.__init__;
    intros H;
    repeat match type of H with
      | (if ?b then _ else _) = _ => destruct b; try discriminate
      end;
    injection H as <-; simpl; repeat split; reflexivity.
Qed.

(** C3, as the code has it.  At construction: every class rejects a
    [domain] outside [1, 2], the Euclidean and KL classes reject an
    algorithm other than 'mm', the Cauchy class rejects a [domain] other
    than 2.  The remaining checks are made by [update_once]: the IS class
    with algorithm 'me' and the Student-t class accept any [domain] of
    [1, 2] at construction and raise for [domain <> 2] in the first step of
    a run's loop, after reset has drawn the factors; so does the
    unsupported-algorithm check of the IS, Student-t and Cauchy classes.  A
    run of zero iterations on such an instance returns without an error. *)
Theorem configuration_errors_where_raised :
  (forall c n d a e,
      d < 1 \/ 2 < d ->
      exists msg, construct c n d a e = Raise (AssertionError msg))
  /\ (forall n d a e,
         1 <= d <= 2 -> a <> "mm"%string ->
         construct Euclidean n d a e
         = Raise (AssertionError "algorithm must be 'mm'."))
  /\ (forall div n d a e,
         1 <= d <= 2 -> a <> "mm"%string ->
         construct (KullbackLeibler div) n d a e
         = Raise (AssertionError "algorithm must be 'mm'."))
  /\ (forall n d a e,
         d <> 2 ->
         construct Cauchy n d a e
         = Raise (AssertionError "Only `domain` = 2 is supported."))
  /\ (forall div n d e,
         1 <= d <= 2 -> d <> 2 ->
         exists o,
           construct (ItakuraSaito div) n d "me" e = Ok o
           /\ raised_in_first_step (ItakuraSaito div) o
                (AssertionError "Only domain = 2 is supported."))
  /\ (forall nu n d e,
         1 <= d <= 2 -> d <> 2 ->
         exists o,
           construct (StudentT nu) n d "mm" e = Ok o
           /\ raised_in_first_step (StudentT nu) o
                (AssertionError "`domain` is expected 2."))
  /\ (forall c n d a e o,
         construct c n d a e = Ok o ->
         known_algorithm c a = false ->
         raised_in_first_step c o
           (ValueError ("Not support " ++ a ++ " based update."))).
Proof.
  split; [apply construct_domain_out_of_range|].
  split.
  { intros n d a e Hd Ha. simpl. unfold EUCNMF.__init__.
    rewrite (domain_in_range_true d Hd). simpl.
    apply String.eqb_neq in Ha. rewrite Ha. reflexivity. }
  split.
  { intros div n d a e Hd Ha. simpl. unfold KLNMF.__init__.
    rewrite (domain_in_range_true d Hd). simpl.
    apply String.eqb_neq in Ha. rewrite Ha. reflexivity. }
  split.
  { intros n d a e Hd. simpl. unfold CauchyNMF.__init__.
    rewrite (Reqb_false _ _ Hd). reflexivity. }
  split.
  { intros div n d e Hd Hne. simpl. unfold ISNMF.__init__.
    rewrite (domain_in_range_true d Hd). simpl.
    eexists. split; [reflexivity|].
    apply raised_in_first_step_intro. intros tgt g.
    eapply ISNMF_me_step_raises; simpl; eauto. }
  split.
  { intros v n d e Hd Hne. simpl. unfold tNMF.__init__.
    rewrite (domain_in_range_true d Hd). simpl.
    eexists. split; [reflexivity|].
    apply raised_in_first_step_intro. intros tgt g.
    eapply tNMF_mm_step_raises; simpl; eauto. }
  intros c n d a e o Hc Hk.
  destruct (construct_algorithm _ _ _ _ _ _ Hc) as (_ & _ & Ha & _).
  apply raised_in_first_step_intro. intros tgt g.
  subst a. apply (unknown_algorithm_step_raises c (fst (after_reset o tgt g))).
  exact Hk.
Qed.

Lemma configuration_errors_where_raised_witness :
  (1 <= 1.5 <= 2) /\ 1.5 <> 2
  /\ exists o,
       construct (ItakuraSaito (fun input _ => input)) 2 1.5 "me" 1e-12 = Ok o
       /\ raised_in_first_step (ItakuraSaito (fun input _ => input)) o
            (AssertionError "Only domain = 2 is supported.").
Proof.
  split; [lra|]. split; [lra|].
  apply (proj1 (proj2 (proj2 (proj2 (proj2
           configuration_errors_where_raised))))); lra.
Defined.

(** C3, as stated, fails: an IS engine with algorithm 'me' and domain 1.5,
    and a Student-t engine with domain 1.5, are constructed without an
    error; the reset that starts the run completes; the assertion is raised
    by the first update step, inside the loop. *)
Lemma domain_check_raised_inside_first_update_step :
  let g := constant_half in
  let tgt := [[Fin 1]] in
  (exists o,
      ISNMF.__init__ (fun input _ => input) 2 1.5 "me" 1e-12 = Ok o
      /\ (update_self (set_target (Some tgt)) ;; NMFbase._reset) (o, g)
         = (after_reset o tgt g, Ok tt)
      /\ ISNMF.update_once (after_reset o tgt g)
         = (after_reset o tgt g,
            Raise (AssertionError "Only domain = 2 is supported."))
      /\ ISNMF.__call__ (Some tgt) 1 (o, g)
         = (after_reset o tgt g,
            Raise (AssertionError "Only domain = 2 is supported.")))
  /\ (exists o,
         tNMF.__init__ 2 1000 1.5 "mm" 1e-12 = Ok o
         /\ (update_self (set_target (Some tgt)) ;; NMFbase._reset) (o, g)
            = (after_reset o tgt g, Ok tt)
         /\ tNMF.update_once (after_reset o tgt g)
            = (after_reset o tgt g,
               Raise (AssertionError "`domain` is expected 2."))
         /\ tNMF.__call__ (Some tgt) 1 (o, g)
            = (after_reset o tgt g,
               Raise (AssertionError "`domain` is expected 2."))).
Proof.
  intros g tgt.
  assert (Hr : domain_in_range 1.5 = true)
    by (apply domain_in_range_true; lra).
  split.
  - unfold ISNMF.__init__. rewrite Hr. cbn [negb].
    eexists. split; [reflexivity|]. split; [reflexivity|].
    assert (Hs : forall w, w = after_reset
                   (mkNMF 2 [] 1e-12 1.5 "me" None
                      (fun input _ => Ok input) None None None) tgt g ->
                 ISNMF.update_once w
                 = (w, Raise (AssertionError "Only domain = 2 is supported."))).
    { intros w ->. eapply ISNMF_me_step_raises; cbn; try reflexivity. lra. }
    split; [apply Hs; reflexivity|].
    apply (call_first_raises (ItakuraSaito (fun input _ => input))).
    apply Hs; reflexivity.
  - unfold tNMF.__init__. rewrite Hr. cbn [negb].
    eexists. split; [reflexivity|]. split; [reflexivity|].
    assert (Hs : forall w, w = after_reset
                   (mkNMF 2 [] 1e-12 1.5 "mm" (Some 1000)
                      (tNMF.t_divergence 1e-12 1000) None None None) tgt g ->
                 tNMF.update_once w
                 = (w, Raise (AssertionError "`domain` is expected 2."))).
    { intros w ->. eapply tNMF_mm_step_raises; cbn; try reflexivity. lra. }
    split; [apply Hs; reflexivity|].
    apply (call_first_raises (StudentT 1000)).
    apply Hs; reflexivity.
Qed.

(** ** The loop and the loss trace *)

Lemma for_range_total {S : Type} (P : nat -> S -> Prop) (body : M S unit) :
  (forall k s, P k s -> exists s', body s = (s', Ok tt) /\ P (Datatypes.S k) s') ->
  forall n k s, P k s ->
    exists s', for_range n body s = (s', Ok tt) /\ P (k + n)%nat s'.
Proof.
  intros Hb n. induction n as [|n IH]; intros k s Hs.
  - exists s. rewrite Nat.add_0_r. split; [reflexivity|assumption].
  - destruct (Hb k s Hs) as (s1 & E1 & H1).
    destruct (IH (Datatypes.S k) s1 H1) as (s2 & E2 & H2).
    exists s2. cbn [for_range]. unfold bind. rewrite E1.
    split; [exact E2|]. now rewrite Nat.add_succ_r.
Qed.

Lemma for_range_partial {S : Type} (P : nat -> S -> Prop) (body : M S unit) :
  (forall k s s', P k s -> body s = (s', Ok tt) -> P (Datatypes.S k) s') ->
  forall n k s s', P k s -> for_range n body s = (s', Ok tt) ->
    P (k + n)%nat s'.
Proof.
  intros Hb n. induction n as [|n IH]; intros k s s' Hs E.
  - cbn in E. injection E as <-. now rewrite Nat.add_0_r.
  - cbn [for_range] in E. unfold bind in E.
    destruct (body s) as [s1 [[]|e]] eqn:E1; [|discriminate].
    rewrite Nat.add_succ_r.
    apply (IH (Datatypes.S k) s1 s' (Hb k s s1 Hs E1) E).
Qed.

(** Reading the attributes [target], [basis] and [activation]. *)
Ltac attrs Ht HT HV :=
  msimpl; try (rewrite Ht; msimpl); try (rewrite HT; msimpl);
  try (rewrite HV; msimpl).

Lemma String_eqb_true (a b : string) : (a =? b)%string = true -> a = b.
Proof. apply String.eqb_eq. Qed.

(** On a configured, reset instance one update step returns and replaces
    the two factors only. *)
Lemma update_once_ok (c : engine) (o : NMF) (g : RandomState) :
  configured c o -> ready (o, g) ->
  exists T' V',
    update_once_of c (o, g)
    = ((set_activation V' (set_basis T' o), g), Ok tt).
Proof.
  intros (_ & Hk & Hc) ((t & Ht) & (T & HT) & (V & HV)).
  cbn [fst] in Ht, HT, HV.
  pose proof (Reqb_true (domain o) 2) as Hq.
  destruct c; cbn [known_algorithm] in Hk; cbn [update_once_of].
  - unfold EUCNMF.update_once. msimpl. rewrite Hk.
    unfold EUCNMF.update_once_mm. attrs Ht HT HV. eexists _, _. reflexivity.
  - unfold KLNMF.update_once. msimpl. rewrite Hk.
    unfold KLNMF.update_once_mm. attrs Ht HT HV. eexists _, _. reflexivity.
  - unfold ISNMF.update_once. msimpl.
    destruct (algorithm o =? "mm")%string eqn:Emm.
    + unfold ISNMF.update_once_mm. attrs Ht HT HV. eexists _, _. reflexivity.
    + cbn [orb] in Hk. rewrite Hk.
      unfold ISNMF.update_once_me. msimpl. rewrite Ht. msimpl.
      rewrite (Hq (Hc (String_eqb_true _ _ Hk))).
      attrs Ht HT HV. eexists _, _. reflexivity.
  - destruct Hc as (Hd & v & Hv).
    unfold tNMF.update_once. msimpl. rewrite Hk.
    unfold tNMF.update_once_mm. msimpl. rewrite Ht. msimpl. rewrite Hv.
    msimpl. rewrite (Hq Hd). attrs Ht HT HV. eexists _, _. reflexivity.
  - unfold CauchyNMF.update_once. msimpl.
    destruct (algorithm o =? "naive-multipricative")%string.
    { unfold CauchyNMF.update_once_naive. msimpl. rewrite Ht. msimpl.
      rewrite (Hq Hc). attrs Ht HT HV. eexists _, _. reflexivity. }
    destruct (algorithm o =? "mm")%string.
    { unfold CauchyNMF.update_once_mm. msimpl. rewrite Ht. msimpl.
      rewrite (Hq Hc). attrs Ht HT HV. eexists _, _. reflexivity. }
    destruct (algorithm o =? "me")%string.
    { unfold CauchyNMF.update_once_me. msimpl. rewrite Ht. msimpl.
      rewrite (Hq Hc). attrs Ht HT HV. eexists _, _. reflexivity. }
    cbn [orb] in Hk. rewrite Hk.
    unfold CauchyNMF.update_once_mm_fast. msimpl. rewrite Ht. msimpl.
    rewrite (Hq Hc). attrs Ht HT HV. eexists _, _. reflexivity.
Qed.

Lemma update_of_loop (c : engine) (it : nat) (w : World NMF) :
  update_of c it w
  = for_range it
      (loop_body (reconstruction_of c (domain (fst w)))
                 (update_once_of c) (target (fst w))) w.
Proof. destruct c; reflexivity. Qed.

Lemma same_config_refl (o : NMF) : same_config o o.
Proof. repeat split. Qed.

Lemma configured_same (c : engine) (o o' : NMF) :
  same_config o o' -> configured c o -> configured c o'.
Proof.
  intros (_ & _ & Hd & Ha & Hn & Hc & _) (Ht & Hk & Hx).
  unfold configured, step_configured, criterion_total.
  rewrite Hd, Ha, Hn, Hc. auto.
Qed.

(** One iteration of the loop on a configured, reset instance: the step
    replaces the factors, the criterion is applied to the reconstruction of
    the new factors, and one entry is appended to the loss trace. *)
Lemma loop_body_ok (c : engine) (f : matrix -> matrix) (o : NMF)
  (g : RandomState) (t : matrix) :
  configured c o -> ready (o, g) -> target o = Some t ->
  exists T' V' m,
    update_once_of c (o, g)
    = ((set_activation V' (set_basis T' o), g), Ok tt)
    /\ criterion o (f (matmul T' V')) t = Ok m
    /\ loop_body f (update_once_of c) (Some t) (o, g)
       = ((set_loss (loss o ++ [msum m])
             (set_activation V' (set_basis T' o)), g), Ok tt).
Proof.
  intros Hc Hr Ht.
  destruct (update_once_ok c o g Hc Hr) as (T' & V' & E).
  destruct Hc as (Hcrit & _).
  destruct (Hcrit (f (matmul T' V')) t) as (m & Em).
  exists T', V', m. split; [exact E|]. split; [exact Em|].
  unfold loop_body. unfold bind at 1. rewrite E. msimpl.
  rewrite Em. reflexivity.
Qed.

(** The loop on a configured, reset instance returns; it appends one entry
    per iteration to the loss trace and leaves the configuration alone.
    [J] is any property of the factors that the update step preserves and
    [Q] any property it gives to the loss entries. *)
Lemma loop_ok (c : engine) (f : matrix -> matrix) (o : NMF)
  (g : RandomState) (t : matrix)
  (J : matrix -> matrix -> Prop) (Q : num -> Prop) :
  configured c o -> target o = Some t ->
  (forall o1 T V T' V',
      same_config o o1 -> basis o1 = Some T -> activation o1 = Some V ->
      J T V ->
      update_once_of c (o1, g)
      = ((set_activation V' (set_basis T' o1), g), Ok tt) ->
      J T' V') ->
  (forall T V m, J T V -> criterion o (f (matmul T V)) t = Ok m ->
                 Q (msum m)) ->
  forall (it : nat) (T0 V0 : matrix),
    basis o = Some T0 -> activation o = Some V0 -> J T0 V0 ->
    exists o' T V new,
      for_range it (loop_body f (update_once_of c) (Some t)) (o, g)
      = ((o', g), Ok tt)
      /\ same_config o o'
      /\ basis o' = Some T /\ activation o' = Some V /\ J T V
      /\ loss o' = loss o ++ new /\ List.length new = it /\ Forall Q new.
Proof.
  intros Hc Ht Hstep Hloss it T0 V0 HT0 HV0 HJ0.
  pose (P := fun (k : nat) (w : World NMF) =>
               snd w = g /\ same_config o (fst w)
               /\ (exists T V, basis (fst w) = Some T
                               /\ activation (fst w) = Some V /\ J T V)
               /\ exists new, loss (fst w) = loss o ++ new
                              /\ List.length new = k /\ Forall Q new).
  assert (Hbody : forall k s, P k s ->
             exists s', loop_body f (update_once_of c) (Some t) s
                        = (s', Ok tt) /\ P (S k) s').
  { intros k [o1 g1] (Hg & Hs & (T & V & HT & HV & HJ) & new & Hl & Hn & HQ).
    cbn [fst snd] in *. subst g1.
    assert (Hc1 : configured c o1) by (eapply configured_same; eauto).
    assert (Ht1 : target o1 = Some t)
      by (destruct Hs as (_&_&_&_&_&_&Hs); congruence).
    assert (Hr1 : ready (o1, g)) by (repeat split; cbn [fst]; eauto).
    destruct (loop_body_ok c f o1 g t Hc1 Hr1 Ht1) as (T' & V' & m & E & Em & Eb).
    eexists. split; [exact Eb|].
    assert (HJ' : J T' V') by (eapply Hstep; eauto).
    unfold P, same_config. psimpl. split; [reflexivity|]. split.
    { destruct Hs as (?&?&?&?&?&?&?). repeat split; assumption. }
    split; [exists T', V'; repeat split; assumption|].
    exists (new ++ [msum m]). rewrite Hl, <- app_assoc.
    split; [reflexivity|]. split.
    - rewrite length_app. cbn. lia.
    - apply Forall_app. split; [assumption|]. constructor; [|constructor].
      apply (Hloss T' V' m HJ').
      destruct Hs as (_&_&_&_&_&Hcr&_). rewrite <- Hcr. exact Em. }
  destruct (for_range_total P _ Hbody it 0%nat (o, g)) as ([o' g'] & E & HP).
  { unfold P. cbn [fst snd]. split; [reflexivity|].
    split; [apply same_config_refl|]. split; [eauto|].
    exists []. rewrite app_nil_r. repeat split. constructor. }
  destruct HP as (Hg & Hs & (T & V & HT & HV & HJ) & new & Hl & Hn & HQ).
  cbn [fst snd] in *. subst g'.
  exists o', T, V, new.
  split; [exact E|]. split; [exact Hs|]. split; [exact HT|].
  split; [exact HV|]. split; [exact HJ|]. split; [exact Hl|].
  split; [exact Hn|exact HQ].
Qed.

(** ** The multichannel engine: cold and warm start *)

Lemma bind_ok_inv {S A B : Type} (m : M S A) (k : A -> M S B) (s s' : S)
  (b : B) :
  bind m k s = (s', Ok b) ->
  exists s1 a, m s = (s1, Ok a) /\ k a s1 = (s', Ok b).
Proof.
  unfold bind. destruct (m s) as [s1 [a|e]]; intros H; [eauto|discriminate].
Qed.




Ltac mcsimpl :=
  unfold self, self_attr, update_self, assert, attr, gets, modify, raise, ret,
    lift_result, rand, bind;
  cbn [fst snd MultichannelISNMF.hasattr
       MultichannelISNMF.n_basis MultichannelISNMF.normalize
       MultichannelISNMF.loss MultichannelISNMF.eps MultichannelISNMF.target
       MultichannelISNMF.n_bins MultichannelISNMF.n_frames
       MultichannelISNMF.n_channels MultichannelISNMF.spatial
       MultichannelISNMF.basis MultichannelISNMF.activation
       MultichannelISNMF.set_loss MultichannelISNMF.set_target
       MultichannelISNMF.set_shape MultichannelISNMF.set_spatial
       MultichannelISNMF.set_basis MultichannelISNMF.set_activation
       MultichannelISNMF.__init__].

Lemma multichannel_cold_reset (n : nat) (norm : bool) (e : R) (tgt : tensor4)
  (g : RandomState) :
  square_channels tgt = true ->
  (update_self (MultichannelISNMF.set_target (Some tgt)) ;;
   MultichannelISNMF._reset) (MultichannelISNMF.__init__ n norm e, g)
  = ((MultichannelISNMF.set_activation
        (rand_matrix (advance g (List.length tgt * n)) n (ncols tgt))
        (MultichannelISNMF.set_basis
           (rand_matrix g (List.length tgt) n)
           (MultichannelISNMF.set_spatial
              (MultichannelISNMF.tile_eye (List.length tgt) n
                 (List.length (hd [] (hd [] tgt))))
              (warm (MultichannelISNMF.__init__ n norm e) tgt))),
      advance (advance g (List.length tgt * n)) (n * ncols tgt)),
     Ok tt).
Proof.
  intros Hsq. unfold square_channels in Hsq.
  unfold MultichannelISNMF._reset. mcsimpl. rewrite Hsq. reflexivity.
Qed.


Lemma bind_assoc {S A B C : Type} (m : M S A) (k1 : A -> M S B)
  (k2 : B -> M S C) (s : S) :
  bind (bind m k1) k2 s = bind m (fun a => bind (k1 a) k2) s.
Proof. unfold bind. destruct (m s) as [s1 [a|e]]; reflexivity. Qed.

Lemma bind_raise {S A B : Type} (m : M S A) (k : A -> M S B) (s s1 : S)
  (e : exn) :
  m s = (s1, Raise e) -> bind m k s = (s1, Raise e).
Proof. intros H. unfold bind. rewrite H. reflexivity. Qed.

Lemma bind_ok {S A B : Type} (m : M S A) (k : A -> M S B) (s s1 : S) (a : A) :
  m s = (s1, Ok a) -> bind m k s = k a s1.
Proof. intros H. unfold bind. rewrite H. reflexivity. Qed.

(** What a multichannel run does once reset has completed. *)
Lemma multichannel_call_after_reset
  (inv : tensor4 -> result tensor4)
  (solve : tensor4 -> tensor4 -> result tensor4)
  (div : tensor4 -> tensor4 -> result matrix)
  (tgt : tensor4) (it : nat) (w w1 : World MultichannelISNMF.t) :
  (update_self (MultichannelISNMF.set_target (Some tgt)) ;;
   MultichannelISNMF._reset) w = (w1, Ok tt) ->
  MultichannelISNMF.__call__ inv solve div tgt it w
  = (MultichannelISNMF.update inv solve div tgt it ;;
     H <- self_attr "spatial" MultichannelISNMF.spatial ;;
     T <- self_attr "basis" MultichannelISNMF.basis ;;
     V <- self_attr "activation" MultichannelISNMF.activation ;;
     ret (H, T, V)) w1.
Proof.
  intros E. unfold MultichannelISNMF.__call__.
  rewrite <- (bind_assoc
                (update_self (MultichannelISNMF.set_target (Some tgt)))
                (fun _ => MultichannelISNMF._reset)).
  unfold bind at 1. rewrite E. reflexivity.
Qed.



(** ** The update step as an alternation *)

Lemma update_once_alternates (c : engine) (r : rule) (o : NMF)
  (g : RandomState) (t T V : matrix) :
  rule_of c (algorithm o) = Some r ->
  step_configured c o ->
  target o = Some t -> basis o = Some T -> activation o = Some V ->
  update_once_of c (o, g)
  = (let (T', V') := alternate r t (domain o) (eps o) (nu_of o) T V in
     (set_activation V' (set_basis T' o), g), Ok tt).
Proof.
  intros Hr (Hk & Hc) Ht HT HV.
  pose proof (Reqb_true (domain o) 2) as Hq.
  unfold alternate, nu_of.
  destruct c; cbn [known_algorithm rule_of] in Hk, Hr; cbn [update_once_of].
  - unfold EUCNMF.update_once. msimpl. rewrite Hk in *. injection Hr as <-.
    unfold EUCNMF.update_once_mm. attrs Ht HT HV. reflexivity.
  - unfold KLNMF.update_once. msimpl. rewrite Hk in *. injection Hr as <-.
    unfold KLNMF.update_once_mm. attrs Ht HT HV. reflexivity.
  - unfold ISNMF.update_once. msimpl.
    destruct (algorithm o =? "mm")%string eqn:Emm.
    + injection Hr as <-.
      unfold ISNMF.update_once_mm. attrs Ht HT HV. reflexivity.
    + cbn [orb] in Hk. rewrite Hk in *. injection Hr as <-.
      unfold ISNMF.update_once_me. msimpl. rewrite Ht. msimpl.
      rewrite (Hq (Hc (String_eqb_true _ _ Hk))).
      attrs Ht HT HV. reflexivity.
  - destruct Hc as (Hd & v & Hv).
    unfold tNMF.update_once. msimpl. rewrite Hk in *. injection Hr as <-.
    unfold tNMF.update_once_mm. msimpl. rewrite Ht. msimpl. rewrite Hv.
    msimpl. rewrite (Hq Hd). attrs Ht HT HV. reflexivity.
  - unfold CauchyNMF.update_once. msimpl.
    destruct (algorithm o =? "naive-multipricative")%string.
    { injection Hr as <-.
      unfold CauchyNMF.update_once_naive. msimpl. rewrite Ht. msimpl.
      rewrite (Hq Hc). attrs Ht HT HV. reflexivity. }
    destruct (algorithm o =? "mm")%string.
    { injection Hr as <-.
      unfold CauchyNMF.update_once_mm. msimpl. rewrite Ht. msimpl.
      rewrite (Hq Hc). attrs Ht HT HV. reflexivity. }
    destruct (algorithm o =? "me")%string.
    { injection Hr as <-.
      unfold CauchyNMF.update_once_me. msimpl. rewrite Ht. msimpl.
      rewrite (Hq Hc). attrs Ht HT HV. reflexivity. }
    cbn [orb] in Hk. rewrite Hk in *. injection Hr as <-.
    unfold CauchyNMF.update_once_mm_fast. msimpl. rewrite Ht. msimpl.
    rewrite (Hq Hc). attrs Ht HT HV. reflexivity.
Qed.

(** ** Evaluating array arithmetic on concrete inputs *)

Lemma fpow_one (x : num) (y : R) : y = 1 -> fpow x y = x.
Proof.
  intros ->. unfold fpow. rewrite Reqb_false by lra.
  assert (Hf : frac_part 1 = 0 /\ Int_part 1 = 1%Z).
  { destruct (Int_part_frac_part_spec 1 1%Z 0) as [Hi Hf]; [lra|simpl; lra|].
    split; congruence. }
  destruct Hf as [Hf Hi].
  destruct x as [a| | |]; try reflexivity.
  - unfold Rltb, Reqb. destruct (Rlt_dec 0 a) as [Hp|Hn].
    + now rewrite Rpower_1.
    + destruct (Req_dec_T a 0) as [->|Hz].
      * destruct (Rlt_dec 0 1); [reflexivity|lra].
      * unfold is_int, Reqb. rewrite Hf, Hi.
        destruct (Req_dec_T 0 0); [|congruence]. cbn.
        rewrite Rpower_1 by lra. f_equal. lra.
  - rewrite Rltb_true by lra. reflexivity.
  - rewrite Rltb_true by lra. unfold is_int. rewrite Hf, Hi.
    rewrite Reqb_true by reflexivity. reflexivity.
Qed.

Lemma fpow_zero (x : num) (y : R) : y = 0 -> fpow x y = Fin 1.
Proof. intros ->. unfold fpow. now rewrite Reqb_true. Qed.

Lemma floor_at_fin_ge (eps a : R) : eps <= a -> floor_at eps (Fin a) = Fin a.
Proof. intros H. unfold floor_at, flt. now rewrite Rltb_false by lra. Qed.

Lemma floor_at_fin_lt (eps a : R) : a < eps -> floor_at eps (Fin a) = Fin eps.
Proof. intros H. unfold floor_at, flt. now rewrite Rltb_true by lra. Qed.

Lemma fmaximum_fin_ge (eps a : R) : eps <= a -> fmaximum (Fin a) eps = Fin a.
Proof. intros H. unfold fmaximum, flt. now rewrite Rltb_false by lra. Qed.

Lemma fmaximum_fin_lt (eps a : R) : a < eps -> fmaximum (Fin a) eps = Fin eps.
Proof. intros H. unfold fmaximum, flt. now rewrite Rltb_true by lra. Qed.

Lemma fdiv_fin (a b : R) : b <> 0 -> fdiv (Fin a) (Fin b) = Fin (a / b).
Proof. intros H. unfold fdiv. now rewrite Reqb_false. Qed.

Lemma fsqrt_fin (a : R) : 0 <= a -> fsqrt (Fin a) = Fin (sqrt a).
Proof. intros H. unfold fsqrt. now rewrite Rltb_false by lra. Qed.

Lemma flog_fin (a : R) : 0 < a -> flog (Fin a) = Fin (ln a).
Proof. intros H. unfold flog. now rewrite Rltb_true. Qed.

(** Evaluation of array arithmetic on finite entries; the comparisons of
    concrete reals it meets are decided by [lra]. *)
Ltac arrays :=
  cbn [map map2 mmap mmap2 matmul transpose transpose_n ncols hd tl dot fsum
       fold_right fold_left List.length app seq repeat
       mfloor mpow msqr msqrt mlog mscale mmul mdiv madd msub madd_scalar
       recip msum sum_div_frames sum_div_bins harmonic
       fadd fsub fneg fmul fsqr fst snd].

Lemma fdiv_fin_zero (a b : R) : b = 0 -> fdiv (Fin a) (Fin b) = inf_times a.
Proof. intros H. unfold fdiv. now rewrite Reqb_true. Qed.

Lemma inf_times_pos (a : R) : 0 < a -> inf_times a = PInf.
Proof. intros H. unfold inf_times. now rewrite Rltb_true. Qed.

Lemma inf_times_zero (a : R) : a = 0 -> inf_times a = NaN.
Proof.
  intros H. unfold inf_times. now rewrite Rltb_false, Rltb_false by lra.
Qed.

Lemma floor_at_nan (eps : R) : floor_at eps NaN = NaN.
Proof. reflexivity. Qed.

Lemma fsqrt_nan : fsqrt NaN = NaN.
Proof. reflexivity. Qed.

Lemma flog_nan : flog NaN = NaN.
Proof. reflexivity. Qed.

(** Comparisons of closed rational expressions. *)
Ltac real_cmp := first [ lra | field_simplify; lra ].
Ltac real_neq :=
  first [ lra
        | apply Rgt_not_eq; unfold Rgt; real_cmp
        | apply Rlt_not_eq; real_cmp ].

Ltac finite_step :=
  match goal with
  | |- context [floor_at ?e (Fin ?a)] =>
      first [ rewrite (floor_at_fin_ge e a) by real_cmp
            | rewrite (floor_at_fin_lt e a) by real_cmp ]
  | |- context [floor_at ?e NaN] => rewrite (floor_at_nan e)
  | |- context [fmaximum (Fin ?a) ?e] =>
      first [ rewrite (fmaximum_fin_ge e a) by real_cmp
            | rewrite (fmaximum_fin_lt e a) by real_cmp ]
  | |- context [fdiv (Fin ?a) (Fin ?b)] =>
      first [ rewrite (fdiv_fin a b) by real_neq
            | rewrite (fdiv_fin_zero a b) by lra ]
  | |- context [fdiv NaN ?x] => change (fdiv NaN x) with NaN
  | |- context [fdiv PInf NaN] => change (fdiv PInf NaN) with NaN
  | |- context [fdiv (Fin ?a) NaN] => change (fdiv (Fin a) NaN) with NaN
  | |- context [inf_times ?a] =>
      first [ rewrite (inf_times_pos a) by lra
            | rewrite (inf_times_zero a) by lra ]
  | |- context [fsqrt NaN] => rewrite fsqrt_nan
  | |- context [flog NaN] => rewrite flog_nan
  end.

Ltac evaluate := repeat (arrays; try finite_step).

(** Equality of arrays of finite entries, entry by entry. *)
Ltac entries :=
  repeat match goal with
    | |- (_, _) = (_, _) => f_equal
    | |- _ :: _ = _ :: _ => f_equal
    | |- Fin _ = Fin _ => f_equal
    end;
  try reflexivity; try lra; try (field; lra).

Lemma mpow_one (M : matrix) (y : R) : y = 1 -> mpow M y = M.
Proof.
  intros Hy. unfold mpow, mmap.
  rewrite (map_ext _ (fun r : list num => r)); [apply map_id|].
  intros r. rewrite (map_ext _ (fun x : num => x)); [apply map_id|].
  intros x. now apply fpow_one.
Qed.

Lemma mpow_zero (M : matrix) (y : R) :
  y = 0 -> mpow M y = mmap (fun _ => Fin 1) M.
Proof.
  intros Hy. unfold mpow, mmap. apply map_ext. intros r. apply map_ext.
  intros x. now apply fpow_zero.
Qed.

(** The alternation is observable: from Basis 1, Activation 1 and target 4
    the Euclidean step gives Activation 1, where simultaneous half steps
    would give 4. *)
Lemma alternate_differs_from_simultaneous :
  alternate EUC_mm [[Fin 4]] 2 1e-12 0 [[Fin 1]] [[Fin 1]]
  = ([[Fin 4]], [[Fin 1]])
  /\ simultaneous EUC_mm [[Fin 4]] 2 1e-12 0 [[Fin 1]] [[Fin 1]]
     = ([[Fin 4]], [[Fin 4]]).
Proof.
  unfold alternate, simultaneous, basis_update, activation_update.
  rewrite !(mpow_one _ ((4 - 2) / 2)), !(mpow_zero _ ((2 - 2) / 2)),
      !(mpow_one _ (2 / (4 - 2))) by lra.
  split; evaluate; entries.
Qed.

(** ** Non-negativity through the array operations *)

Lemma pos_nn (x : num) : pos x -> nn x.
Proof. intros (a & -> & H). exists a. split; [reflexivity|lra]. Qed.

Lemma nn_zero : nn (Fin 0).
Proof. exists 0. split; [reflexivity|lra]. Qed.

Lemma nn_fadd (x y : num) : nn x -> nn y -> nn (fadd x y).
Proof.
  intros (a & -> & Ha) (b & -> & Hb). exists (a + b).
  split; [reflexivity|lra].
Qed.

Lemma pos_fadd_l (x y : num) : pos x -> nn y -> pos (fadd x y).
Proof.
  intros (a & -> & Ha) (b & -> & Hb). exists (a + b).
  split; [reflexivity|lra].
Qed.

Lemma nn_fmul (x y : num) : nn x -> nn y -> nn (fmul x y).
Proof.
  intros (a & -> & Ha) (b & -> & Hb). exists (a * b).
  split; [reflexivity|now apply Rmult_le_pos].
Qed.

Lemma pos_fmul (x y : num) : pos x -> pos y -> pos (fmul x y).
Proof.
  intros (a & -> & Ha) (b & -> & Hb). exists (a * b).
  split; [reflexivity|now apply Rmult_lt_0_compat].
Qed.

Lemma nn_fsqr (x : num) : nn x -> nn (fsqr x).
Proof. intros H. now apply nn_fmul. Qed.

Lemma pos_fsqr (x : num) : pos x -> pos (fsqr x).
Proof. intros H. now apply pos_fmul. Qed.

Lemma nn_fdiv (x y : num) : nn x -> pos y -> nn (fdiv x y).
Proof.
  intros (a & -> & Ha) (b & -> & Hb). exists (a / b).
  rewrite fdiv_fin by lra. split; [reflexivity|].
  apply Rmult_le_pos; [assumption|]. left. now apply Rinv_0_lt_compat.
Qed.

Lemma pos_fdiv (x y : num) : pos x -> pos y -> pos (fdiv x y).
Proof.
  intros (a & -> & Ha) (b & -> & Hb). exists (a / b).
  rewrite fdiv_fin by lra. split; [reflexivity|].
  apply Rmult_lt_0_compat; [assumption|now apply Rinv_0_lt_compat].
Qed.

Lemma pos_fpow (x : num) (y : R) : pos x -> pos (fpow x y).
Proof.
  intros (a & -> & Ha). unfold fpow, Reqb.
  destruct (Req_dec_T y 0).
  - exists 1. split; [reflexivity|lra].
  - rewrite Rltb_true by assumption. exists (Rpower a y).
    split; [reflexivity|]. unfold Rpower. apply exp_pos.
Qed.

Lemma nn_fpow (x : num) (y : R) : 0 <= y -> nn x -> nn (fpow x y).
Proof.
  intros Hy (a & -> & Ha).
  destruct (Rlt_dec 0 a) as [Hp|Hn].
  - apply pos_nn, pos_fpow. now exists a.
  - assert (a = 0) by lra. subst a. unfold fpow, Reqb.
    destruct (Req_dec_T y 0).
    + exists 1. split; [reflexivity|lra].
    + rewrite Rltb_false by lra. destruct (Req_dec_T 0 0); [|congruence].
      rewrite Rltb_true by lra. apply nn_zero.
Qed.

Lemma nn_fsqrt (x : num) : nn x -> nn (fsqrt x).
Proof.
  intros (a & -> & Ha). rewrite fsqrt_fin by assumption.
  exists (sqrt a). split; [reflexivity|apply sqrt_pos].
Qed.

Lemma pos_floor_at (eps : R) (x : num) : 0 < eps -> nn x -> pos (floor_at eps x).
Proof.
  intros He (a & -> & Ha). destruct (Rlt_dec a eps).
  - rewrite floor_at_fin_lt by assumption. now exists eps.
  - rewrite floor_at_fin_ge by lra. exists a. split; [reflexivity|lra].
Qed.

Lemma pos_fmaximum (eps : R) (x : num) : 0 < eps -> nn x -> pos (fmaximum x eps).
Proof.
  intros He (a & -> & Ha). destruct (Rlt_dec a eps).
  - rewrite fmaximum_fin_lt by assumption. now exists eps.
  - rewrite fmaximum_fin_ge by lra. exists a. split; [reflexivity|lra].
Qed.

Lemma nn_scale (c : R) (x : num) : 0 <= c -> nn x -> nn (fmul (Fin c) x).
Proof. intros Hc Hx. apply nn_fmul; [now exists c|assumption]. Qed.

Lemma pos_scale (c : R) (x : num) : 0 < c -> pos x -> pos (fmul (Fin c) x).
Proof. intros Hc Hx. apply pos_fmul; [now exists c|assumption]. Qed.

Lemma nn_fsum (l : list num) : Forall nn l -> nn (fsum l).
Proof.
  induction 1 as [|x l Hx _ IH]; cbn; [apply nn_zero|now apply nn_fadd].
Qed.

Lemma Forall_map2 {A B C : Type} (P : A -> Prop) (Q : B -> Prop)
  (R : C -> Prop) (f : A -> B -> C) :
  (forall a b, P a -> Q b -> R (f a b)) ->
  forall l m, Forall P l -> Forall Q m -> Forall R (map2 f l m).
Proof.
  intros Hf l. induction l as [|a l IH]; intros m Hl Hm; [constructor|].
  destruct m as [|b m]; [constructor|].
  inversion Hl; inversion Hm; subst. cbn. constructor; auto.
Qed.

Lemma Forall_map_imp {A B : Type} (P : A -> Prop) (Q : B -> Prop)
  (f : A -> B) :
  (forall a, P a -> Q (f a)) -> forall l, Forall P l -> Forall Q (map f l).
Proof. intros Hf l H. induction H; cbn; constructor; auto. Qed.

Lemma mat_mmap (P Q : num -> Prop) (f : num -> num) (M : matrix) :
  (forall x, P x -> Q (f x)) -> mat P M -> mat Q (mmap f M).
Proof.
  intros Hf. apply Forall_map_imp. intros r. now apply Forall_map_imp.
Qed.

Lemma mat_mmap2 (P Q R : num -> Prop) (f : num -> num -> num) (M N : matrix) :
  (forall x y, P x -> Q y -> R (f x y)) ->
  mat P M -> mat Q N -> mat R (mmap2 f M N).
Proof.
  intros Hf. apply Forall_map2. intros r s. now apply Forall_map2.
Qed.

Lemma mat_imp (P Q : num -> Prop) (M : matrix) :
  (forall x, P x -> Q x) -> mat P M -> mat Q M.
Proof.
  intros H HM. eapply Forall_impl; [|exact HM].
  intros r Hr. eapply Forall_impl; [|exact Hr]. exact H.
Qed.

(** Transposition keeps a property of the entries, provided the rows are
    long enough or the property holds of the padding value. *)
Lemma mat_transpose_n (P : num -> Prop) (d : num) (n : nat) (M : matrix) :
  Forall (fun r => P d \/ (n <= List.length r)%nat) M ->
  mat P M -> mat P (transpose_n d n M).
Proof.
  revert M. induction n as [|n IH]; intros M Hlen HM; [constructor|].
  cbn. constructor.
  - clear IH. induction HM as [|r M Hr _ IHM]; cbn; [constructor|].
    apply Forall_cons_iff in Hlen. destruct Hlen as [Hlr HlM].
    constructor; [|auto].
    destruct Hr as [|x r Hx _]; cbn; [|assumption].
    destruct Hlr as [Hd|Hl]; [assumption|]. cbn in Hl. lia.
  - apply IH.
    + clear IH HM. induction Hlen as [|r M Hr _ IHM]; cbn; constructor; auto.
      destruct Hr as [|Hr]; [now left|right].
      destruct r; cbn in *; lia.
    + clear IH Hlen. induction HM as [|r M Hr _ IHM]; cbn; constructor; auto.
      destruct Hr; cbn; [constructor|assumption].
Qed.

Lemma nn_transpose (M : matrix) : mat nn M -> mat nn (transpose M).
Proof.
  intros H. apply mat_transpose_n; [|assumption].
  apply Forall_forall. intros r _. left. apply nn_zero.
Qed.

Lemma mat_transpose_rect (P : num -> Prop) (M : matrix) :
  rect M -> mat P M -> mat P (transpose M).
Proof.
  intros Hr H. apply mat_transpose_n; [|assumption].
  eapply Forall_impl; [|exact Hr]. intros r Hlen. right. cbn in Hlen. lia.
Qed.

Lemma rect_map_rows {A B : Type} (f : list A -> list B) (M : list (list A))
  (n : nat) :
  (forall r, List.length (f r) = n) -> rect (map f M).
Proof.
  intros Hf. unfold rect. destruct M as [|r M]; [constructor|].
  cbn [map ncols]. rewrite Hf. apply Forall_forall. intros s Hs.
  change (f r :: map f M) with (map f (r :: M)) in Hs.
  apply in_map_iff in Hs. destruct Hs as (x & <- & _). apply Hf.
Qed.

Lemma rect_matmul (A B : matrix) : rect (matmul A B).
Proof.
  unfold matmul. apply rect_map_rows with (n := List.length (transpose B)).
  intros r. apply length_map.
Qed.

Lemma rect_mmap {A B : Type} (f : A -> B) (M : list (list A)) :
  rect M -> rect (mmap f M).
Proof.
  unfold rect, mmap. intros H. destruct M as [|r M]; [constructor|].
  cbn [map ncols] in *. rewrite length_map.
  apply Forall_forall. intros s Hs.
  change (map f r :: map (map f) M) with (map (map f) (r :: M)) in Hs.
  apply in_map_iff in Hs. destruct Hs as (x & <- & Hx).
  rewrite length_map. rewrite Forall_forall in H. now apply H.
Qed.

Lemma nn_dot (u v : vector) : Forall nn u -> Forall nn v -> nn (dot u v).
Proof.
  intros Hu Hv. apply nn_fsum.
  apply (Forall_map2 nn nn nn); auto using nn_fmul.
Qed.

Lemma nn_matmul (A B : matrix) : mat nn A -> mat nn B -> mat nn (matmul A B).
Proof.
  intros HA HB. unfold matmul.
  apply (Forall_map_imp (Forall nn)); [|exact HA].
  intros r Hr. apply (Forall_map_imp (Forall nn)); [|now apply nn_transpose].
  intros c Hc. now apply nn_dot.
Qed.

Lemma nn_sum_div_frames (V TV : matrix) :
  mat nn V -> mat pos TV -> mat nn (sum_div_frames V TV).
Proof.
  intros HV HTV. unfold sum_div_frames.
  apply (Forall_map_imp (Forall pos)); [|exact HTV].
  intros TVi Hi. apply (Forall_map_imp (Forall nn)); [|exact HV].
  intros Vk Hk. apply nn_fsum.
  apply (Forall_map2 nn pos nn); auto using nn_fdiv.
Qed.

Lemma nn_sum_div_bins (T TV : matrix) :
  mat nn T -> rect TV -> mat pos TV -> mat nn (sum_div_bins T TV).
Proof.
  intros HT Hr HTV. unfold sum_div_bins.
  apply (Forall_map_imp (Forall nn)); [|now apply nn_transpose].
  intros Tk Hk.
  apply (Forall_map_imp (Forall pos)); [|now apply mat_transpose_rect].
  intros TVj Hj. apply nn_fsum.
  apply (Forall_map2 nn pos nn); auto using nn_fdiv.
Qed.

Lemma mat_pos_nn (M : matrix) : mat pos M -> mat nn M.
Proof. apply mat_imp, pos_nn. Qed.

Lemma nn_mmul (A B : matrix) : mat nn A -> mat nn B -> mat nn (mmul A B).
Proof. apply mat_mmap2, nn_fmul. Qed.

Lemma nn_mdiv (A B : matrix) : mat nn A -> mat pos B -> mat nn (mdiv A B).
Proof. apply mat_mmap2, nn_fdiv. Qed.

Lemma nn_madd (A B : matrix) : mat nn A -> mat nn B -> mat nn (madd A B).
Proof. apply mat_mmap2, nn_fadd. Qed.

Lemma pos_madd_l (A B : matrix) : mat pos A -> mat nn B -> mat pos (madd A B).
Proof. apply mat_mmap2, pos_fadd_l. Qed.

Lemma nn_mpow (M : matrix) (y : R) : 0 <= y -> mat nn M -> mat nn (mpow M y).
Proof. intros Hy. apply mat_mmap. intros x. now apply nn_fpow. Qed.

Lemma pos_mpow (M : matrix) (y : R) : mat pos M -> mat pos (mpow M y).
Proof. apply mat_mmap. intros x. apply pos_fpow. Qed.

Lemma nn_msqrt (M : matrix) : mat nn M -> mat nn (msqrt M).
Proof. apply mat_mmap, nn_fsqrt. Qed.

Lemma nn_msqr (M : matrix) : mat nn M -> mat nn (msqr M).
Proof. apply mat_mmap, nn_fsqr. Qed.

Lemma pos_msqr (M : matrix) : mat pos M -> mat pos (msqr M).
Proof. apply mat_mmap, pos_fsqr. Qed.

Lemma nn_mscale (c : R) (M : matrix) : 0 <= c -> mat nn M -> mat nn (mscale c M).
Proof. intros Hc. apply mat_mmap. intros x. now apply nn_scale. Qed.

Lemma pos_mscale (c : R) (M : matrix) : 0 < c -> mat pos M -> mat pos (mscale c M).
Proof. intros Hc. apply mat_mmap. intros x. now apply pos_scale. Qed.

Lemma pos_mfloor (eps : R) (M : matrix) :
  0 < eps -> mat nn M -> mat pos (mfloor eps M).
Proof. intros He. apply mat_mmap. intros x. now apply pos_floor_at. Qed.

Lemma pos_recip (M : matrix) : mat pos M -> mat pos (recip M).
Proof.
  apply mat_mmap. intros x Hx. apply pos_fdiv; [|assumption].
  exists 1. split; [reflexivity|lra].
Qed.

Lemma pos_harmonic (eps nu : R) (target TV : matrix) :
  0 < eps -> 0 <= nu -> mat nn target -> mat pos TV ->
  mat pos (harmonic eps nu target TV).
Proof.
  intros He Hnu Ht HTV. unfold harmonic. apply pos_recip, pos_madd_l.
  - apply (mat_mmap pos pos).
    + intros x Hx. apply pos_fdiv; [|assumption].
      exists 2. split; [reflexivity|lra].
    + apply pos_mscale; [lra|assumption].
  - apply (mat_mmap pos nn).
    + intros x Hx. apply nn_fdiv; [|assumption].
      exists nu. split; [reflexivity|assumption].
    + apply pos_mscale; [lra|].
      apply (mat_mmap nn pos); [|assumption].
      intros x Hx. now apply pos_fmaximum.
Qed.

(** Non-negativity of an array built from the operations of the rules. *)
Ltac nonneg :=
  repeat match goal with
    | |- mat nn (mmul _ _) => apply nn_mmul
    | |- mat nn (mdiv _ _) => apply nn_mdiv
    | |- mat nn (madd _ _) => apply nn_madd
    | |- mat nn (matmul _ _) => apply nn_matmul
    | |- mat nn (transpose _) => apply nn_transpose
    | |- mat nn (mpow _ _) => apply nn_mpow
    | |- mat nn (msqrt _) => apply nn_msqrt
    | |- mat nn (msqr _) => apply nn_msqr
    | |- mat nn (mscale _ _) => apply nn_mscale
    | |- mat nn (mfloor _ _) => apply mat_pos_nn, pos_mfloor
    | |- mat nn (recip _) => apply mat_pos_nn, pos_recip
    | |- mat nn (harmonic _ _ _ _) => apply mat_pos_nn, pos_harmonic
    | |- mat nn (sum_div_frames _ _) => apply nn_sum_div_frames
    | |- mat nn (sum_div_bins _ _) => apply nn_sum_div_bins
    | |- mat pos (mfloor _ _) => apply pos_mfloor
    | |- mat pos (mpow _ _) => apply pos_mpow
    | |- mat pos (msqr _) => apply pos_msqr
    | |- mat pos (recip _) => apply pos_recip
    | |- mat pos (harmonic _ _ _ _) => apply pos_harmonic
    | |- rect (mfloor _ _) => apply rect_mmap
    | |- rect (matmul _ _) => apply rect_matmul
    | |- _ => assumption
    | |- _ <= _ => lra
    | |- _ < _ => lra
    end.

Lemma exponent_nonneg (a b : R) : 0 <= a -> 0 < b -> 0 <= a / b.
Proof.
  intros Ha Hb. apply Rmult_le_pos; [assumption|].
  left. now apply Rinv_0_lt_compat.
Qed.

(** Every rule except the Cauchy 'me' rule keeps the Basis non-negative. *)
Lemma basis_update_nonneg (r : rule) (target : matrix) (d e v : R)
  (T V : matrix) :
  r <> Cauchy_me -> 0 < e -> 1 <= d <= 2 -> (r = t_mm -> 0 <= v) ->
  mat nn target -> mat nn T -> mat nn V ->
  mat nn (basis_update r target d e v T V).
Proof.
  intros Hr He Hd Hv Ht HT HV.
  assert (0 <= (4 - d) / d) by (apply exponent_nonneg; lra).
  assert (0 <= (2 - d) / d) by (apply exponent_nonneg; lra).
  assert (0 <= d / (4 - d)) by (apply exponent_nonneg; lra).
  assert (0 <= d / 2) by (apply exponent_nonneg; lra).
  assert (0 <= d / (d + 2)) by (apply exponent_nonneg; lra).
  destruct r; try congruence;
    try (assert (0 <= v) by (apply Hv; reflexivity)); cbv beta iota zeta delta [basis_update]; nonneg.
Qed.

(** Every rule except the Cauchy 'me' rule keeps the Activation
    non-negative. *)
Lemma activation_update_nonneg (r : rule) (target : matrix) (d e v : R)
  (T V : matrix) :
  r <> Cauchy_me -> 0 < e -> 1 <= d <= 2 -> (r = t_mm -> 0 <= v) ->
  mat nn target -> mat nn T -> mat nn V ->
  mat nn (activation_update r target d e v T V).
Proof.
  intros Hr He Hd Hv Ht HT HV.
  assert (0 <= (4 - d) / d) by (apply exponent_nonneg; lra).
  assert (0 <= (2 - d) / d) by (apply exponent_nonneg; lra).
  assert (0 <= d / (4 - d)) by (apply exponent_nonneg; lra).
  assert (0 <= d / 2) by (apply exponent_nonneg; lra).
  assert (0 <= d / (d + 2)) by (apply exponent_nonneg; lra).
  destruct r; try congruence;
    try (assert (0 <= v) by (apply Hv; reflexivity));
    cbv beta iota zeta delta [activation_update]; nonneg.
Qed.

(** ** The Cauchy 'me' rule divides by an unfloored product *)

Lemma nan_not_nonneg : ~ mat nn [[NaN]].
Proof.
  intros H. inversion H as [|r M Hr _]; subst.
  inversion Hr as [|x l Hx _]; subst. destruct Hx as (a & E & _).
  discriminate.
Qed.

(** C1 fails on the Cauchy 'me' rule.  The engine is constructed with the
    defaults of the class, the target is the 1 x 1 matrix [1], and reset
    draws Basis [0] and Activation [1/2].  The rule divides the Activation
    by the product [T @ V = 0], which it does not floor: the quotient is
    infinite, its product with [A = 0] is NaN, and the step stores NaN in
    both factors. *)
Theorem cauchy_me_step_from_zero_basis_stores_nan :
  exists o,
    CauchyNMF.__init__ 1 2 "me" 1e-12 = Ok o
    /\ let w := after_reset o [[Fin 1]] zero_then_half in
       basis (fst w) = Some [[Fin 0]]
       /\ activation (fst w) = Some [[Fin (1 / 2)]]
       /\ mat nn [[Fin 1]] /\ mat nn [[Fin 0]] /\ mat nn [[Fin (1 / 2)]]
       /\ CauchyNMF.update_once w
          = ((set_activation [[NaN]] (set_basis [[NaN]] (fst w)), snd w),
             Ok tt)
       /\ ~ mat nn [[NaN]].
Proof.
  unfold CauchyNMF.__init__. rewrite Reqb_true by reflexivity. cbn [negb].
  eexists. split; [reflexivity|].
  unfold after_reset, rand_matrix, advance, zero_then_half.
  cbn [map seq stream drawn Nat.add Nat.mul List.length ncols n_basis
       set_target set_basis set_activation]. cbv zeta. psimpl.
  split; [reflexivity|]. split; [reflexivity|].
  assert (Hnn : forall a, 0 <= a -> mat nn [[Fin a]]).
  { intros a Ha. repeat constructor. now exists a. }
  split; [apply Hnn; lra|]. split; [apply Hnn; lra|]. split; [apply Hnn; lra|].
  split; [|exact nan_not_nonneg].
  match goal with
  | |- CauchyNMF.update_once (?o, ?g) = _ =>
      assert (Hcfg : step_configured Cauchy o) by (split; reflexivity);
      pose proof (update_once_alternates Cauchy Cauchy_me o g
                    [[Fin 1]] [[Fin 0]] [[Fin (1 / 2)]]
                    eq_refl Hcfg eq_refl eq_refl eq_refl) as Hstep
  end.
  cbn [update_once_of] in Hstep. rewrite Hstep. clear Hstep Hcfg.
  unfold alternate, nu_of. psimpl.
  assert (E : basis_update Cauchy_me [[Fin 1]] 2 1e-12 0
                [[Fin 0]] [[Fin (1 / 2)]] = [[NaN]]).
  { unfold basis_update. evaluate. reflexivity. }
  rewrite E.
  assert (E' : activation_update Cauchy_me [[Fin 1]] 2 1e-12 0
                 [[NaN]] [[Fin (1 / 2)]] = [[NaN]]).
  { unfold activation_update. evaluate. reflexivity. }
  rewrite E'. reflexivity.
Qed.

(** C8. For every update rule of the five real-valued engines, one update
    step replaces the Basis by the Basis half step of the rule and then
    computes the Activation half step from that new Basis: the product
    [T @ V] inside the Activation half step is the one of the updated
    Basis. *)
Theorem update_step_uses_updated_basis (c : engine) (r : rule) (o : NMF)
  (g : RandomState) (t T V : matrix) :
  rule_of c (algorithm o) = Some r ->
  step_configured c o ->
  target o = Some t -> basis o = Some T -> activation o = Some V ->
  exists T' V',
    update_once_of c (o, g)
    = ((set_activation V' (set_basis T' o), g), Ok tt)
    /\ T' = basis_update r t (domain o) (eps o) (nu_of o) T V
    /\ V' = activation_update r t (domain o) (eps o) (nu_of o) T' V.
Proof.
  intros Hr Hc Ht HT HV.
  rewrite (update_once_alternates c r o g t T V Hr Hc Ht HT HV).
  unfold alternate. eexists _, _. split; [reflexivity|].
  split; reflexivity.
Qed.

Lemma update_step_uses_updated_basis_euclidean :
  exists T' V',
    update_once_of Euclidean (euclidean_example, constant_half)
    = ((set_activation V' (set_basis T' euclidean_example), constant_half),
       Ok tt)
    /\ T' = basis_update EUC_mm [[Fin 4]] 2 1e-12 0 [[Fin 1]] [[Fin 1]]
    /\ V' = activation_update EUC_mm [[Fin 4]] 2 1e-12 0 T' [[Fin 1]].
Proof.
  apply (update_step_uses_updated_basis Euclidean EUC_mm euclidean_example
           constant_half [[Fin 4]] [[Fin 1]] [[Fin 1]]).
  - reflexivity.
  - split; [reflexivity|exact I].
  - reflexivity.
  - reflexivity.
  - reflexivity.
Defined.

(** ** The Euclidean rule *)

Lemma euclidean_configured (o : NMF) :
  algorithm o = "mm"%string -> step_configured Euclidean o.
Proof. intros Ha. split; [|exact I]. cbn. rewrite Ha. reflexivity. Qed.

(** C4, as stated, fails: the rule floors the product [T @ V] at [eps]
    before it raises it to a power, in the numerator and in the
    denominator.  With Basis [1e-6], Activation [1e-7, 1/2], target [1, 1],
    domain 2 and eps 1e-12 the first entry of the product is 1e-13; the
    step stores a Basis that differs from the one the claimed formula
    gives. *)
Lemma euclidean_step_floors_the_product :
  exists T' V',
    EUCNMF.update_once (small_product_example, constant_half)
    = ((set_activation V' (set_basis T' small_product_example),
        constant_half), Ok tt)
    /\ T' = [[Fin (1e-6 * ((1e-7 + 1 / 2) / (1e-12 * 1e-7 + 5e-7 * (1 / 2))))]]
    /\ claimed_euclidean_basis [[Fin 1; Fin 1]] 2 1e-12
         [[Fin 1e-6]] [[Fin 1e-7; Fin (1 / 2)]]
       = [[Fin (1e-6 * ((1e-7 + 1 / 2) / (1e-13 * 1e-7 + 5e-7 * (1 / 2))))]]
    /\ T' <> claimed_euclidean_basis [[Fin 1; Fin 1]] 2 1e-12
               [[Fin 1e-6]] [[Fin 1e-7; Fin (1 / 2)]].
Proof.
  assert (Hcfg : step_configured Euclidean small_product_example)
    by (apply euclidean_configured; reflexivity).
  pose proof (update_once_alternates Euclidean EUC_mm small_product_example
                constant_half [[Fin 1; Fin 1]] [[Fin 1e-6]]
                [[Fin 1e-7; Fin (1 / 2)]]
                eq_refl Hcfg eq_refl eq_refl eq_refl) as Hstep.
  cbn [update_once_of] in Hstep. unfold alternate in Hstep.
  assert (Ecode : basis_update EUC_mm [[Fin 1; Fin 1]] 2 1e-12 0
                    [[Fin 1e-6]] [[Fin 1e-7; Fin (1 / 2)]]
                  = [[Fin (1e-6 * ((1e-7 + 1 / 2)
                                   / (1e-12 * 1e-7 + 5e-7 * (1 / 2))))]]).
  { unfold basis_update.
    rewrite !(mpow_one _ ((4 - 2) / 2)), !(mpow_zero _ ((2 - 2) / 2)),
      !(mpow_one _ (2 / (4 - 2))) by lra.
    evaluate. entries. }
  assert (Eclaim : claimed_euclidean_basis [[Fin 1; Fin 1]] 2 1e-12
                     [[Fin 1e-6]] [[Fin 1e-7; Fin (1 / 2)]]
                   = [[Fin (1e-6 * ((1e-7 + 1 / 2)
                                    / (1e-13 * 1e-7 + 5e-7 * (1 / 2))))]]).
  { unfold claimed_euclidean_basis.
    rewrite !(mpow_one _ ((4 - 2) / 2)), !(mpow_zero _ ((2 - 2) / 2)),
      !(mpow_one _ (2 / (4 - 2))) by lra.
    evaluate. entries. }
  eexists _, _. split; [exact Hstep|].
  unfold nu_of. cbn [nu domain eps small_product_example].
  split; [exact Ecode|]. split; [exact Eclaim|].
  rewrite Ecode, Eclaim. intros H. injection H as H. lra.
Qed.

(** C4, as the code has it.  For the Euclidean engine with the MM
    algorithm (any domain; the constructor admits those of [1, 2]) the step
    first floors the product [R = T @ V] at [eps]; the Basis is multiplied
    entrywise by the ratio of [(target * R^((2-domain)/domain)) @ V^T] to
    the eps-floored [R^((4-domain)/domain) @ V^T], raised to the power
    [domain/(4-domain)]; the Activation update is symmetric, with the same
    exponent, on the floored product of the new Basis.  Where no entry of
    [T @ V] is below [eps] the Basis update is the claimed formula. *)
Theorem euclidean_mm_step_formula (o : NMF) (g : RandomState)
  (t T V : matrix) :
  algorithm o = "mm"%string ->
  target o = Some t -> basis o = Some T -> activation o = Some V ->
  let d := domain o in
  let e := eps o in
  let R := mfloor e (matmul T V) in
  let T' :=
    mmul T (mpow (mdiv (matmul (mmul t (mpow R ((2 - d) / d))) (transpose V))
                       (mfloor e (matmul (mpow R ((4 - d) / d)) (transpose V))))
                 (d / (4 - d))) in
  let R' := mfloor e (matmul T' V) in
  let V' :=
    mmul V (mpow (mdiv (matmul (transpose T') (mmul t (mpow R' ((2 - d) / d))))
                       (mfloor e (matmul (transpose T')
                                         (mpow R' ((4 - d) / d)))))
                 (d / (4 - d))) in
  EUCNMF.update_once (o, g) = ((set_activation V' (set_basis T' o), g), Ok tt)
  /\ (R = matmul T V -> T' = claimed_euclidean_basis t d e T V).
Proof.
  intros Ha Ht HT HV d e R T' R' V'.
  split.
  - pose proof (update_once_alternates Euclidean EUC_mm o g t T V) as H.
    cbn [rule_of update_once_of] in H. rewrite Ha in H.
    apply (H eq_refl (euclidean_configured o Ha) Ht HT HV).
  - intros HR. unfold T', claimed_euclidean_basis. rewrite HR. reflexivity.
Qed.

Lemma euclidean_mm_step_formula_example :
  let o := small_product_example in
  let t := [[Fin 1; Fin 1]] in
  let T := [[Fin 1e-6]] in
  let V := [[Fin 1e-7; Fin (1 / 2)]] in
  let R := mfloor 1e-12 (matmul T V) in
  let T' :=
    mmul T (mpow (mdiv (matmul (mmul t (mpow R ((2 - 2) / 2))) (transpose V))
                       (mfloor 1e-12
                          (matmul (mpow R ((4 - 2) / 2)) (transpose V))))
                 (2 / (4 - 2))) in
  let R' := mfloor 1e-12 (matmul T' V) in
  let V' :=
    mmul V (mpow (mdiv (matmul (transpose T') (mmul t (mpow R' ((2 - 2) / 2))))
                       (mfloor 1e-12 (matmul (transpose T')
                                             (mpow R' ((4 - 2) / 2)))))
                 (2 / (4 - 2))) in
  EUCNMF.update_once (o, constant_half)
  = ((set_activation V' (set_basis T' o), constant_half), Ok tt)
  /\ (R = matmul T V -> T' = claimed_euclidean_basis t 2 1e-12 T V).
Proof.
  exact (euclidean_mm_step_formula small_product_example constant_half
           [[Fin 1; Fin 1]] [[Fin 1e-6]] [[Fin 1e-7; Fin (1 / 2)]]
           eq_refl eq_refl eq_refl eq_refl).
Defined.

(** ** The loss of the Cauchy engine *)

Lemma for_range_ext {S : Type} (I : S -> Prop) (b1 b2 : M S unit) :
  (forall s, I s -> b1 s = b2 s) ->
  (forall s s', I s -> b1 s = (s', Ok tt) -> I s') ->
  forall n s, I s -> for_range n b1 s = for_range n b2 s.
Proof.
  intros Heq Hinv n. induction n as [|n IH]; intros s Hs; [reflexivity|].
  cbn [for_range]. unfold bind. rewrite <- (Heq s Hs).
  destruct (b1 s) as [s1 [[]|e]] eqn:E; [|reflexivity].
  apply IH. eapply Hinv; eauto.
Qed.

(** A Cauchy update step that returns has checked [domain = 2] and has
    changed the two factors only. *)
Lemma cauchy_step_returns (w w' : World NMF) :
  CauchyNMF.update_once w = (w', Ok tt) ->
  domain (fst w) = 2
  /\ exists T V, w' = (set_activation V (set_basis T (fst w)), snd w).
Proof.
  destruct w as [o g]. unfold CauchyNMF.update_once. msimpl.
  assert (Hq : Reqb (domain o) 2 = true -> domain o = 2).
  { unfold Reqb. destruct (Req_dec_T (domain o) 2); [auto|discriminate]. }
  destruct (algorithm o =? "naive-multipricative")%string;
    [|destruct (algorithm o =? "mm")%string;
      [|destruct (algorithm o =? "me")%string;
        [|destruct (algorithm o =? "mm_fast")%string]]];
    unfold CauchyNMF.update_once_naive, CauchyNMF.update_once_mm,
      CauchyNMF.update_once_me, CauchyNMF.update_once_mm_fast;
    msimpl;
    try (destruct (target o); msimpl; [|discriminate];
         destruct (Reqb (domain o) 2) eqn:Ed; msimpl; [|discriminate];
         destruct (basis o); msimpl; [|discriminate];
         destruct (activation o); msimpl; [|discriminate];
         intros H; injection H as <-; split; [auto|]; eexists _, _;
         reflexivity).
  discriminate.
Qed.

Lemma cauchy_loop_bodies_agree (d0 : R) (tgt : option matrix)
  (w : World NMF) :
  domain (fst w) = d0 ->
  loop_body (fun TV => TV) CauchyNMF.update_once tgt w
  = loop_body (fun TV => mpow TV (2 / d0)) CauchyNMF.update_once tgt w.
Proof.
  intros Hd. unfold loop_body.
  destruct (CauchyNMF.update_once w) as [w1 [[]|e]] eqn:E;
    [rewrite !(bind_ok _ _ _ _ _ E)|now rewrite !(bind_raise _ _ _ _ _ E)].
  destruct (cauchy_step_returns _ _ E) as (H2 & T & V & ->).
  msimpl. destruct tgt as [t|]; [|reflexivity].
  rewrite mpow_one; [reflexivity|]. rewrite <- Hd, H2. lra.
Qed.

Lemma cauchy_loop_body_keeps_domain (tgt : option matrix)
  (w w' : World NMF) :
  loop_body (fun TV => TV) CauchyNMF.update_once tgt w = (w', Ok tt) ->
  domain (fst w') = domain (fst w).
Proof.
  unfold loop_body.
  destruct (CauchyNMF.update_once w) as [w1 [[]|e]] eqn:E;
    [rewrite (bind_ok _ _ _ _ _ E)
    |rewrite (bind_raise _ _ _ _ _ E); discriminate].
  destruct (cauchy_step_returns _ _ E) as (_ & T & V & ->).
  msimpl. destruct tgt as [t|]; [|discriminate].
  destruct (criterion (fst w) (matmul T V) t); [|discriminate].
  intros H. injection H as <-. reflexivity.
Qed.

Lemma cauchy_updates_agree (it : nat) (w : World NMF) :
  CauchyNMF.update it w = update_with_domain CauchyNMF.update_once it w.
Proof.
  change (for_range it (loop_body (fun TV => TV) CauchyNMF.update_once
                                  (target (fst w))) w
          = for_range it (loop_body (fun TV => mpow TV (2 / domain (fst w)))
                                    CauchyNMF.update_once
                                    (target (fst w))) w).
  apply (for_range_ext (fun s => domain (fst s) = domain (fst w))).
  - intros s Hs. now apply cauchy_loop_bodies_agree.
  - intros s s' Hs E. rewrite <- Hs.
    eapply cauchy_loop_body_keeps_domain; eauto.
  - reflexivity.
Qed.

(** C9. The Cauchy constructor admits [domain = 2] only.  On every
    instance, target and generator, the run of the Cauchy engine, whose
    inherited loop applies the divergence to the product [T @ V], is the
    run whose loop applies it to [(T @ V) ** (2 / domain)]: the same
    factors, the same loss trace, the same outcome.  A loss entry is logged
    only after an update step that has asserted [domain = 2], where the
    exponent is 1. *)
Theorem cauchy_logged_loss_is_prescribed_loss :
  (forall n d a e o, CauchyNMF.__init__ n d a e = Ok o -> domain o = 2)
  /\ (forall (eps : R) (T V t : matrix),
         msum (CauchyNMF.cauchy_divergence eps (matmul T V) t)
         = msum (CauchyNMF.cauchy_divergence eps
                   (mpow (matmul T V) (2 / 2)) t))
  /\ (forall (tgt : option matrix) (it : nat) (o : NMF) (g : RandomState),
         CauchyNMF.__call__ tgt it (o, g)
         = CauchyNMF_prescribed_call tgt it (o, g)).
Proof.
  split.
  { intros n d a e o. unfold CauchyNMF.__init__, Reqb.
    destruct (Req_dec_T d 2) as [->|]; [|discriminate].
    cbn. intros H. injection H as <-. reflexivity. }
  split.
  { intros eps T V t. rewrite mpow_one by lra. reflexivity. }
  intros tgt it o g.
  unfold CauchyNMF.__call__, CauchyNMF_prescribed_call, NMFbase.__call__.
  destruct (update_self (set_target tgt) (o, g)) as [w1 [[]|e]] eqn:E1;
    [rewrite !(bind_ok _ _ _ _ _ E1)|now rewrite !(bind_raise _ _ _ _ _ E1)].
  destruct (NMFbase._reset w1) as [w2 [[]|e]] eqn:E2;
    [rewrite !(bind_ok _ _ _ _ _ E2)|now rewrite !(bind_raise _ _ _ _ _ E2)].
  unfold bind at 1. rewrite cauchy_updates_agree. reflexivity.
Qed.

Lemma cauchy_logged_loss_example :
  exists o,
    CauchyNMF.__init__ 1 2 "mm" 1e-12 = Ok o
    /\ domain o = 2
    /\ CauchyNMF.__call__ (Some [[Fin 1]]) 2 (o, constant_half)
       = CauchyNMF_prescribed_call (Some [[Fin 1]]) 2 (o, constant_half).
Proof.
  assert (E : CauchyNMF.__init__ 1 2 "mm" 1e-12
              = Ok (mkNMF 1 [] 1e-12 2 "mm" None
                      (fun input target =>
                         Ok (CauchyNMF.cauchy_divergence 1e-12 input target))
                      None None None)).
  { unfold CauchyNMF.__init__. rewrite Reqb_true by reflexivity.
    reflexivity. }
  eexists. split; [exact E|]. split.
  - exact (proj1 cauchy_logged_loss_is_prescribed_loss _ _ _ _ _ E).
  - apply (proj2 (proj2 cauchy_logged_loss_is_prescribed_loss)).
Defined.

Ltac cxsimpl :=
  unfold self, self_attr, update_self, assert, attr, gets, modify, raise, ret,
    lift_result, rand, bind;
  cbn [fst snd
       ComplexEUCNMF.n_basis ComplexEUCNMF.regularizer ComplexEUCNMF.p
       ComplexEUCNMF.loss ComplexEUCNMF.eps ComplexEUCNMF.target
       ComplexEUCNMF.basis ComplexEUCNMF.activation ComplexEUCNMF.phase
       ComplexEUCNMF.Beta
       ComplexEUCNMF.set_loss ComplexEUCNMF.set_target
       ComplexEUCNMF.set_basis ComplexEUCNMF.set_activation
       ComplexEUCNMF.set_phase ComplexEUCNMF.set_Beta
       ComplexEUCNMF.__init__].

(** ** The loss of the complex engine *)

Lemma cexp_i_zero (a : R) : a = 0 -> cexp_i (Fin a) = (Fin 1, Fin 0).
Proof. intros ->. unfold cexp_i, fcos, fsin. now rewrite cos_0, sin_0. Qed.

Lemma arctan2_positive_real (a b : R) :
  0 < a -> b = 0 -> arctan2 (Fin b) (Fin a) = Fin 0.
Proof.
  intros Ha ->. unfold arctan2.
  rewrite Rltb_true by assumption. f_equal.
  replace (0 / a) with 0 by (field; lra). apply atan_0.
Qed.

Lemma cabs_squared (a b : R) :
  fmul (cabs (Fin a, Fin b)) (cabs (Fin a, Fin b)) = Fin (a * a + b * b).
Proof.
  unfold cabs. cbn [fst snd fmul]. f_equal. apply sqrt_sqrt. nra.
Qed.

Lemma fpow_minus_one (a y : R) : 0 < a -> y = -1 -> fpow (Fin a) y = Fin (/ a).
Proof.
  intros Ha ->. unfold fpow. rewrite Reqb_false by lra.
  rewrite Rltb_true by assumption. f_equal.
  replace (-1) with (- (1)) by lra.
  rewrite Rpower_Ropp, Rpower_1 by assumption. reflexivity.
Qed.

Ltac carrays :=
  cbn [map map2 mmap mmap2 matmul transpose transpose_n ncols hd tl dot fsum
       fold_right fold_left List.length app seq repeat
       mfloor mpow msqr msqrt mlog mscale mmul mdiv madd msub madd_scalar
       recip msum fadd fsub fneg fmul fsqr fst snd
       t3map t3map2 over_bins over_frames over_bases outer sum_rows
       sum_axis1 sum_axis2 sum_axis0 cadd csub cmul cconj creal rcmul of_real
       rand_matrix rand_tensor3 advance stream drawn constant_half
       Nat.add Nat.mul].

Ltac complex_step :=
  match goal with
  | |- context [cexp_i (Fin ?a)] => rewrite (cexp_i_zero a) by lra
  | |- context [cangle _] => unfold cangle
  | |- context [arctan2 (Fin ?b) (Fin ?a)] =>
      rewrite (arctan2_positive_real a b) by lra
  | |- context [fmul (cabs (Fin ?a, Fin ?b)) (cabs (Fin ?a, Fin ?b))] =>
      rewrite (cabs_squared a b)
  | |- context [fpow (Fin ?a) ?y] => rewrite (fpow_minus_one a y) by lra
  end.

Ltac cevaluate := repeat (carrays; try first [finite_step | complex_step]).

(** Equality of the instances of the example, attribute by attribute. *)
Ltac centries :=
  unfold ComplexEUCNMF.set_loss, ComplexEUCNMF.set_target,
    ComplexEUCNMF.set_basis, ComplexEUCNMF.set_activation,
    ComplexEUCNMF.set_phase, ComplexEUCNMF.set_Beta, ComplexEUCNMF.__init__;
  cbn [ComplexEUCNMF.n_basis ComplexEUCNMF.regularizer ComplexEUCNMF.p
       ComplexEUCNMF.loss ComplexEUCNMF.eps ComplexEUCNMF.target
       ComplexEUCNMF.basis ComplexEUCNMF.activation ComplexEUCNMF.phase
       ComplexEUCNMF.Beta app];
  repeat match goal with
    | |- (_, _) = (_, _) => f_equal
    | |- Some _ = Some _ => f_equal
    | |- _ :: _ = _ :: _ => f_equal
    | |- Fin _ = Fin _ => f_equal
    | |- ComplexEUCNMF.mk _ _ _ _ _ _ _ _ _ _
         = ComplexEUCNMF.mk _ _ _ _ _ _ _ _ _ _ => f_equal
    end;
  try reflexivity; try lra; try (field; lra).

Ltac crun :=
  repeat (cxsimpl;
          unfold fsqr, csub, cadd, cmul, rcmul, cconj, creal, of_real;
          carrays; try first [finite_step | complex_step]).

Lemma complex_example_reset :
  (update_self (ComplexEUCNMF.set_target (Some [[(Fin 1, Fin 0)]])) ;;
   ComplexEUCNMF._reset)
    (ComplexEUCNMF.__init__ 1 (1 / 10) 1 1e-12, constant_half)
  = ((ComplexEUCNMF.mk 1 (1 / 10) 1 [] 1e-12 (Some [[(Fin 1, Fin 0)]])
        (Some [[Fin (1 / 2)]]) (Some [[Fin (1 / 2)]]) (Some [[[Fin 0]]])
        (Some [[[Fin 1]]]),
      mkRandomState (fun _ => 1 / 2) 3), Ok tt).
Proof.
  unfold ComplexEUCNMF._reset, ComplexEUCNMF.init_phase,
    ComplexEUCNMF.update_beta.
  crun. centries.
Qed.

Lemma complex_example_step (g : RandomState) :
  ComplexEUCNMF.update_once
    (ComplexEUCNMF.mk 1 (1 / 10) 1 [] 1e-12 (Some [[(Fin 1, Fin 0)]])
       (Some [[Fin (1 / 2)]]) (Some [[Fin (1 / 2)]]) (Some [[[Fin 0]]])
       (Some [[[Fin 1]]]), g)
  = ((ComplexEUCNMF.mk 1 (1 / 10) 1 [] 1e-12 (Some [[(Fin 1, Fin 0)]])
        (Some [[Fin 1]]) (Some [[Fin (10 / 21)]]) (Some [[[Fin 0]]])
        (Some [[[Fin 1]]]), g), Ok tt).
Proof.
  unfold ComplexEUCNMF.update_once, ComplexEUCNMF.update_beta.
  crun. centries.
Qed.

(** C5 fails on the code.  A complex engine with one component,
    regularizer 0.1 and p = 1 is run for one iteration on the 1 x 1 target
    [1 + 0j], with every random draw equal to 1/2.  The run ends with Basis
    [1], Activation [10/21] and Phase [0].  The loop multiplies the
    components by the Phase itself, not by [exp(1j * Phase)], and appends
    [|1 * 10/21 * 0 - 1|^2 = 1]; the squared error of the complex
    reconstruction is [|10/21 - 1|^2 = 121/441]. *)
Theorem complex_loss_multiplies_by_raw_phase :
  let tgt : cmatrix := [[(Fin 1, Fin 0)]] in
  let o := ComplexEUCNMF.__init__ 1 (1 / 10) 1 1e-12 in
  exists o' g',
    ComplexEUCNMF.__call__ (Some tgt) 1 (o, constant_half)
    = ((o', g'), Ok ([[Fin 1]], [[Fin (10 / 21)]], [[[Fin 0]]]))
    /\ ComplexEUCNMF.loss o' = [Fin 1]
    /\ logged_complex_loss [[Fin 1]] [[Fin (10 / 21)]] [[[Fin 0]]] tgt = Fin 1
    /\ prescribed_complex_loss [[Fin 1]] [[Fin (10 / 21)]] [[[Fin 0]]] tgt
       = Fin (121 / 441)
    /\ Fin 1 <> Fin (121 / 441).
Proof.
  intros tgt o.
  exists (ComplexEUCNMF.mk 1 (1 / 10) 1 [Fin 1] 1e-12 (Some tgt)
            (Some [[Fin 1]]) (Some [[Fin (10 / 21)]]) (Some [[[Fin 0]]])
            (Some [[[Fin 1]]])),
         (mkRandomState (fun _ => 1 / 2) 3).
  split.
  { unfold ComplexEUCNMF.__call__, tgt, o.
    rewrite <- (bind_assoc
                  (update_self (ComplexEUCNMF.set_target
                                  (Some [[(Fin 1, Fin 0)]])))
                  (fun _ => ComplexEUCNMF._reset)).
    rewrite (bind_ok _ _ _ _ _ complex_example_reset).
    unfold ComplexEUCNMF.update. cbn [for_range].
    rewrite !bind_assoc.
    unfold bind at 1. unfold self_attr at 1, attr at 1.
    cbn [fst ComplexEUCNMF.target].
    rewrite !bind_assoc.
    rewrite (bind_ok _ _ _ _ _ (complex_example_step _)).
    unfold ComplexEUCNMF.criterion. crun. centries. }
  split; [reflexivity|].
  split.
  { unfold logged_complex_loss, ComplexEUCNMF.criterion, tgt. crun. centries. }
  split.
  { unfold prescribed_complex_loss, tgt. crun. centries. }
  intros H. injection H as H. lra.
Qed.

(** ** The length of the loss trace *)

Lemma configured_after_reset (c : engine) (o : NMF) (tgt : matrix)
  (g : RandomState) :
  configured c o -> configured c (fst (after_reset o tgt g)).
Proof. intros H. exact H. Qed.

(** A run of a configured real-valued engine returns; it appends one loss
    entry per iteration. *)
Lemma call_ok (c : engine) (o : NMF) (g : RandomState) (tgt : matrix)
  (J : matrix -> matrix -> Prop) (Q : num -> Prop) :
  configured c o ->
  (forall o1 g1 T V T' V',
      same_config (fst (after_reset o tgt g)) o1 ->
      basis o1 = Some T -> activation o1 = Some V -> J T V ->
      update_once_of c (o1, g1)
      = ((set_activation V' (set_basis T' o1), g1), Ok tt) ->
      J T' V') ->
  (forall T V m,
      J T V ->
      criterion o (reconstruction_of c (domain o) (matmul T V)) tgt = Ok m ->
      Q (msum m)) ->
  J (rand_matrix g (List.length tgt) (n_basis o))
    (rand_matrix (advance g (List.length tgt * n_basis o))
                 (n_basis o) (ncols tgt)) ->
  forall it,
  exists o' g' T V new,
    call_of c (Some tgt) it (o, g) = ((o', g'), Ok (T, V))
    /\ same_config (fst (after_reset o tgt g)) o'
    /\ basis o' = Some T /\ activation o' = Some V /\ J T V
    /\ loss o' = loss o ++ new /\ List.length new = it /\ Forall Q new.
Proof.
  intros Hc Hstep Hloss HJ0 it.
  rewrite call_unfold.
  destruct (after_reset o tgt g) as [o1 g1] eqn:Er.
  assert (Eo1 : o1 = fst (after_reset o tgt g)) by now rewrite Er.
  assert (Hc1 : configured c o1)
    by (rewrite Eo1; now apply configured_after_reset).
  assert (Ht1 : target o1 = Some tgt) by (rewrite Eo1; reflexivity).
  assert (HT1 : basis o1 = Some (rand_matrix g (List.length tgt) (n_basis o)))
    by (rewrite Eo1; reflexivity).
  assert (HV1 : activation o1
                = Some (rand_matrix (advance g (List.length tgt * n_basis o))
                                    (n_basis o) (ncols tgt)))
    by (rewrite Eo1; reflexivity).
  assert (Hd1 : domain o1 = domain o) by (rewrite Eo1; reflexivity).
  assert (Hcr1 : criterion o1 = criterion o) by (rewrite Eo1; reflexivity).
  assert (Hl1 : loss o1 = loss o) by (rewrite Eo1; reflexivity).
  cbn [fst] in Hstep.
  destruct (loop_ok c (reconstruction_of c (domain o1)) o1 g1 tgt J Q Hc1 Ht1)
    with (it := it) (T0 := rand_matrix g (List.length tgt) (n_basis o))
         (V0 := rand_matrix (advance g (List.length tgt * n_basis o))
                            (n_basis o) (ncols tgt))
    as (o' & T & V & new & E & Hs & HT & HV & HJ & Hl & Hn & HQ);
    try assumption.
  - intros o2 T V T' V' Hs2. apply Hstep. exact Hs2.
  - intros T V m HJ Hm. apply (Hloss T V m HJ).
    rewrite <- Hd1, <- Hcr1. exact Hm.
  - exists o', g1, T, V, new.
    split.
    + assert (E' : update_of c it (o1, g1) = ((o', g1), Ok tt))
        by (rewrite update_of_loop; cbn [fst]; rewrite Ht1; exact E).
      rewrite (bind_ok _ _ _ _ _ E'). msimpl. rewrite HT. msimpl.
      rewrite HV. reflexivity.
    + split; [exact Hs|]. split; [exact HT|].
      split; [exact HV|]. split; [exact HJ|]. rewrite <- Hl1.
      split; [exact Hl|]. split; [exact Hn|exact HQ].
Qed.

Lemma complex_reset_ok (o : ComplexEUCNMF.t) (g : RandomState)
  (tgt : cmatrix) :
  exists w,
    (update_self (ComplexEUCNMF.set_target (Some tgt)) ;;
     ComplexEUCNMF._reset) (o, g) = (w, Ok tt)
    /\ complex_ready w
    /\ ComplexEUCNMF.target (fst w) = Some tgt
    /\ ComplexEUCNMF.loss (fst w) = ComplexEUCNMF.loss o.
Proof.
  unfold ComplexEUCNMF._reset, ComplexEUCNMF.init_phase,
    ComplexEUCNMF.update_beta.
  cxsimpl. eexists. split; [reflexivity|].
  unfold complex_ready. cxsimpl. repeat split; eauto.
Qed.

Lemma complex_step_ok (w : World ComplexEUCNMF.t) :
  complex_ready w ->
  exists w',
    ComplexEUCNMF.update_once w = (w', Ok tt)
    /\ complex_ready w'
    /\ ComplexEUCNMF.target (fst w') = ComplexEUCNMF.target (fst w)
    /\ ComplexEUCNMF.loss (fst w') = ComplexEUCNMF.loss (fst w).
Proof.
  destruct w as [o g].
  intros ((t & Ht) & (T & HT) & (V & HV) & (P & HP) & (B & HB)).
  cbn [fst] in *.
  unfold ComplexEUCNMF.update_once, ComplexEUCNMF.update_beta.
  cxsimpl. rewrite Ht. cxsimpl. rewrite HT. cxsimpl. rewrite HV. cxsimpl.
  rewrite HP. cxsimpl. rewrite HB. cxsimpl.
  eexists. split; [reflexivity|].
  unfold complex_ready. cxsimpl. repeat split; eauto.
Qed.

(** A run of the complex engine returns; it appends one loss entry per
    iteration. *)
Lemma complex_call_ok (o : ComplexEUCNMF.t) (g : RandomState) (tgt : cmatrix)
  (it : nat) :
  exists o' g' r new,
    ComplexEUCNMF.__call__ (Some tgt) it (o, g) = ((o', g'), Ok r)
    /\ ComplexEUCNMF.loss o' = ComplexEUCNMF.loss o ++ new
    /\ List.length new = it.
Proof.
  destruct (complex_reset_ok o g tgt) as (w1 & Er & Hr1 & Ht1 & Hl1).
  pose (P := fun (k : nat) (w : World ComplexEUCNMF.t) =>
               complex_ready w
               /\ exists new, ComplexEUCNMF.loss (fst w)
                              = ComplexEUCNMF.loss o ++ new
                              /\ List.length new = k).
  set (body :=
         (ComplexEUCNMF.update_once ;;
          T <- self_attr "basis" ComplexEUCNMF.basis ;;
          V <- self_attr "activation" ComplexEUCNMF.activation ;;
          Phi <- self_attr "phase" ComplexEUCNMF.phase ;;
          let TVPhi := sum_axis1 fadd (t3map2 fmul (outer T V) Phi) in
          let l := ComplexEUCNMF.criterion TVPhi tgt in
          update_self (fun o => ComplexEUCNMF.set_loss
                                  (ComplexEUCNMF.loss o ++ [msum l]) o))).
  assert (Hbody : forall k s, P k s ->
             exists s', body s = (s', Ok tt) /\ P (S k) s').
  { intros k s (Hs & new & Hl & Hn).
    destruct (complex_step_ok s Hs)
      as ([o2 g2] & E & ((t & Ht) & (T & HT) & (V & HV) & (Ph & HP) & (B & HB))
          & _ & Hl2).
    cbn [fst] in *. unfold body. rewrite (bind_ok _ _ _ _ _ E).
    cxsimpl. rewrite HT. cxsimpl. rewrite HV. cxsimpl. rewrite HP. cxsimpl.
    eexists. split; [reflexivity|].
    unfold P, complex_ready. cxsimpl. split; [repeat split; eauto|].
    exists (new ++ [msum (ComplexEUCNMF.criterion
                            (sum_axis1 fadd (t3map2 fmul (outer T V) Ph)) tgt)]).
    rewrite Hl2, Hl, <- app_assoc. split; [reflexivity|].
    rewrite length_app. cbn. lia. }
  destruct (for_range_total P body Hbody it 0%nat w1)
    as ([o' g'] & E & (Hr' & new & Hl & Hn)).
  { split; [exact Hr1|]. exists []. rewrite app_nil_r. auto. }
  destruct Hr' as (_ & (T & HT) & (V & HV) & (Ph & HP) & _).
  cbn [fst] in *.
  exists o', g', (T, V, Ph), new. split; [|auto].
  unfold ComplexEUCNMF.__call__.
  rewrite <- (bind_assoc (update_self (ComplexEUCNMF.set_target (Some tgt)))
                         (fun _ => ComplexEUCNMF._reset)).
  rewrite (bind_ok _ _ _ _ _ Er).
  unfold ComplexEUCNMF.update. rewrite bind_assoc.
  unfold bind at 1. unfold self_attr at 1, attr at 1. rewrite Ht1.
  fold body. rewrite (bind_ok _ _ _ _ _ E).
  cxsimpl. rewrite HT. cxsimpl. rewrite HV. cxsimpl. rewrite HP. reflexivity.
Qed.

Lemma keeps_bind {A B : Type} (m : M (World MultichannelISNMF.t) A)
  (k : A -> M (World MultichannelISNMF.t) B) :
  keeps_loss m -> (forall a, keeps_loss (k a)) -> keeps_loss (bind m k).
Proof.
  intros Hm Hk w w' b E. apply bind_ok_inv in E.
  destruct E as (s1 & a & E1 & E2).
  rewrite (Hk a _ _ _ E2). apply (Hm _ _ _ E1).
Qed.

Lemma keeps_pure {A : Type} (m : M (World MultichannelISNMF.t) A) :
  (forall w, fst (m w) = w) -> keeps_loss m.
Proof.
  intros H w w' a E. specialize (H w). rewrite E in H. cbn in H. now subst.
Qed.

Lemma keeps_self {A : Type} (f : MultichannelISNMF.t -> A) :
  keeps_loss (self f).
Proof. apply keeps_pure. reflexivity. Qed.

Lemma keeps_self_attr {A : Type} (name : string)
  (f : MultichannelISNMF.t -> option A) :
  keeps_loss (self_attr name f).
Proof.
  apply keeps_pure. intros w. unfold self_attr, attr.
  destruct (f (fst w)); reflexivity.
Qed.

Lemma keeps_lift {A : Type} (r : result A) : keeps_loss (lift_result r).
Proof. apply keeps_pure. reflexivity. Qed.

Lemma keeps_ret {A : Type} (a : A) :
  keeps_loss (ret a : M (World MultichannelISNMF.t) A).
Proof. apply keeps_pure. reflexivity. Qed.

Lemma keeps_assert (b : bool) (msg : string) :
  keeps_loss (assert b msg : M (World MultichannelISNMF.t) unit).
Proof. apply keeps_pure. intros w. destruct b; reflexivity. Qed.

Lemma keeps_rand (r c : nat) :
  keeps_loss (rand r c : M (World MultichannelISNMF.t) matrix).
Proof. intros w w' a E. unfold rand in E. inversion E. reflexivity. Qed.

Lemma keeps_update_self (f : MultichannelISNMF.t -> MultichannelISNMF.t) :
  (forall o, MultichannelISNMF.loss (f o) = MultichannelISNMF.loss o) ->
  keeps_loss (update_self f).
Proof.
  intros Hf w w' a E. unfold update_self, modify in E. inversion E.
  cbn [fst]. apply Hf.
Qed.

Ltac keeps :=
  repeat first
    [ apply keeps_bind; [|intros ?]
    | apply keeps_self
    | apply keeps_self_attr
    | apply keeps_lift
    | apply keeps_ret
    | apply keeps_assert
    | apply keeps_rand
    | apply keeps_update_self; intros ?; reflexivity
    | match goal with
      | |- keeps_loss (if ?b then _ else _) => destruct b
      end ].

Lemma keeps_reset : keeps_loss MultichannelISNMF._reset.
Proof. unfold MultichannelISNMF._reset. keeps. Qed.

Lemma keeps_update_once
  (inv : tensor4 -> result tensor4)
  (solve : tensor4 -> tensor4 -> result tensor4) :
  keeps_loss (MultichannelISNMF.update_once inv solve).
Proof.
  unfold MultichannelISNMF.update_once, MultichannelISNMF.update_basis,
    MultichannelISNMF.update_activation, MultichannelISNMF.update_spatial,
    MultichannelISNMF.reconstruct, MultichannelISNMF.inverse.
  keeps.
Qed.

(** A run of the multichannel engine that returns has appended one loss
    entry per iteration. *)
Lemma multichannel_call_loss
  (inv : tensor4 -> result tensor4)
  (solve : tensor4 -> tensor4 -> result tensor4)
  (div : tensor4 -> tensor4 -> result matrix)
  (tgt : tensor4) (it : nat) (o o' : MultichannelISNMF.t)
  (g g' : RandomState) (r : tensor4 * matrix * matrix) :
  MultichannelISNMF.__call__ inv solve div tgt it (o, g) = ((o', g'), Ok r) ->
  exists new,
    MultichannelISNMF.loss o' = MultichannelISNMF.loss o ++ new
    /\ List.length new = it.
Proof.
  unfold MultichannelISNMF.__call__. intros E.
  apply bind_ok_inv in E. destruct E as (w1 & [] & E1 & E).
  apply bind_ok_inv in E. destruct E as (w2 & [] & E2 & E).
  apply bind_ok_inv in E. destruct E as (w3 & [] & E3 & E).
  cbv beta in *.
  assert (K : keeps_loss
                (H <- self_attr "spatial" MultichannelISNMF.spatial ;;
                 T <- self_attr "basis" MultichannelISNMF.basis ;;
                 V <- self_attr "activation" MultichannelISNMF.activation ;;
                 ret (H, T, V))) by keeps.
  pose proof (K _ _ _ E) as H3. clear K.
  assert (K : keeps_loss
                (update_self (MultichannelISNMF.set_target (Some tgt))))
    by keeps.
  pose proof (K _ _ _ E1) as H1. clear K. cbn [fst] in H1.
  assert (H2 : MultichannelISNMF.loss (fst w2) = MultichannelISNMF.loss (fst w1))
    by (apply (keeps_reset _ _ _ E2)).
  pose (P := fun (k : nat) (w : World MultichannelISNMF.t) =>
               exists new, MultichannelISNMF.loss (fst w)
                           = MultichannelISNMF.loss o ++ new
                           /\ List.length new = k).
  cbn [fst] in H3. rewrite H3.
  unfold MultichannelISNMF.update in E3.
  change (P (0 + it)%nat w3).
  eapply (for_range_partial P); [| |exact E3];
    [|exists []; rewrite app_nil_r; split; [congruence|reflexivity]].
  intros k s s' (new & Hl & Hn) Eb.
  apply bind_ok_inv in Eb. destruct Eb as (s1 & [] & Eb1 & Eb).
  apply bind_ok_inv in Eb. destruct Eb as (s2 & HTV & Eb2 & Eb).
  apply bind_ok_inv in Eb. destruct Eb as (s3 & l & Eb3 & Eb).
  cbv beta in *.
  pose proof (keeps_update_once inv solve _ _ _ Eb1) as K1.
  assert (K : keeps_loss MultichannelISNMF.reconstruct)
    by (unfold MultichannelISNMF.reconstruct; keeps).
  pose proof (K _ _ _ Eb2) as K2. clear K.
  assert (K3 : MultichannelISNMF.loss (fst s3) = MultichannelISNMF.loss (fst s2))
    by (apply (keeps_lift _ _ _ _ Eb3)).
  unfold update_self, modify in Eb. inversion Eb; subst s'.
  exists (new ++ [msum l]). cbn [fst MultichannelISNMF.loss
                                  MultichannelISNMF.set_loss].
  rewrite K3, K2, K1, Hl, <- app_assoc. split; [reflexivity|].
  rewrite length_app. cbn. lia.
Qed.

(** ** The loss entries of the Euclidean engine *)

Lemma update_once_result (c : engine) (r : rule) (o : NMF) (g : RandomState)
  (t T V T' V' : matrix) :
  rule_of c (algorithm o) = Some r ->
  step_configured c o ->
  target o = Some t -> basis o = Some T -> activation o = Some V ->
  update_once_of c (o, g) = ((set_activation V' (set_basis T' o), g), Ok tt) ->
  T' = basis_update r t (domain o) (eps o) (nu_of o) T V
  /\ V' = activation_update r t (domain o) (eps o) (nu_of o) T' V.
Proof.
  intros Hr Hc Ht HT HV E.
  rewrite (update_once_alternates c r o g t T V Hr Hc Ht HT HV) in E.
  unfold alternate in E.
  set (X := basis_update r t (domain o) (eps o) (nu_of o) T V) in *.
  assert (EX : X = T').
  { clearbody X. unfold set_activation, set_basis in E.
    injection E; intros; congruence. }
  rewrite EX in E.
  set (Y := activation_update r t (domain o) (eps o) (nu_of o) T' V) in *.
  assert (EY : Y = V').
  { clearbody Y. unfold set_activation, set_basis in E.
    injection E; intros; congruence. }
  split; congruence.
Qed.

Lemma nn_msum (M : matrix) : mat nn M -> nn (msum M).
Proof.
  intros H. unfold msum. apply nn_fsum.
  apply (Forall_map_imp (Forall nn)); [|exact H]. apply nn_fsum.
Qed.

Lemma nn_rand_matrix (g : RandomState) (r c : nat) :
  draws_nonneg g -> mat nn (rand_matrix g r c).
Proof.
  intros Hg. unfold rand_matrix, mat.
  apply Forall_forall. intros row Hrow.
  apply in_map_iff in Hrow. destruct Hrow as (i & <- & _).
  apply Forall_forall. intros x Hx.
  apply in_map_iff in Hx. destruct Hx as (j & <- & _).
  eexists. split; [reflexivity|apply Hg].
Qed.

Lemma euclidean_instance_configured (o : NMF) :
  euclidean_instance o -> configured Euclidean o.
Proof.
  intros (Ha & _ & Hc). split.
  - intros a b. rewrite Hc. eauto.
  - now apply euclidean_configured.
Qed.

Lemma euclidean_init_instance (n : nat) (d : R) (a : string) (e : R) (o : NMF) :
  EUCNMF.__init__ n d a e = Ok o ->
  euclidean_instance o /\ eps o = e /\ loss o = [].
Proof.
  unfold EUCNMF.__init__, domain_in_range, Rle_bool.
  destruct (Rle_dec 1 d); [|discriminate].
  destruct (Rle_dec d 2); [|discriminate]. cbn [andb negb].
  destruct (a =? "mm")%string eqn:Ea; [|discriminate]. cbn [negb].
  intros H. injection H as <-. apply String.eqb_eq in Ea. subst a.
  repeat split; auto.
Qed.

(** Every rule except the Cauchy 'me' rule keeps finite non-negative
    factors finite and non-negative. *)
Lemma update_once_keeps_nonneg (c : engine) (r : rule) (o : NMF)
  (g : RandomState) (t T V T' V' : matrix) :
  rule_of c (algorithm o) = Some r -> r <> Cauchy_me ->
  step_configured c o ->
  0 < eps o -> 1 <= domain o <= 2 -> (r = t_mm -> 0 <= nu_of o) ->
  target o = Some t -> basis o = Some T -> activation o = Some V ->
  mat nn t -> mat nn T -> mat nn V ->
  update_once_of c (o, g) = ((set_activation V' (set_basis T' o), g), Ok tt) ->
  mat nn T' /\ mat nn V'.
Proof.
  intros Hr Hne Hc He Hd Hnu Ht HT HV Hnt HnT HnV E.
  destruct (update_once_result c r o g t T V T' V' Hr Hc Ht HT HV E)
    as (E1 & E2).
  assert (HnT' : mat nn T')
    by (rewrite E1; now apply basis_update_nonneg).
  split; [exact HnT'|].
  rewrite E2. now apply activation_update_nonneg.
Qed.

(** ** A Student-t run with a negative loss entry *)

Lemma fsqrt_one (a : R) : a = 1 -> fsqrt (Fin a) = Fin 1.
Proof. intros ->. rewrite fsqrt_fin by lra. now rewrite sqrt_1. Qed.

Ltac t_step :=
  match goal with
  | |- context [fsqrt (Fin ?a)] =>
      rewrite (fsqrt_one a) by first [ lra | field_simplify; lra ]
  | |- context [flog (Fin ?a)] => rewrite (flog_fin a) by real_cmp
  end.

Ltac tevaluate := repeat (arrays; try first [finite_step | t_step]).

Lemma student_t_example_step :
  alternate t_mm [[Fin (1 / 4)]] 2 1e-12 4 [[Fin (1 / 2)]] [[Fin (1 / 2)]]
  = ([[Fin (1 / 2)]], [[Fin (1 / 2)]]).
Proof.
  unfold alternate.
  assert (E : basis_update t_mm [[Fin (1 / 4)]] 2 1e-12 4
                [[Fin (1 / 2)]] [[Fin (1 / 2)]] = [[Fin (1 / 2)]]).
  { unfold basis_update. tevaluate. entries. }
  rewrite E. f_equal.
  unfold activation_update. tevaluate. entries.
Qed.

Lemma student_t_example_loss :
  tNMF.t_divergence 1e-12 4
    (mpow (matmul [[Fin (1 / 2)]] [[Fin (1 / 2)]]) (2 / 2)) [[Fin (1 / 4)]]
  = Ok [[Fin (ln (1 / 4 + 1e-12) + 3 * ln (3 / 2))]].
Proof.
  rewrite mpow_one by lra. unfold tNMF.t_divergence.
  rewrite Reqb_false by lra. f_equal. tevaluate.
  repeat match goal with
    | |- context [ln ?e] =>
        lazymatch e with
        | 1 / 4 + 1e-12 => fail
        | 3 / 2 => fail
        | _ => first [ replace e with (1 / 4 + 1e-12) by (field_simplify; lra)
                     | replace e with (3 / 2) by (field_simplify; lra) ]
        end
    end.
  entries.
Qed.

Lemma student_t_example_negative : ln (1 / 4 + 1e-12) + 3 * ln (3 / 2) < 0.
Proof.
  assert (H : ln ((1 / 4 + 1e-12) * (3 / 2) * (3 / 2) * (3 / 2))
              = ln (1 / 4 + 1e-12) + 3 * ln (3 / 2)).
  { rewrite !ln_mult by lra. lra. }
  rewrite <- H. rewrite <- ln_1. apply ln_increasing; lra.
Qed.

Lemma student_t_example_run :
  exists o1 g1,
    tNMF.__call__ (Some [[Fin (1 / 4)]]) 1
      (mkNMF 1 [] 1e-12 2 "mm" (Some 4) (tNMF.t_divergence 1e-12 4)
             None None None, constant_half)
    = ((o1, g1), Ok ([[Fin (1 / 2)]], [[Fin (1 / 2)]]))
    /\ loss o1 = [Fin (ln (1 / 4 + 1e-12) + 3 * ln (3 / 2))].
Proof.
  set (o0 := mkNMF 1 [] 1e-12 2 "mm" (Some 4) (tNMF.t_divergence 1e-12 4)
                   None None None).
  set (wo := set_activation [[Fin (1 / 2)]]
               (set_basis [[Fin (1 / 2)]]
                  (set_target (Some [[Fin (1 / 4)]]) o0))).
  set (wg := mkRandomState (fun _ : nat => 1 / 2) 2).
  assert (Er : after_reset o0 [[Fin (1 / 4)]] constant_half = (wo, wg))
    by reflexivity.
  assert (Es : update_once_of (StudentT 4) (wo, wg)
               = ((set_activation [[Fin (1 / 2)]]
                     (set_basis [[Fin (1 / 2)]] wo), wg), Ok tt)).
  { rewrite (update_once_alternates (StudentT 4) t_mm wo wg
               [[Fin (1 / 4)]] [[Fin (1 / 2)]] [[Fin (1 / 2)]]);
      try reflexivity.
    - unfold nu_of. cbn [nu eps domain wo o0 set_activation set_basis
                         set_target].
      rewrite student_t_example_step. reflexivity.
    - split; [reflexivity|]. split; [reflexivity|]. now exists 4. }
  eexists _, _.
  change (tNMF.__call__ (Some [[Fin (1 / 4)]]) 1 (o0, constant_half))
    with (call_of (StudentT 4) (Some [[Fin (1 / 4)]]) 1 (o0, constant_half)).
  rewrite call_unfold, Er.
  split.
  - unfold bind at 1. rewrite update_of_loop. cbn [for_range].
    unfold loop_body. rewrite !bind_assoc.
    rewrite (bind_ok _ _ _ _ _ Es). msimpl.
    unfold wo, o0. psimpl. cbn [reconstruction_of].
    rewrite student_t_example_loss. msimpl. reflexivity.
  - psimpl. cbn [app msum map fsum fold_right fadd]. entries.
Qed.

(** ** How the loss trace grows *)

Lemma real_call_total (c : engine) (o : NMF) (g : RandomState) (tgt : matrix)
  (it : nat) :
  configured c o ->
  exists o' g' T V new,
    call_of c (Some tgt) it (o, g) = ((o', g'), Ok (T, V))
    /\ loss o' = loss o ++ new /\ List.length new = it
    /\ configured c o'.
Proof.
  intros Hc.
  destruct (call_ok c o g tgt (fun _ _ => True) (fun _ => True) Hc)
    with (it := it)
    as (o' & g' & T & V & new & E & Hs & _ & _ & _ & Hl & Hn & _); auto.
  exists o', g', T, V, new. repeat split; try assumption.
  - destruct Hc as (Hc & _). intros a b.
    destruct Hs as (_ & _ & _ & _ & _ & Hcr & _). rewrite Hcr. apply Hc.
  - apply (configured_same c _ _ Hs
             (configured_after_reset c o tgt g Hc)).
  - apply (configured_same c _ _ Hs
             (configured_after_reset c o tgt g Hc)).
Qed.

Lemma construct_loss_empty (c : engine) (n : nat) (d : R) (a : string)
  (e : R) (o : NMF) :
  construct c n d a e = Ok o -> loss o = [].
Proof.
  intros H. now destruct (construct_algorithm _ _ _ _ _ _ H)
    as (_ & _ & _ & _ & Hl & _).
Qed.

(** C2, as stated, fails.  A Euclidean engine run twice for one iteration
    holds two loss entries after the second run, not one: the trace is
    created by the constructor and no run empties it.  And the loss entries
    are not all non-negative: a Student-t engine (nu = 4) run for one
    iteration on the target [1/4], the draws being 1/2, logs
    [ln (1/4 + 1e-12) + 3 ln (3/2)], which is negative. *)
Lemma loss_trace_accumulates_and_can_be_negative :
  (exists o0 o1 g1 r1 o2 g2 r2,
      EUCNMF.__init__ 1 2 "mm" 1e-12 = Ok o0
      /\ EUCNMF.__call__ (Some [[Fin 1]]) 1 (o0, constant_half)
         = ((o1, g1), Ok r1)
      /\ List.length (loss o1) = 1%nat
      /\ EUCNMF.__call__ (Some [[Fin 1]]) 1 (o1, g1) = ((o2, g2), Ok r2)
      /\ List.length (loss o2) = 2%nat)
  /\ (exists o0 o1 g1 r1 x,
         tNMF.__init__ 1 4 2 "mm" 1e-12 = Ok o0
         /\ tNMF.__call__ (Some [[Fin (1 / 4)]]) 1 (o0, constant_half)
            = ((o1, g1), Ok r1)
         /\ loss o1 = [Fin x]
         /\ x < 0).
Proof.
  split.
  - assert (Hr : domain_in_range 2 = true)
      by (apply domain_in_range_true; lra).
    unfold EUCNMF.__init__. rewrite Hr. cbn [negb String.eqb].
    eexists. 
    set (o0 := mkNMF 1 [] 1e-12 2 "mm" None
                 (fun input target => Ok (msqr (msub target input)))
                 None None None).
    assert (Hc0 : configured Euclidean o0).
    { split; [intros a b; eexists; reflexivity|].
      split; [reflexivity|exact I]. }
    destruct (real_call_total Euclidean o0 constant_half [[Fin 1]] 1 Hc0)
      as (o1 & g1 & T1 & V1 & new1 & E1 & Hl1 & Hn1 & Hc1).
    destruct (real_call_total Euclidean o1 g1 [[Fin 1]] 1 Hc1)
      as (o2 & g2 & T2 & V2 & new2 & E2 & Hl2 & Hn2 & _).
    exists o1, g1, (T1, V1), o2, g2, (T2, V2).
    split; [reflexivity|]. split; [exact E1|].
    split; [rewrite Hl1, length_app, Hn1; reflexivity|].
    split; [exact E2|].
    rewrite Hl2, Hl1, !length_app, Hn1, Hn2. reflexivity.
  - assert (Hr : domain_in_range 2 = true)
      by (apply domain_in_range_true; lra).
    unfold tNMF.__init__. rewrite Hr. cbn [negb].
    destruct student_t_example_run as (o1 & g1 & E & Hl).
    eexists _, o1, g1, _, _. split; [reflexivity|].
    split; [exact E|]. split; [exact Hl|].
    exact student_t_example_negative.
Qed.



(** * Further properties of the engines *)

Lemma loop_indexed (c : engine) (f : matrix -> matrix) (o : NMF)
  (g : RandomState) (t : matrix) (J : nat -> matrix -> matrix -> Prop) :
  configured c o -> target o = Some t ->
  (forall k o1 T V T' V',
      same_config o o1 -> basis o1 = Some T -> activation o1 = Some V ->
      J k T V ->
      update_once_of c (o1, g)
      = ((set_activation V' (set_basis T' o1), g), Ok tt) ->
      J (S k) T' V') ->
  forall (it : nat) (T0 V0 : matrix),
    basis o = Some T0 -> activation o = Some V0 -> J 0%nat T0 V0 ->
    exists o' T V new,
      for_range it (loop_body f (update_once_of c) (Some t)) (o, g)
      = ((o', g), Ok tt)
      /\ same_config o o'
      /\ basis o' = Some T /\ activation o' = Some V /\ J it T V
      /\ loss o' = loss o ++ new /\ List.length new = it.
Proof.
  intros Hc Ht Hstep it T0 V0 HT0 HV0 HJ0.
  pose (P := fun (k : nat) (w : World NMF) =>
               snd w = g /\ same_config o (fst w)
               /\ (exists T V, basis (fst w) = Some T
                               /\ activation (fst w) = Some V /\ J k T V)
               /\ exists new, loss (fst w) = loss o ++ new
                              /\ List.length new = k).
  assert (Hbody : forall k s, P k s ->
             exists s', loop_body f (update_once_of c) (Some t) s
                        = (s', Ok tt) /\ P (S k) s').
  { intros k [o1 g1] (Hg & Hs & (T & V & HT & HV & HJ) & new & Hl & Hn).
    cbn [fst snd] in *. subst g1.
    assert (Hc1 : configured c o1) by (eapply configured_same; eauto).
    assert (Ht1 : target o1 = Some t)
      by (destruct Hs as (_&_&_&_&_&_&Hs); congruence).
    assert (Hr1 : ready (o1, g)) by (repeat split; cbn [fst]; eauto).
    destruct (loop_body_ok c f o1 g t Hc1 Hr1 Ht1) as (T' & V' & m & E & Em & Eb).
    eexists. split; [exact Eb|].
    assert (HJ' : J (S k) T' V') by (eapply Hstep; eauto).
    unfold P, same_config. psimpl. split; [reflexivity|]. split.
    { destruct Hs as (?&?&?&?&?&?&?). repeat split; assumption. }
    split; [exists T', V'; repeat split; assumption|].
    exists (new ++ [msum m]). rewrite Hl, <- app_assoc.
    split; [reflexivity|].
    rewrite length_app. cbn. lia. }
  destruct (for_range_total P _ Hbody it 0%nat (o, g)) as ([o' g'] & E & HP).
  { unfold P. cbn [fst snd]. split; [reflexivity|].
    split; [apply same_config_refl|]. split; [eauto|].
    exists []. rewrite app_nil_r. repeat split. }
  destruct HP as (Hg & Hs & (T & V & HT & HV & HJ) & new & Hl & Hn).
  cbn [fst snd] in *. subst g'.
  exists o', T, V, new.
  split; [exact E|]. split; [exact Hs|]. split; [exact HT|].
  split; [exact HV|]. split; [exact HJ|]. split; [exact Hl|exact Hn].
Qed.

Lemma rule_of_same (c : engine) (o o1 : NMF) (r : rule) :
  same_config o o1 -> rule_of c (algorithm o) = Some r ->
  rule_of c (algorithm o1) = Some r.
Proof. intros (_ & _ & _ & Ha & _) H. now rewrite Ha. Qed.

(** X1.  A run of a configured real-valued engine returns the factors obtained
    by applying the update step [iteration] times to the two arrays that
    reset draws; nothing else is drawn, and whatever the instance held as
    factors before the call plays no part. *)
Theorem run_iterates_update_step (c : engine) (r : rule) (o : NMF)
  (g : RandomState) (tgt : matrix) (it : nat) :
  configured c o -> rule_of c (algorithm o) = Some r ->
  exists o' new,
    call_of c (Some tgt) it (o, g)
    = ((o', advance (advance g (List.length tgt * n_basis o))
                    (n_basis o * ncols tgt)),
       Ok (Nat.iter it (step_of r tgt (domain o) (eps o) (nu_of o))
                    (initial_factors o tgt g)))
    /\ basis o'
       = Some (fst (Nat.iter it (step_of r tgt (domain o) (eps o) (nu_of o))
                             (initial_factors o tgt g)))
    /\ activation o'
       = Some (snd (Nat.iter it (step_of r tgt (domain o) (eps o) (nu_of o))
                             (initial_factors o tgt g)))
    /\ loss o' = loss o ++ new /\ List.length new = it.
Proof.
  intros Hc Hr.
  rewrite call_unfold.
  set (F := step_of r tgt (domain o) (eps o) (nu_of o)).
  set (I0 := initial_factors o tgt g).
  destruct (after_reset o tgt g) as [o1 g1] eqn:Er.
  assert (Eo1 : o1 = fst (after_reset o tgt g)) by now rewrite Er.
  assert (Eg1 : g1 = advance (advance g (List.length tgt * n_basis o))
                             (n_basis o * ncols tgt))
    by (change g1 with (snd (o1, g1)); rewrite <- Er; reflexivity).
  assert (Hc1 : configured c o1)
    by (rewrite Eo1; now apply configured_after_reset).
  assert (Ht1 : target o1 = Some tgt) by (rewrite Eo1; reflexivity).
  assert (HT1 : basis o1 = Some (fst I0)) by (rewrite Eo1; reflexivity).
  assert (HV1 : activation o1 = Some (snd I0)) by (rewrite Eo1; reflexivity).
  assert (Hd1 : domain o1 = domain o) by (rewrite Eo1; reflexivity).
  assert (He1 : eps o1 = eps o) by (rewrite Eo1; reflexivity).
  assert (Hn1 : nu_of o1 = nu_of o) by (rewrite Eo1; reflexivity).
  assert (Ha1 : algorithm o1 = algorithm o) by (rewrite Eo1; reflexivity).
  assert (Hl1 : loss o1 = loss o) by (rewrite Eo1; reflexivity).
  destruct (loop_indexed c (reconstruction_of c (domain o1)) o1 g1 tgt
              (fun k T V => (T, V) = Nat.iter k F I0) Hc1 Ht1)
    with (it := it) (T0 := fst I0) (V0 := snd I0)
    as (o' & T & V & new & E & Hs & HT & HV & HJ & Hl & Hn);
    try assumption.
  - intros k o2 T V T' V' Hs HT HV HJ E.
    assert (Hr2 : rule_of c (algorithm o2) = Some r).
    { apply (rule_of_same c o1 o2 r Hs). now rewrite Ha1. }
    assert (Hc2 : configured c o2) by (eapply configured_same; eauto).
    assert (Ht2 : target o2 = Some tgt)
      by (destruct Hs as (_&_&_&_&_&_&Hs); congruence).
    destruct (update_once_result c r o2 g1 tgt T V T' V' Hr2 (proj2 Hc2)
                Ht2 HT HV E) as (E1 & E2).
    change (Nat.iter (S k) F I0) with (F (Nat.iter k F I0)).
    rewrite <- HJ. unfold F, step_of, alternate.
    cbn [fst snd].
    destruct Hs as (_ & He2 & Hd2 & _ & Hn2 & _).
    assert (Hnu : nu_of o2 = nu_of o)
      by (unfold nu_of in *; rewrite Hn2; exact Hn1).
    rewrite <- Hd1, <- He1, <- Hnu, <- Hd2, <- He2, <- E1, <- E2.
    reflexivity.
  - change (Nat.iter 0 F I0) with I0. now destruct I0.
  - exists o', new.
    assert (E' : update_of c it (o1, g1) = ((o', g1), Ok tt))
      by (rewrite update_of_loop; cbn [fst]; rewrite Ht1; exact E).
    rewrite (bind_ok _ _ _ _ _ E'). msimpl. rewrite HT. msimpl.
    rewrite HV. rewrite <- HJ, <- Eg1, <- Hl1. cbn [fst snd].
    repeat split; assumption.
Qed.

Lemma run_iterates_update_step_example :
  exists o' new,
    call_of Euclidean (Some [[Fin 4]]) 2 (euclidean_example, constant_half)
    = ((o', advance (advance constant_half (1 * 1)) (1 * 1)),
       Ok (Nat.iter 2 (step_of EUC_mm [[Fin 4]] 2 1e-12 0)
                    (initial_factors euclidean_example [[Fin 4]]
                                     constant_half)))
    /\ basis o'
       = Some (fst (Nat.iter 2 (step_of EUC_mm [[Fin 4]] 2 1e-12 0)
                             (initial_factors euclidean_example [[Fin 4]]
                                              constant_half)))
    /\ activation o'
       = Some (snd (Nat.iter 2 (step_of EUC_mm [[Fin 4]] 2 1e-12 0)
                             (initial_factors euclidean_example [[Fin 4]]
                                              constant_half)))
    /\ loss o' = loss euclidean_example ++ new /\ List.length new = 2%nat.
Proof.
  apply (run_iterates_update_step Euclidean EUC_mm euclidean_example
           constant_half [[Fin 4]] 2).
  - split.
    + intros a b. eexists. reflexivity.
    + split; [reflexivity|exact I].
  - reflexivity.
Defined.

(** *** Shapes of the array operations *)

Lemma shape_length {A : Type} (r c : nat) (M : list (list A)) :
  shape r c M -> List.length M = r.
Proof. now intros (H & _). Qed.

Lemma shape_ncols {A : Type} (r c : nat) (M : list (list A)) :
  (0 < r)%nat -> shape r c M -> ncols M = c.
Proof.
  intros Hr (Hl & Hc). destruct M as [|row M]; cbn in *; [lia|].
  now inversion Hc.
Qed.

Lemma shape_mmap {A B : Type} (f : A -> B) (r c : nat) (M : list (list A)) :
  shape r c M -> shape r c (mmap f M).
Proof.
  intros (Hl & Hc). split.
  - unfold mmap. now rewrite length_map.
  - unfold mmap. apply Forall_map. eapply Forall_impl; [|exact Hc].
    intros row Hrow. cbn beta. now rewrite length_map.
Qed.

Lemma length_map2 {A B C : Type} (f : A -> B -> C) (l : list A) (m : list B) :
  List.length l = List.length m ->
  List.length (map2 f l m) = List.length l.
Proof.
  revert m. induction l as [|a l IH]; intros [|b m] H; cbn in *;
    try lia. f_equal. apply IH. lia.
Qed.

Lemma shape_mmap2 {A B C : Type} (f : A -> B -> C) (r c : nat)
  (M : list (list A)) (N : list (list B)) :
  shape r c M -> shape r c N -> shape r c (mmap2 f M N).
Proof.
  intros (Hl & Hc) (Hl' & Hc'). unfold mmap2. split.
  - rewrite length_map2; congruence.
  - clear Hl Hl'. revert N Hc'.
    induction Hc as [|row M Hrow _ IH]; intros [|row' N] Hc'; cbn;
      try constructor.
    + inversion Hc'; subst. rewrite length_map2; congruence.
    + inversion Hc'; subst. now apply IH.
Qed.

Lemma length_transpose_n {A : Type} (d : A) (n : nat) (M : list (list A)) :
  List.length (transpose_n d n M) = n.
Proof.
  revert M. induction n as [|n IH]; intros M; cbn; [reflexivity|].
  now rewrite IH.
Qed.

Lemma rows_transpose_n {A : Type} (d : A) (n : nat) (M : list (list A)) :
  Forall (fun row => List.length row = List.length M) (transpose_n d n M).
Proof.
  revert M. induction n as [|n IH]; intros M; cbn; constructor.
  - now rewrite length_map.
  - specialize (IH (map (@tl A) M)). now rewrite length_map in IH.
Qed.

Lemma shape_transpose (r c : nat) (M : matrix) :
  (0 < r)%nat -> shape r c M -> shape c r (transpose M).
Proof.
  intros Hr H. unfold transpose.
  rewrite (shape_ncols r c M Hr H). destruct H as (Hl & _). split.
  - apply length_transpose_n.
  - rewrite <- Hl. apply rows_transpose_n.
Qed.

Lemma shape_matmul (r m c : nat) (A B : matrix) :
  (0 < m)%nat -> shape r m A -> shape m c B -> shape r c (matmul A B).
Proof.
  intros Hm (Hl & _) HB. unfold matmul. split.
  - now rewrite length_map.
  - apply Forall_map, Forall_forall. intros row _. cbn beta.
    rewrite length_map.
    exact (shape_length _ _ _ (shape_transpose m c B Hm HB)).
Qed.

Lemma shape_sum_div_frames (b k f : nat) (V TV : matrix) :
  shape k f V -> shape b f TV -> shape b k (sum_div_frames V TV).
Proof.
  intros (HV & _) (HTV & _). unfold sum_div_frames. split.
  - now rewrite length_map.
  - apply Forall_map, Forall_forall. intros row _. cbn beta.
    now rewrite length_map.
Qed.

Lemma shape_sum_div_bins (b k f : nat) (T TV : matrix) :
  (0 < b)%nat -> shape b k T -> shape b f TV ->
  shape k f (sum_div_bins T TV).
Proof.
  intros Hb HT HTV. unfold sum_div_bins. split.
  - rewrite length_map.
    exact (shape_length _ _ _ (shape_transpose b k T Hb HT)).
  - apply Forall_map, Forall_forall. intros row _. cbn beta.
    rewrite length_map.
    exact (shape_length _ _ _ (shape_transpose b f TV Hb HTV)).
Qed.

Lemma shape_rand_matrix (g : RandomState) (r c : nat) :
  shape r c (rand_matrix g r c).
Proof.
  unfold rand_matrix. split.
  - now rewrite length_map, length_seq.
  - apply Forall_map, Forall_forall. intros i _. cbn beta.
    now rewrite length_map, length_seq.
Qed.

(** The shape of an array built from the operations of the rules. *)
Ltac shapes :=
  repeat match goal with
    | |- shape _ _ (mmul _ _) => apply shape_mmap2
    | |- shape _ _ (mdiv _ _) => apply shape_mmap2
    | |- shape _ _ (madd _ _) => apply shape_mmap2
    | |- shape _ _ (mpow _ _) => apply shape_mmap
    | |- shape _ _ (msqrt _) => apply shape_mmap
    | |- shape _ _ (msqr _) => apply shape_mmap
    | |- shape _ _ (mscale _ _) => apply shape_mmap
    | |- shape _ _ (mfloor _ _) => apply shape_mmap
    | |- shape _ _ (recip _) => apply shape_mmap
    | |- shape _ _ (mmap _ _) => apply shape_mmap
    | |- shape _ _ (harmonic _ _ _ _) => unfold harmonic
    | H : shape ?b ?k ?T |- shape _ _ (transpose ?T) =>
        apply (shape_transpose b k T)
    | HT : shape ?b ?k ?T, HV : shape ?k ?f ?V
      |- shape _ _ (matmul ?T ?V) => apply (shape_matmul b k f T V)
    | |- shape ?b ?k (matmul _ (transpose ?V)) =>
        match goal with
        | HV : shape k ?f V |- _ => apply (shape_matmul b f k)
        end
    | |- shape ?k ?f (matmul (transpose ?T) _) =>
        match goal with
        | HT : shape ?b k T |- _ => apply (shape_matmul k b f)
        end
    | |- shape ?k ?f (matmul (mscale _ (transpose ?T)) _) =>
        match goal with
        | HT : shape ?b k T |- _ => apply (shape_matmul k b f)
        end
    | HV : shape ?k ?f ?V |- shape ?b ?k (sum_div_frames ?V _) =>
        apply (shape_sum_div_frames b k f)
    | HT : shape ?b ?k ?T |- shape ?k ?f (sum_div_bins ?T _) =>
        apply (shape_sum_div_bins b k f)
    | |- _ => assumption
    | |- (_ < _)%nat => lia
    end.

Lemma basis_update_shape (r : rule) (target : matrix) (d e v : R)
  (T V : matrix) (b k f : nat) :
  (0 < b)%nat -> (0 < k)%nat -> (0 < f)%nat ->
  shape b f target -> shape b k T -> shape k f V ->
  shape b k (basis_update r target d e v T V).
Proof.
  intros Hb Hk Hf Ht HT HV.
  destruct r; cbv beta iota zeta delta [basis_update]; shapes.
Qed.

Lemma activation_update_shape (r : rule) (target : matrix) (d e v : R)
  (T V : matrix) (b k f : nat) :
  (0 < b)%nat -> (0 < k)%nat -> (0 < f)%nat ->
  shape b f target -> shape b k T -> shape k f V ->
  shape k f (activation_update r target d e v T V).
Proof.
  intros Hb Hk Hf Ht HT HV.
  destruct r; cbv beta iota zeta delta [activation_update]; shapes.
Qed.

(** What a state that shares the configuration of the reset instance
    holds. *)
Lemma same_config_after_reset (c : engine) (r : rule) (o o1 : NMF)
  (tgt : matrix) (g : RandomState) :
  configured c o -> rule_of c (algorithm o) = Some r ->
  same_config (fst (after_reset o tgt g)) o1 ->
  rule_of c (algorithm o1) = Some r /\ step_configured c o1
  /\ target o1 = Some tgt /\ eps o1 = eps o /\ domain o1 = domain o
  /\ nu_of o1 = nu_of o /\ n_basis o1 = n_basis o.
Proof.
  intros Hc Hr Hs.
  pose proof (configured_same c _ _ Hs (configured_after_reset c o tgt g Hc))
    as (_ & Hsc).
  destruct Hs as (Hn & He & Hd & Ha & Hnu & _ & Ht).
  cbn [fst after_reset n_basis eps domain algorithm nu target set_target
       set_basis set_activation] in Hn, He, Hd, Ha, Hnu, Ht.
  split; [now rewrite Ha|]. split; [exact Hsc|].
  split; [exact Ht|]. split; [exact He|]. split; [exact Hd|].
  split; [|exact Hn]. unfold nu_of. now rewrite Hnu.
Qed.

(** X2.  A run returns a Basis of [n_bins] rows and [n_basis] columns and an
    Activation of [n_basis] rows and [n_frames] columns, for each of the
    nine update rules. *)
Theorem run_returns_factors_of_the_expected_shape (c : engine) (r : rule)
  (o : NMF) (g : RandomState) (tgt : matrix) (n_bins n_frames it : nat) :
  configured c o -> rule_of c (algorithm o) = Some r ->
  (0 < n_bins)%nat -> (0 < n_frames)%nat -> (0 < n_basis o)%nat ->
  shape n_bins n_frames tgt ->
  exists o' g' T V,
    call_of c (Some tgt) it (o, g) = ((o', g'), Ok (T, V))
    /\ shape n_bins (n_basis o) T /\ shape (n_basis o) n_frames V.
Proof.
  intros Hc Hr Hb Hf Hk Ht.
  pose proof (shape_length _ _ _ Ht) as Hlen.
  pose proof (shape_ncols _ _ _ Hb Ht) as Hcol.
  destruct (call_ok c o g tgt
              (fun T V => shape n_bins (n_basis o) T
                          /\ shape (n_basis o) n_frames V)
              (fun _ => True) Hc) with (it := it)
    as (o' & g' & T & V & new & E & _ & _ & _ & (HT & HV) & _).
  - intros o1 g1 T V T' V' Hs HT HV (HsT & HsV) E.
    destruct (same_config_after_reset c r o o1 tgt g Hc Hr Hs)
      as (Hr1 & Hsc1 & Ht1 & _).
    destruct (update_once_result c r o1 g1 tgt T V T' V' Hr1 Hsc1 Ht1 HT HV E)
      as (E1 & E2).
    assert (HsT' : shape n_bins (n_basis o) T')
      by (rewrite E1; now apply (basis_update_shape _ _ _ _ _ _ _ _ _ n_frames)).
    split; [exact HsT'|].
    rewrite E2. now apply (activation_update_shape _ _ _ _ _ _ _ n_bins).
  - trivial.
  - rewrite Hlen, Hcol. split; apply shape_rand_matrix.
  - exists o', g', T, V. auto.
Qed.

Lemma run_returns_factors_of_the_expected_shape_example :
  exists o' g' T V,
    call_of Euclidean (Some [[Fin 4; Fin 1]]) 2 (euclidean_example, constant_half)
    = ((o', g'), Ok (T, V))
    /\ shape 1 (n_basis euclidean_example) T
    /\ shape (n_basis euclidean_example) 2 V.
Proof.
  apply (run_returns_factors_of_the_expected_shape Euclidean EUC_mm
           euclidean_example constant_half [[Fin 4; Fin 1]] 1 2 2).
  - split.
    + intros a b. eexists. reflexivity.
    + split; [reflexivity|exact I].
  - reflexivity.
  - lia.
  - lia.
  - cbn. lia.
  - split; [reflexivity|]. repeat constructor.
Defined.

(** ** Arrays of ones *)

Lemma fmul_one_r (x : num) : fmul x (Fin 1) = x.
Proof.
  destruct x; cbn; try reflexivity.
  - f_equal. lra.
  - now rewrite inf_times_pos by lra.
  - now rewrite inf_times_pos by lra.
Qed.


Lemma map2_fmul_ones (u v : vector) :
  List.length u = List.length v -> Forall (fun x => x = Fin 1) v ->
  map2 fmul u v = u.
Proof.
  revert v. induction u as [|x u IH]; intros [|y v] Hl Hv; cbn in *;
    try discriminate; [reflexivity|].
  inversion Hv; subst. rewrite fmul_one_r. f_equal. apply IH; [lia|assumption].
Qed.

Lemma mmul_ones (b k : nat) (T R : matrix) :
  shape b k T -> shape b k R -> mat (fun x => x = Fin 1) R -> mmul T R = T.
Proof.
  intros (Hl & Hc) (Hl' & Hc') Hn. unfold mmul, mmap2.
  subst b. revert R Hl' Hc' Hn.
  induction Hc as [|row T Hrow _ IH]; intros [|row' R] Hl' Hc' Hn;
    cbn in *; try discriminate; [reflexivity|].
  inversion Hc'; inversion Hn; subst. f_equal.
  - apply map2_fmul_ones; congruence.
  - apply IH; auto.
Qed.

(** ** Runs that raise *)

(** X10.  A run without data: every real-valued engine and the complex engine
    store the missing target and raise the assertion error of reset; no
    random number is drawn and no factor is created. *)
Theorem run_without_target_raises :
  (forall (c : engine) (it : nat) (o : NMF) (g : RandomState),
      call_of c None it (o, g)
      = ((set_target None o, g), Raise (AssertionError "Specify data!")))
  /\ (forall (it : nat) (o : ComplexEUCNMF.t) (g : RandomState),
         ComplexEUCNMF.__call__ None it (o, g)
         = ((ComplexEUCNMF.set_target None o, g),
            Raise (AssertionError "Specify data!"))).
Proof. split; reflexivity. Qed.

(** X11.  [NMFbase] is abstract: with its own [update_once] a run of at least
    one iteration raises [NotImplementedError] once reset has drawn the two
    factors, and a run of no iteration returns the factors as drawn. *)
Theorem nmfbase_update_once_is_abstract (o : NMF) (g : RandomState)
  (tgt : matrix) :
  (forall n,
      NMFbase.__call__ (NMFbase.update NMFbase.update_once) (Some tgt) (S n)
                       (o, g)
      = (after_reset o tgt g,
         Raise (NotImplementedError "Implement 'update_once' function")))
  /\ NMFbase.__call__ (NMFbase.update NMFbase.update_once) (Some tgt) 0 (o, g)
     = (after_reset o tgt g, Ok (initial_factors o tgt g)).
Proof. split; [intros n|]; reflexivity. Qed.

(** X12.  [MultichannelNMFbase] is abstract: a run never returns.  Without data
    it raises the assertion error of reset; with data it raises
    [NotImplementedError], from [update_once] when there is at least one
    iteration and from [update] itself when there is none.  Only [target]
    is written. *)
Theorem multichannel_base_run_never_returns (o : MultichannelISNMF.t)
  (g : RandomState) :
  (forall it,
      MultichannelNMFbase.__call__ None it (o, g)
      = ((MultichannelISNMF.set_target None o, g),
         Raise (AssertionError "Specify data!")))
  /\ (forall tgt,
         MultichannelNMFbase.__call__ (Some tgt) 0 (o, g)
         = ((MultichannelISNMF.set_target (Some tgt) o, g),
            Raise (NotImplementedError "Implement `update` method.")))
  /\ (forall tgt n,
         MultichannelNMFbase.__call__ (Some tgt) (S n) (o, g)
         = ((MultichannelISNMF.set_target (Some tgt) o, g),
            Raise (NotImplementedError "Implement `update_once` method."))).
Proof. repeat split. Qed.

(** X13.  A multichannel target whose two trailing dimensions differ is rejected
    by reset with the assertion error "Invalid input shape": the target is
    stored, and nothing else is written or drawn, whatever the instance
    held. *)
Theorem multichannel_rejects_non_square_channels
  (np_linalg_inv : tensor4 -> result tensor4)
  (solve_Riccati : tensor4 -> tensor4 -> result tensor4)
  (multichannel_is_divergence : tensor4 -> tensor4 -> result matrix)
  (o : MultichannelISNMF.t) (g : RandomState) (tgt : tensor4) (it : nat) :
  square_channels tgt = false ->
  MultichannelISNMF.__call__ np_linalg_inv solve_Riccati
    multichannel_is_divergence tgt it (o, g)
  = ((MultichannelISNMF.set_target (Some tgt) o, g),
     Raise (AssertionError "Invalid input shape")).
Proof.
  intros Hsq. unfold square_channels in Hsq.
  unfold MultichannelISNMF.__call__, MultichannelISNMF._reset. mcsimpl.
  rewrite Hsq. reflexivity.
Qed.

Lemma multichannel_rejects_non_square_channels_example :
  MultichannelISNMF.__call__ (fun X => Ok X) (fun A B => Ok B)
    (fun X Y => Ok []) [[ [[ (Fin 1, Fin 0); (Fin 0, Fin 0) ]] ]] 3
    (MultichannelISNMF.__init__ 1 true 1e-12, constant_half)
  = ((MultichannelISNMF.set_target
        (Some [[ [[ (Fin 1, Fin 0); (Fin 0, Fin 0) ]] ]])
        (MultichannelISNMF.__init__ 1 true 1e-12), constant_half),
     Raise (AssertionError "Invalid input shape")).
Proof.
  apply (multichannel_rejects_non_square_channels (fun X => Ok X)
           (fun A B => Ok B) (fun X Y => Ok [])
           (MultichannelISNMF.__init__ 1 true 1e-12) constant_half
           [[ [[ (Fin 1, Fin 0); (Fin 0, Fin 0) ]] ]] 3).
  reflexivity.
Defined.

Ltac mcsimpl_in H :=
  unfold self, self_attr, update_self, assert, attr, gets, modify, raise, ret,
    lift_result, rand, bind in H;
  cbn [fst snd MultichannelISNMF.hasattr
       MultichannelISNMF.n_basis MultichannelISNMF.normalize
       MultichannelISNMF.loss MultichannelISNMF.eps MultichannelISNMF.target
       MultichannelISNMF.n_bins MultichannelISNMF.n_frames
       MultichannelISNMF.n_channels MultichannelISNMF.spatial
       MultichannelISNMF.basis MultichannelISNMF.activation
       MultichannelISNMF.set_loss MultichannelISNMF.set_target
       MultichannelISNMF.set_shape MultichannelISNMF.set_spatial
       MultichannelISNMF.set_basis MultichannelISNMF.set_activation
       MultichannelISNMF.__init__] in H.

(** Once reset has returned, every attribute that the update methods read
    exists, and the loss trace is the one the instance held. *)
Lemma multichannel_reset_ready (o : MultichannelISNMF.t) (g : RandomState)
  (tgt : tensor4) (w1 : World MultichannelISNMF.t) :
  (update_self (MultichannelISNMF.set_target (Some tgt)) ;;
   MultichannelISNMF._reset) (o, g) = (w1, Ok tt) ->
  MultichannelISNMF.target (fst w1) = Some tgt
  /\ (exists c, MultichannelISNMF.n_channels (fst w1) = Some c)
  /\ (exists H, MultichannelISNMF.spatial (fst w1) = Some H)
  /\ (exists T, MultichannelISNMF.basis (fst w1) = Some T)
  /\ (exists V, MultichannelISNMF.activation (fst w1) = Some V)
  /\ MultichannelISNMF.loss (fst w1) = MultichannelISNMF.loss o.
Proof.
  intros Er. unfold MultichannelISNMF._reset in Er. mcsimpl_in Er.
  destruct (Nat.eqb _ _); mcsimpl_in Er; [|discriminate].
  destruct (MultichannelISNMF.spatial o) eqn:EH; mcsimpl_in Er;
    destruct (MultichannelISNMF.basis o) eqn:ET;
    rewrite ?ET in Er; mcsimpl_in Er;
    destruct (MultichannelISNMF.activation o) eqn:EV;
    rewrite ?EV in Er; mcsimpl_in Er;
    injection Er as <-; mcsimpl; repeat split; eauto.
Qed.

(** X15.  A Student-t engine built with [nu = 0]: the first update step of a run
    returns and replaces the factors, then the criterion divides [2] by
    [nu] and the run ends with [ZeroDivisionError]; no loss is logged. *)
Theorem student_t_zero_nu_raises_in_first_loss (n : nat) (e : R) (o : NMF)
  (g : RandomState) (tgt : matrix) (it : nat) :
  tNMF.__init__ n 0 2 "mm" e = Ok o ->
  exists T' V',
    update_once_of (StudentT 0) (after_reset o tgt g)
    = ((set_activation V' (set_basis T' (fst (after_reset o tgt g))),
        snd (after_reset o tgt g)), Ok tt)
    /\ call_of (StudentT 0) (Some tgt) (S it) (o, g)
       = ((set_activation V' (set_basis T' (fst (after_reset o tgt g))),
           snd (after_reset o tgt g)), Raise ZeroDivisionError)
    /\ loss (set_activation V' (set_basis T' (fst (after_reset o tgt g))))
       = [].
Proof.
  unfold tNMF.__init__.
  rewrite domain_in_range_true by lra. cbn [negb]. intros [= <-].
  set (o := mkNMF n [] e 2 "mm" (Some 0) _ None None None).
  assert (Hsc : step_configured (StudentT 0) (fst (after_reset o tgt g))).
  { split; [reflexivity|]. split; [reflexivity|]. exists 0. reflexivity. }
  pose proof (update_once_alternates (StudentT 0) t_mm
              (fst (after_reset o tgt g)) (snd (after_reset o tgt g)) tgt
              (fst (initial_factors o tgt g)) (snd (initial_factors o tgt g))
              eq_refl Hsc eq_refl eq_refl eq_refl) as E.
  unfold alternate in E.
  set (T' := basis_update _ _ _ _ _ _ _) in E.
  set (V' := activation_update _ _ _ _ _ _ _) in E.
  exists T', V'.
  change (fst (after_reset o tgt g), snd (after_reset o tgt g))
    with (after_reset o tgt g) in E.
  split; [exact E|]. split; [|reflexivity].
  rewrite call_unfold, (bind_raise _ _ (after_reset o tgt g)
             (set_activation V' (set_basis T' (fst (after_reset o tgt g))),
              snd (after_reset o tgt g)) ZeroDivisionError);
    [reflexivity|].
  rewrite update_of_loop. cbn [for_range].
  apply bind_raise.
  unfold loop_body. unfold bind at 1. rewrite E. msimpl.
  unfold after_reset, o. psimpl.
  unfold tNMF.t_divergence. rewrite Reqb_true by reflexivity. reflexivity.
Qed.

Lemma student_t_zero_nu_raises_in_first_loss_example :
  exists T' V',
    update_once_of (StudentT 0)
      (after_reset student_t_zero_nu_example [[Fin 4]] constant_half)
    = ((set_activation V'
          (set_basis T'
             (fst (after_reset student_t_zero_nu_example [[Fin 4]]
                               constant_half))),
        snd (after_reset student_t_zero_nu_example [[Fin 4]] constant_half)),
       Ok tt)
    /\ call_of (StudentT 0) (Some [[Fin 4]]) 3
         (student_t_zero_nu_example, constant_half)
       = ((set_activation V'
             (set_basis T'
                (fst (after_reset student_t_zero_nu_example [[Fin 4]]
                                  constant_half))),
           snd (after_reset student_t_zero_nu_example [[Fin 4]]
                            constant_half)),
          Raise ZeroDivisionError)
    /\ loss (set_activation V'
               (set_basis T'
                  (fst (after_reset student_t_zero_nu_example [[Fin 4]]
                                    constant_half))))
       = [].
Proof.
  apply (student_t_zero_nu_raises_in_first_loss 1 1e-12
           student_t_zero_nu_example constant_half [[Fin 4]] 2).
  unfold tNMF.__init__. rewrite domain_in_range_true by lra. reflexivity.
Defined.

(** ** The half steps of the multichannel engine *)


Ltac read_attributes Hc HX HH HT HV :=
  mcsimpl; rewrite Hc; mcsimpl; rewrite HX; mcsimpl; rewrite HH; mcsimpl;
  rewrite HT; mcsimpl; rewrite HV; mcsimpl;
  rewrite HH; mcsimpl; rewrite HT; mcsimpl; rewrite HV; mcsimpl.

(** [update_basis] passes the regularised reconstruction to
    [np.linalg.inv]: it ends with the exception when that raises, changing
    nothing, and replaces the Basis when that returns. *)
Lemma update_basis_cases (inv : tensor4 -> result tensor4)
  (o : MultichannelISNMF.t) (g : RandomState) (X H : tensor4) (T V : matrix)
  (c : nat) :
  MultichannelISNMF.target o = Some X ->
  MultichannelISNMF.n_channels o = Some c ->
  MultichannelISNMF.spatial o = Some H ->
  MultichannelISNMF.basis o = Some T ->
  MultichannelISNMF.activation o = Some V ->
  match inv (regularised (MultichannelISNMF.eps o) c (reconstruction H T V))
  with
  | Raise e => MultichannelISNMF.update_basis inv (o, g) = ((o, g), Raise e)
  | Ok _ =>
      exists T',
        MultichannelISNMF.update_basis inv (o, g)
        = ((MultichannelISNMF.set_basis T' o, g), Ok tt)
  end.
Proof.
  intros HX Hc HH HT HV.
  unfold MultichannelISNMF.update_basis, MultichannelISNMF.reconstruct,
    MultichannelISNMF.inverse.
  read_attributes Hc HX HH HT HV.
  fold (reconstruction H T V).
  fold (regularised (MultichannelISNMF.eps o) c (reconstruction H T V)).
  destruct (inv _); [eexists|]; reflexivity.
Qed.

Lemma update_activation_cases (inv : tensor4 -> result tensor4)
  (o : MultichannelISNMF.t) (g : RandomState) (X H : tensor4) (T V : matrix)
  (c : nat) :
  MultichannelISNMF.target o = Some X ->
  MultichannelISNMF.n_channels o = Some c ->
  MultichannelISNMF.spatial o = Some H ->
  MultichannelISNMF.basis o = Some T ->
  MultichannelISNMF.activation o = Some V ->
  match inv (regularised (MultichannelISNMF.eps o) c (reconstruction H T V))
  with
  | Raise e =>
      MultichannelISNMF.update_activation inv (o, g) = ((o, g), Raise e)
  | Ok _ =>
      exists V',
        MultichannelISNMF.update_activation inv (o, g)
        = ((MultichannelISNMF.set_activation V' o, g), Ok tt)
  end.
Proof.
  intros HX Hc HH HT HV.
  unfold MultichannelISNMF.update_activation, MultichannelISNMF.reconstruct,
    MultichannelISNMF.inverse.
  read_attributes Hc HX HH HT HV.
  fold (reconstruction H T V).
  fold (regularised (MultichannelISNMF.eps o) c (reconstruction H T V)).
  destruct (inv _); [eexists|]; reflexivity.
Qed.

(** [update_spatial] writes the instance only when both imported functions
    have returned; when either raises it ends with that exception and has
    changed nothing. *)
Lemma update_spatial_cases (inv : tensor4 -> result tensor4)
  (solve : tensor4 -> tensor4 -> result tensor4)
  (o : MultichannelISNMF.t) (g : RandomState) (X H : tensor4) (T V : matrix)
  (c : nat) :
  MultichannelISNMF.target o = Some X ->
  MultichannelISNMF.n_channels o = Some c ->
  MultichannelISNMF.spatial o = Some H ->
  MultichannelISNMF.basis o = Some T ->
  MultichannelISNMF.activation o = Some V ->
  match inv (regularised (MultichannelISNMF.eps o) c (reconstruction H T V))
  with
  | Raise e =>
      MultichannelISNMF.update_spatial inv solve (o, g) = ((o, g), Raise e)
  | Ok _ =>
      exists A B,
        match solve A B with
        | Raise e =>
            MultichannelISNMF.update_spatial inv solve (o, g)
            = ((o, g), Raise e)
        | Ok _ =>
            exists H',
              MultichannelISNMF.update_spatial inv solve (o, g)
              = ((MultichannelISNMF.set_spatial H' o, g), Ok tt)
        end
  end.
Proof.
  intros HX Hc HH HT HV.
  unfold MultichannelISNMF.update_spatial, MultichannelISNMF.reconstruct,
    MultichannelISNMF.inverse.
  read_attributes Hc HX HH HT HV.
  fold (reconstruction H T V).
  fold (regularised (MultichannelISNMF.eps o) c (reconstruction H T V)).
  destruct (inv _); [|reflexivity].
  mcsimpl.
  match goal with
  | |- context [solve ?A ?B] => exists A, B; destruct (solve A B)
  end; [eexists|]; reflexivity.
Qed.

Lemma multichannel_ready_set_basis (o : MultichannelISNMF.t) (T : matrix) :
  multichannel_ready o ->
  multichannel_ready (MultichannelISNMF.set_basis T o).
Proof.
  intros (HX & Hc & HH & _ & HV). unfold multichannel_ready. mcsimpl.
  repeat split; eauto.
Qed.

Lemma multichannel_ready_set_activation (o : MultichannelISNMF.t)
  (V : matrix) :
  multichannel_ready o ->
  multichannel_ready (MultichannelISNMF.set_activation V o).
Proof.
  intros (HX & Hc & HH & HT & _). unfold multichannel_ready. mcsimpl.
  repeat split; eauto.
Qed.




(** What an update step can leave when it raises: the instance as it was,
    or with the Basis replaced, or with the Basis and the Activation
    replaced. *)
Lemma update_once_raise_cases (inv : tensor4 -> result tensor4)
  (solve : tensor4 -> tensor4 -> result tensor4)
  (o : MultichannelISNMF.t) (g : RandomState)
  (w' : World MultichannelISNMF.t) (e : exn) :
  multichannel_ready o ->
  MultichannelISNMF.update_once inv solve (o, g) = (w', Raise e) ->
  w' = (o, g)
  \/ (exists T', w' = (MultichannelISNMF.set_basis T' o, g))
  \/ (exists T' V',
         w' = (MultichannelISNMF.set_activation V'
                 (MultichannelISNMF.set_basis T' o), g)).
Proof.
  intros Hr E. unfold MultichannelISNMF.update_once in E.
  pose proof Hr as ((X & HX) & (c & Hc) & (H & HH) & (T & HT) & (V & HV)).
  pose proof (update_basis_cases inv o g X H T V c HX Hc HH HT HV) as B.
  destruct (inv _); [|rewrite (bind_raise _ _ _ _ _ B) in E; left; congruence].
  destruct B as (T' & B). rewrite (bind_ok _ _ _ _ _ B) in E.
  pose proof (multichannel_ready_set_basis o T' Hr) as Hr2.
  pose proof Hr2 as ((X2 & HX2) & (c2 & Hc2) & (H2 & HH2) & (T2 & HT2)
                     & (V2 & HV2)).
  pose proof (update_activation_cases inv _ g X2 H2 T2 V2 c2
                HX2 Hc2 HH2 HT2 HV2) as A.
  destruct (inv _);
    [|rewrite (bind_raise _ _ _ _ _ A) in E; right; left; exists T';
      congruence].
  destruct A as (V' & A). rewrite (bind_ok _ _ _ _ _ A) in E.
  pose proof (multichannel_ready_set_activation _ V' Hr2) as Hr3.
  pose proof Hr3 as ((X3 & HX3) & (c3 & Hc3) & (H3 & HH3) & (T3 & HT3)
                     & (V3 & HV3)).
  pose proof (update_spatial_cases inv solve _ g X3 H3 T3 V3 c3
                HX3 Hc3 HH3 HT3 HV3) as S.
  right; right. exists T', V'.
  destruct (inv _); [|congruence].
  destruct S as (A0 & B0 & S). destruct (solve A0 B0); [|congruence].
  destruct S as (H' & S). rewrite S in E. discriminate.
Qed.



(** X14.  When [np.linalg.inv] raises on the first array a run passes it,
    the regularised reconstruction [X_hat + eps * np.eye(n_channels)] of the
    tensors that reset left (it raises [LinAlgError] when one of these
    matrices is singular), a multichannel run of at least one iteration
    ends with that exception in the state reset left: the Spatial, Basis and
    Activation tensors and the loss trace are those of the start of the
    run. *)
Theorem multichannel_inverse_error_ends_run
  (np_linalg_inv : tensor4 -> result tensor4)
  (solve_Riccati : tensor4 -> tensor4 -> result tensor4)
  (multichannel_is_divergence : tensor4 -> tensor4 -> result matrix)
  (o : MultichannelISNMF.t) (g : RandomState) (tgt : tensor4) (n : nat)
  (w1 : World MultichannelISNMF.t) (H : tensor4) (T V : matrix) (c : nat)
  (e : exn) :
  (update_self (MultichannelISNMF.set_target (Some tgt)) ;;
   MultichannelISNMF._reset) (o, g) = (w1, Ok tt) ->
  MultichannelISNMF.spatial (fst w1) = Some H ->
  MultichannelISNMF.basis (fst w1) = Some T ->
  MultichannelISNMF.activation (fst w1) = Some V ->
  MultichannelISNMF.n_channels (fst w1) = Some c ->
  np_linalg_inv (regularised (MultichannelISNMF.eps (fst w1)) c
                             (reconstruction H T V)) = Raise e ->
  MultichannelISNMF.__call__ np_linalg_inv solve_Riccati
    multichannel_is_divergence tgt (S n) (o, g)
  = (w1, Raise e)
  /\ MultichannelISNMF.loss (fst w1) = MultichannelISNMF.loss o.
Proof.
  intros Er HH HT HV Hc Hinv.
  destruct (multichannel_reset_ready o g tgt w1 Er)
    as (Ht & _ & _ & _ & _ & Hl).
  split; [|exact Hl].
  rewrite (multichannel_call_after_reset _ _ _ tgt (S n) (o, g) w1 Er).
  destruct w1 as [o1 g1]. cbn [fst] in *.
  pose proof (update_basis_cases np_linalg_inv o1 g1 tgt H T V c
                Ht Hc HH HT HV) as E.
  rewrite Hinv in E.
  unfold MultichannelISNMF.update, MultichannelISNMF.update_once.
  cbn [for_range].
  rewrite (bind_raise _ _ _ _ _ (bind_raise _ _ _ _ _
            (bind_raise _ _ _ _ _ (bind_raise _ _ _ _ _ E)))).
  reflexivity.
Qed.

Lemma multichannel_inverse_error_ends_run_example :
  exists w1,
    (update_self (MultichannelISNMF.set_target (Some single_cell_target)) ;;
     MultichannelISNMF._reset)
      (MultichannelISNMF.__init__ 1 true 0, constant_zero)
    = (w1, Ok tt)
    /\ inv_1x1 (regularised 0 1
                  (reconstruction (MultichannelISNMF.tile_eye 1 1 1)
                                  [[Fin 0]] [[Fin 0]]))
       = Raise LinAlgError
    /\ MultichannelISNMF.__call__ inv_1x1
         (fun A B => Ok B) (fun X Y => Ok []) single_cell_target 2
         (MultichannelISNMF.__init__ 1 true 0, constant_zero)
       = (w1, Raise LinAlgError)
    /\ MultichannelISNMF.loss (fst w1) = [].
Proof.
  assert (Hinv : inv_1x1 (regularised 0 1
                            (reconstruction (MultichannelISNMF.tile_eye 1 1 1)
                                            [[Fin 0]] [[Fin 0]]))
                 = Raise LinAlgError).
  { unfold inv_1x1, regularised, reconstruction, MultichannelISNMF.tile_eye.
    cbn. rewrite !Reqb_true by lra. reflexivity. }
  eexists. split; [apply multichannel_cold_reset; reflexivity|].
  split; [exact Hinv|].
  apply (multichannel_inverse_error_ends_run inv_1x1
           (fun A B => Ok B) (fun X Y => Ok [])
           (MultichannelISNMF.__init__ 1 true 0) constant_zero
           single_cell_target 1 _
           (MultichannelISNMF.tile_eye 1 1 1) [[Fin 0]] [[Fin 0]] 1%nat
           LinAlgError).
  - apply multichannel_cold_reset. reflexivity.
  - reflexivity.
  - reflexivity.
  - reflexivity.
  - reflexivity.
  - exact Hinv.
Defined.

(** X27.  An update step of the multichannel engine that raises, whichever
    of [np.linalg.inv] and [solve_Riccati] raised and in whichever of the
    three half steps, has not touched the Spatial tensor, the target, the
    loss trace or the random generator: it leaves the instance as it was,
    or with the Basis replaced, or with the Basis and the Activation
    replaced. *)
Theorem multichannel_failed_step_keeps_spatial
  (np_linalg_inv : tensor4 -> result tensor4)
  (solve_Riccati : tensor4 -> tensor4 -> result tensor4)
  (o : MultichannelISNMF.t) (g : RandomState)
  (w' : World MultichannelISNMF.t) (e : exn) :
  multichannel_ready o ->
  MultichannelISNMF.update_once np_linalg_inv solve_Riccati (o, g)
  = (w', Raise e) ->
  snd w' = g
  /\ MultichannelISNMF.spatial (fst w') = MultichannelISNMF.spatial o
  /\ MultichannelISNMF.target (fst w') = MultichannelISNMF.target o
  /\ MultichannelISNMF.loss (fst w') = MultichannelISNMF.loss o
  /\ (fst w' = o
      \/ (exists T', fst w' = MultichannelISNMF.set_basis T' o)
      \/ (exists T' V',
             fst w' = MultichannelISNMF.set_activation V'
                        (MultichannelISNMF.set_basis T' o))).
Proof.
  intros Hr E.
  destruct (update_once_raise_cases _ _ o g w' e Hr E)
    as [->|[(T' & ->)|(T' & V' & ->)]]; cbn [fst snd];
    repeat (split; [reflexivity|]).
  - left. reflexivity.
  - right. left. exists T'. reflexivity.
  - right. right. exists T', V'. reflexivity.
Qed.

Lemma multichannel_cold_example_ready :
  multichannel_ready multichannel_cold_example.
Proof.
  unfold multichannel_ready, multichannel_cold_example, warm. mcsimpl.
  repeat split; eexists; reflexivity.
Qed.

Lemma multichannel_failed_step_keeps_spatial_example :
  exists w',
    MultichannelISNMF.update_once (fun X => Ok X)
      (fun _ _ => Raise LinAlgError) (multichannel_cold_example, constant_half)
    = (w', Raise LinAlgError)
    /\ snd w' = constant_half
    /\ MultichannelISNMF.spatial (fst w')
       = MultichannelISNMF.spatial multichannel_cold_example
    /\ MultichannelISNMF.target (fst w')
       = MultichannelISNMF.target multichannel_cold_example
    /\ MultichannelISNMF.loss (fst w')
       = MultichannelISNMF.loss multichannel_cold_example
    /\ (fst w' = multichannel_cold_example
        \/ (exists T',
               fst w' = MultichannelISNMF.set_basis T'
                          multichannel_cold_example)
        \/ (exists T' V',
               fst w' = MultichannelISNMF.set_activation V'
                          (MultichannelISNMF.set_basis T'
                             multichannel_cold_example))).
Proof.
  assert (E : exists w',
             MultichannelISNMF.update_once (fun X => Ok X)
               (fun _ _ => Raise LinAlgError)
               (multichannel_cold_example, constant_half)
             = (w', Raise LinAlgError)).
  { unfold MultichannelISNMF.update_once.
    pose proof multichannel_cold_example_ready as Hr.
    pose proof Hr as ((X & HX) & (c & Hc) & (H & HH) & (T & HT) & (V & HV)).
    destruct (update_basis_cases (fun X => Ok X) _ constant_half
                X H T V c HX Hc HH HT HV) as (T' & B).
    rewrite (bind_ok _ _ _ _ _ B).
    pose proof (multichannel_ready_set_basis _ T' Hr) as Hr2.
    pose proof Hr2 as ((X2 & HX2) & (c2 & Hc2) & (H2 & HH2) & (T2 & HT2)
                       & (V2 & HV2)).
    destruct (update_activation_cases (fun X => Ok X) _ constant_half
                X2 H2 T2 V2 c2 HX2 Hc2 HH2 HT2 HV2) as (V' & A).
    rewrite (bind_ok _ _ _ _ _ A).
    pose proof (multichannel_ready_set_activation _ V' Hr2) as Hr3.
    pose proof Hr3 as ((X3 & HX3) & (c3 & Hc3) & (H3 & HH3) & (T3 & HT3)
                       & (V3 & HV3)).
    destruct (update_spatial_cases (fun X => Ok X)
                (fun _ _ => Raise LinAlgError) _ constant_half
                X3 H3 T3 V3 c3 HX3 Hc3 HH3 HT3 HV3) as (A0 & B0 & S).
    eexists. exact S. }
  destruct E as (w' & E). exists w'. split; [exact E|].
  exact (multichannel_failed_step_keeps_spatial (fun X => Ok X)
           (fun _ _ => Raise LinAlgError) multichannel_cold_example
           constant_half w' LinAlgError multichannel_cold_example_ready E).
Defined.

(** ** The last loss entry *)

(** The loop on a configured, reset instance, for an invariant [I] of the
    whole instance that one iteration re-establishes. *)
Lemma loop_state_inv (c : engine) (f : matrix -> matrix) (o : NMF)
  (g : RandomState) (t : matrix) (I : nat -> NMF -> Prop) :
  configured c o -> target o = Some t -> ready (o, g) ->
  (forall k o1 T' V' m,
      I k o1 -> same_config o o1 ->
      update_once_of c (o1, g)
      = ((set_activation V' (set_basis T' o1), g), Ok tt) ->
      criterion o1 (f (matmul T' V')) t = Ok m ->
      I (S k) (set_loss (loss o1 ++ [msum m])
                        (set_activation V' (set_basis T' o1)))) ->
  I 0%nat o ->
  forall it,
    exists o',
      for_range it (loop_body f (update_once_of c) (Some t)) (o, g)
      = ((o', g), Ok tt)
      /\ same_config o o' /\ ready (o', g) /\ I it o'.
Proof.
  intros Hc Ht Hr Hstep HI0 it.
  pose (P := fun (k : nat) (w : World NMF) =>
               snd w = g /\ same_config o (fst w) /\ ready w /\ I k (fst w)).
  assert (Hbody : forall k s, P k s ->
             exists s', loop_body f (update_once_of c) (Some t) s
                        = (s', Ok tt) /\ P (S k) s').
  { intros k [o1 g1] (Hg & Hs & Hr1 & HI). cbn [fst snd] in *. subst g1.
    assert (Hc1 : configured c o1) by (eapply configured_same; eauto).
    assert (Ht1 : target o1 = Some t)
      by (destruct Hs as (_&_&_&_&_&_&Hs); congruence).
    destruct (loop_body_ok c f o1 g t Hc1 Hr1 Ht1) as (T' & V' & m & E & Em & Eb).
    eexists. split; [exact Eb|].
    unfold P. cbn [fst snd]. split; [reflexivity|]. split.
    { destruct Hs as (?&?&?&?&?&?&?). unfold same_config. psimpl.
      repeat split; assumption. }
    split.
    { unfold ready. psimpl. repeat split; eauto. }
    now apply Hstep. }
  destruct (for_range_total P _ Hbody it 0%nat (o, g)) as ([o' g'] & E & HP).
  { unfold P. cbn [fst snd]. split; [reflexivity|].
    split; [apply same_config_refl|]. split; assumption. }
  destruct HP as (Hg & Hs & Hr' & HI). cbn [fst snd] in *. subst g'.
  exists o'. auto.
Qed.

(** X16.  After a run of at least one iteration, the last entry of the loss
    trace is the loss of the factors the run returns: the criterion of the
    instance applied to their reconstruction and the target, summed. *)
Theorem last_loss_is_loss_of_returned_factors (c : engine) (o : NMF)
  (g : RandomState) (tgt : matrix) (it : nat) :
  configured c o ->
  exists o' g' T V m old,
    call_of c (Some tgt) (S it) (o, g) = ((o', g'), Ok (T, V))
    /\ criterion o (reconstruction_of c (domain o) (matmul T V)) tgt = Ok m
    /\ loss o' = old ++ [msum m].
Proof.
  intros Hc. rewrite call_unfold.
  destruct (after_reset o tgt g) as [o1 g1] eqn:Er.
  assert (Eo1 : o1 = fst (after_reset o tgt g)) by now rewrite Er.
  assert (Hc1 : configured c o1)
    by (rewrite Eo1; now apply configured_after_reset).
  assert (Ht1 : target o1 = Some tgt) by (rewrite Eo1; reflexivity).
  assert (Hr1 : ready (o1, g1))
    by (rewrite Eo1; unfold ready; cbn; repeat split; eauto).
  assert (Hd1 : domain o1 = domain o) by (rewrite Eo1; reflexivity).
  assert (Hcr1 : criterion o1 = criterion o) by (rewrite Eo1; reflexivity).
  set (f := reconstruction_of c (domain o1)).
  destruct (loop_state_inv c f o1 g1 tgt
              (fun k o2 =>
                 k = 0%nat
                 \/ exists T V m old,
                      basis o2 = Some T /\ activation o2 = Some V
                      /\ criterion o1 (f (matmul T V)) tgt = Ok m
                      /\ loss o2 = old ++ [msum m])
              Hc1 Ht1 Hr1) with (it := S it)
    as (o' & E & Hs & Hr' & [HI | (T & V & m & old & HT & HV & Hm & Hl)]).
  - intros k o2 T' V' m _ Hs _ Em. right.
    exists T', V', m, (loss o2). psimpl.
    destruct Hs as (_ & _ & _ & _ & _ & Hcr & _).
    rewrite <- Hcr. auto.
  - now left.
  - discriminate.
  - exists o', g1, T, V, m, old.
    assert (E' : update_of c (S it) (o1, g1) = ((o', g1), Ok tt))
      by (rewrite update_of_loop; cbn [fst]; rewrite Ht1; exact E).
    rewrite (bind_ok _ _ _ _ _ E'). msimpl. rewrite HT. msimpl.
    rewrite HV. split; [reflexivity|]. split; [|exact Hl].
    rewrite <- Hcr1, <- Hd1. exact Hm.
Qed.

Lemma last_loss_is_loss_of_returned_factors_example :
  exists o' g' T V m old,
    call_of Euclidean (Some [[Fin 4]]) 3 (euclidean_example, constant_half)
    = ((o', g'), Ok (T, V))
    /\ criterion euclidean_example
         (reconstruction_of Euclidean (domain euclidean_example) (matmul T V))
         [[Fin 4]] = Ok m
    /\ loss o' = old ++ [msum m].
Proof.
  apply (last_loss_is_loss_of_returned_factors Euclidean euclidean_example
           constant_half [[Fin 4]] 2).
  split.
  - intros a b. eexists. reflexivity.
  - split; [reflexivity|exact I].
Defined.

(** ** The complex engine: what a run leaves *)

(** A run of the complex engine returns; a property [Q] of the instance
    that every update step establishes and that the loss trace does not
    affect holds at the end of a run of at least one iteration, and a run
    of no iteration ends in the state reset left. *)
Lemma complex_call_inv (Q : ComplexEUCNMF.t -> Prop) (o : ComplexEUCNMF.t)
  (g : RandomState) (tgt : cmatrix) (it : nat) :
  (forall w w', complex_ready w ->
                ComplexEUCNMF.update_once w = (w', Ok tt) -> Q (fst w')) ->
  (forall o1 l, Q o1 -> Q (ComplexEUCNMF.set_loss l o1)) ->
  exists w1 o' g' T V Phi,
    (update_self (ComplexEUCNMF.set_target (Some tgt)) ;;
     ComplexEUCNMF._reset) (o, g) = (w1, Ok tt)
    /\ ComplexEUCNMF.__call__ (Some tgt) it (o, g)
       = ((o', g'), Ok (T, V, Phi))
    /\ ComplexEUCNMF.basis o' = Some T
    /\ ComplexEUCNMF.activation o' = Some V
    /\ ComplexEUCNMF.phase o' = Some Phi
    /\ (it = 0%nat -> (o', g') = w1)
    /\ ((0 < it)%nat -> Q o').
Proof.
  intros HQ Hloss.
  destruct (complex_reset_ok o g tgt) as (w1 & Er & Hr1 & Ht1 & Hl1).
  pose (P := fun (k : nat) (w : World ComplexEUCNMF.t) =>
               complex_ready w
               /\ (k = 0%nat -> w = w1) /\ ((0 < k)%nat -> Q (fst w))).
  set (body :=
         (ComplexEUCNMF.update_once ;;
          T <- self_attr "basis" ComplexEUCNMF.basis ;;
          V <- self_attr "activation" ComplexEUCNMF.activation ;;
          Phi <- self_attr "phase" ComplexEUCNMF.phase ;;
          let TVPhi := sum_axis1 fadd (t3map2 fmul (outer T V) Phi) in
          let l := ComplexEUCNMF.criterion TVPhi tgt in
          update_self (fun o => ComplexEUCNMF.set_loss
                                  (ComplexEUCNMF.loss o ++ [msum l]) o))).
  assert (Hbody : forall k s, P k s ->
             exists s', body s = (s', Ok tt) /\ P (S k) s').
  { intros k s (Hs & _ & _).
    destruct (complex_step_ok s Hs)
      as ([o2 g2] & E & ((t & Ht) & (T & HT) & (V & HV) & (Ph & HP) & (B & HB))
          & _ & Hl2).
    pose proof (HQ s (o2, g2) Hs E) as HQ2.
    cbn [fst] in *. unfold body. rewrite (bind_ok _ _ _ _ _ E).
    cxsimpl. rewrite HT. cxsimpl. rewrite HV. cxsimpl. rewrite HP. cxsimpl.
    eexists. split; [reflexivity|].
    unfold P, complex_ready. cxsimpl. split; [repeat split; eauto|].
    split; [discriminate|]. intros _. now apply Hloss. }
  destruct (for_range_total P body Hbody it 0%nat w1)
    as ([o' g'] & E & (Hr' & H0 & Hpos)).
  { split; [exact Hr1|]. split; [reflexivity|lia]. }
  destruct Hr' as (_ & (T & HT) & (V & HV) & (Ph & HP) & _).
  cbn [fst Nat.add] in *.
  exists w1, o', g', T, V, Ph. split; [exact Er|].
  split; [|auto].
  unfold ComplexEUCNMF.__call__.
  rewrite <- (bind_assoc (update_self (ComplexEUCNMF.set_target (Some tgt)))
                         (fun _ => ComplexEUCNMF._reset)).
  rewrite (bind_ok _ _ _ _ _ Er).
  unfold ComplexEUCNMF.update. rewrite bind_assoc.
  unfold bind at 1. unfold self_attr at 1, attr at 1. rewrite Ht1.
  fold body. rewrite (bind_ok _ _ _ _ _ E).
  cxsimpl. rewrite HT. cxsimpl. rewrite HV. cxsimpl. rewrite HP. reflexivity.
Qed.

(** The state reset leaves has the auxiliary ratio of its factors. *)
Lemma complex_reset_beta (o : ComplexEUCNMF.t) (g : RandomState)
  (tgt : cmatrix) (w1 : World ComplexEUCNMF.t) :
  (update_self (ComplexEUCNMF.set_target (Some tgt)) ;;
   ComplexEUCNMF._reset) (o, g) = (w1, Ok tt) ->
  exists T V,
    ComplexEUCNMF.basis (fst w1) = Some T
    /\ ComplexEUCNMF.activation (fst w1) = Some V
    /\ ComplexEUCNMF.Beta (fst w1)
       = Some (beta_of (ComplexEUCNMF.eps (fst w1)) T V).
Proof.
  unfold ComplexEUCNMF._reset, ComplexEUCNMF.init_phase,
    ComplexEUCNMF.update_beta.
  cxsimpl. intros [= <-]. cxsimpl. eexists _, _. repeat split.
Qed.

Lemma complex_step_result (w w' : World ComplexEUCNMF.t) :
  complex_ready w -> ComplexEUCNMF.update_once w = (w', Ok tt) ->
  (exists T V,
      ComplexEUCNMF.basis (fst w') = Some T
      /\ ComplexEUCNMF.activation (fst w') = Some V
      /\ ComplexEUCNMF.Beta (fst w')
         = Some (beta_of (ComplexEUCNMF.eps (fst w')) T V))
  /\ (exists Tn,
         ComplexEUCNMF.basis (fst w')
         = Some (map (fun Ti => map2 fdiv Ti (sum_rows fadd Tn)) Tn)).
Proof.
  destruct w as [o g].
  intros ((t & Ht) & (T & HT) & (V & HV) & (P & HP) & (B & HB)).
  cbn [fst] in *.
  unfold ComplexEUCNMF.update_once, ComplexEUCNMF.update_beta.
  cxsimpl. rewrite Ht. cxsimpl. rewrite HT. cxsimpl. rewrite HV. cxsimpl.
  rewrite HP. cxsimpl. rewrite HB. cxsimpl.
  intros [= <-]. cxsimpl. split.
  - eexists _, _. repeat split.
  - eexists. reflexivity.
Qed.

(** X17.  At the end of every run of the complex engine the auxiliary ratio
    [Beta] is the one of the factors the run returns:
    [T[i,k] V[k,j] / floor (sum_k T[i,k] V[k,j])]. *)
Theorem complex_run_leaves_beta_of_returned_factors (o : ComplexEUCNMF.t)
  (g : RandomState) (tgt : cmatrix) (it : nat) :
  exists o' g' T V Phi,
    ComplexEUCNMF.__call__ (Some tgt) it (o, g) = ((o', g'), Ok (T, V, Phi))
    /\ ComplexEUCNMF.Beta o' = Some (beta_of (ComplexEUCNMF.eps o') T V).
Proof.
  destruct (complex_call_inv
              (fun o1 => exists T V,
                   ComplexEUCNMF.basis o1 = Some T
                   /\ ComplexEUCNMF.activation o1 = Some V
                   /\ ComplexEUCNMF.Beta o1
                      = Some (beta_of (ComplexEUCNMF.eps o1) T V))
              o g tgt it)
    as (w1 & o' & g' & T & V & Phi & Er & E & HT & HV & _ & H0 & Hpos).
  - intros w w' Hw Ew. exact (proj1 (complex_step_result w w' Hw Ew)).
  - intros o1 l H. exact H.
  - exists o', g', T, V, Phi. split; [exact E|].
    assert (HQ : exists T V,
               ComplexEUCNMF.basis o' = Some T
               /\ ComplexEUCNMF.activation o' = Some V
               /\ ComplexEUCNMF.Beta o'
                  = Some (beta_of (ComplexEUCNMF.eps o') T V)).
    { destruct it as [|n].
      - specialize (H0 eq_refl). subst w1.
        exact (complex_reset_beta o g tgt (o', g') Er).
      - apply Hpos. lia. }
    destruct HQ as (T1 & V1 & HT1 & HV1 & HB). congruence.
Qed.

(** X19.  Reset of the complex engine draws the Basis, the Activation and a
    uniform phase, in this order, and then discards the phase drawn: the
    phase it leaves is the angle of the target, the same for every
    component, and [Beta] is the ratio of the two factors drawn. *)
Theorem complex_reset_takes_phase_from_target (o : ComplexEUCNMF.t)
  (g : RandomState) (tgt : cmatrix) :
  let n_bins := List.length tgt in
  let n_frames := ncols tgt in
  let k := ComplexEUCNMF.n_basis o in
  let T := rand_matrix g n_bins k in
  let V := rand_matrix (advance g (n_bins * k)) k n_frames in
  (update_self (ComplexEUCNMF.set_target (Some tgt)) ;;
   ComplexEUCNMF._reset) (o, g)
  = ((ComplexEUCNMF.set_Beta (beta_of (ComplexEUCNMF.eps o) T V)
        (ComplexEUCNMF.set_phase
           (map (fun row => repeat row k) (mmap cangle tgt))
           (ComplexEUCNMF.set_activation V
              (ComplexEUCNMF.set_basis T
                 (ComplexEUCNMF.set_target (Some tgt) o)))),
      advance (advance (advance g (n_bins * k)) (k * n_frames))
              (n_bins * k * n_frames)),
     Ok tt).
Proof. reflexivity. Qed.

(** ** The default domain *)

Lemma mat_ones (M : matrix) :
  mat (fun x => x = Fin 1) (mmap (fun _ : num => Fin 1) M).
Proof.
  unfold mat, mmap. apply Forall_map, Forall_forall. intros row _.
  apply Forall_map, Forall_forall. intros x _. reflexivity.
Qed.

Lemma mmul_mpow_zero (b f : nat) (t M : matrix) (y : R) :
  y = 0 -> shape b f t -> shape b f M -> mmul t (mpow M y) = t.
Proof.
  intros Hy Ht HM. rewrite mpow_zero by assumption.
  apply (mmul_ones b f); [assumption|now apply shape_mmap|apply mat_ones].
Qed.

(** X21.  With the default [domain = 2] the step of the Euclidean engine is the
    multiplicative update of Lee and Seung, with the floors of the code:
    the Basis is multiplied by [target @ V.T / (T @ V @ V.T)], then the
    Activation by [T.T @ target / (T.T @ T @ V)] for the updated Basis. *)
Theorem euclidean_step_at_domain_2 (o : NMF) (g : RandomState)
  (t T V : matrix) (n_bins n_basis n_frames : nat) :
  algorithm o = "mm"%string -> domain o = 2 ->
  target o = Some t -> basis o = Some T -> activation o = Some V ->
  (0 < n_bins)%nat -> (0 < n_basis)%nat -> (0 < n_frames)%nat ->
  shape n_bins n_frames t -> shape n_bins n_basis T ->
  shape n_basis n_frames V ->
  let T' :=
    mmul T (mdiv (matmul t (transpose V))
                 (mfloor (eps o)
                    (matmul (mfloor (eps o) (matmul T V)) (transpose V)))) in
  let V' :=
    mmul V (mdiv (matmul (transpose T') t)
                 (mfloor (eps o)
                    (matmul (transpose T')
                            (mfloor (eps o) (matmul T' V))))) in
  update_once_of Euclidean (o, g)
  = ((set_activation V' (set_basis T' o), g), Ok tt).
Proof.
  intros Ha Hd Ht HT HV Hb Hk Hf Hst HsT HsV T' V'.
  rewrite (update_once_alternates Euclidean EUC_mm o g t T V);
    [|cbn; now rewrite Ha|now apply euclidean_configured|assumption..].
  unfold alternate. cbv beta iota zeta delta [basis_update activation_update].
  rewrite Hd.
  assert (E1 : (4 - 2) / 2 = 1) by lra.
  assert (E0 : (2 - 2) / 2 = 0) by lra.
  assert (E2 : 2 / (4 - 2) = 1) by lra.
  rewrite !(mpow_one _ _ E1), !(mpow_one _ _ E2).
  rewrite (mmul_mpow_zero n_bins n_frames t _ _ E0 Hst) by shapes.
  fold T'.
  assert (HsT' : shape n_bins n_basis T') by (unfold T'; shapes).
  rewrite (mmul_mpow_zero n_bins n_frames t _ _ E0 Hst) by shapes.
  reflexivity.
Qed.

Lemma euclidean_step_at_domain_2_example :
  let T' :=
    mmul [[Fin 1]]
         (mdiv (matmul [[Fin 4]] (transpose [[Fin 1]]))
               (mfloor (eps euclidean_example)
                  (matmul (mfloor (eps euclidean_example)
                                  (matmul [[Fin 1]] [[Fin 1]]))
                          (transpose [[Fin 1]])))) in
  let V' :=
    mmul [[Fin 1]]
         (mdiv (matmul (transpose T') [[Fin 4]])
               (mfloor (eps euclidean_example)
                  (matmul (transpose T')
                          (mfloor (eps euclidean_example)
                                  (matmul T' [[Fin 1]]))))) in
  update_once_of Euclidean (euclidean_example, constant_half)
  = ((set_activation V' (set_basis T' euclidean_example), constant_half),
     Ok tt).
Proof.
  apply (euclidean_step_at_domain_2 euclidean_example constant_half
           [[Fin 4]] [[Fin 1]] [[Fin 1]] 1 1 1).
  - reflexivity.
  - reflexivity.
  - reflexivity.
  - reflexivity.
  - reflexivity.
  - lia.
  - lia.
  - lia.
  - split; [reflexivity|]. repeat constructor.
  - split; [reflexivity|]. repeat constructor.
  - split; [reflexivity|]. repeat constructor.
Defined.

(** X22.  With the default [domain = 2] the step of the Kullback-Leibler engine
    is the multiplicative update of Lee and Seung for the generalised KL
    divergence, with the floors of the code: the Basis is multiplied by
    [(target / (T @ V)) @ V.T / (1 @ V.T)], then the Activation by
    [T.T @ (target / (T @ V)) / (T.T @ 1)] for the updated Basis, where [1]
    is the array of ones. *)
Theorem kl_step_at_domain_2
  (generalized_kl_divergence : matrix -> matrix -> matrix) (o : NMF)
  (g : RandomState) (t T V : matrix) (n_bins n_basis n_frames : nat) :
  algorithm o = "mm"%string -> domain o = 2 ->
  target o = Some t -> basis o = Some T -> activation o = Some V ->
  (0 < n_bins)%nat -> (0 < n_basis)%nat -> (0 < n_frames)%nat ->
  shape n_bins n_frames t -> shape n_bins n_basis T ->
  shape n_basis n_frames V ->
  let ones := mmap (fun _ : num => Fin 1) in
  let T' :=
    let TV := mfloor (eps o) (matmul T V) in
    mmul T (mdiv (matmul (mdiv t TV) (transpose V))
                 (mfloor (eps o) (matmul (ones TV) (transpose V)))) in
  let V' :=
    let TV := mfloor (eps o) (matmul T' V) in
    mmul V (mdiv (matmul (transpose T') (mdiv t TV))
                 (mfloor (eps o) (matmul (transpose T') (ones TV)))) in
  update_once_of (KullbackLeibler generalized_kl_divergence) (o, g)
  = ((set_activation V' (set_basis T' o), g), Ok tt).
Proof.
  intros Ha Hd Ht HT HV _ _ _ _ _ _ ones T' V'.
  rewrite (update_once_alternates _ KL_mm o g t T V);
    [|cbn; now rewrite Ha|split; [cbn; now rewrite Ha|exact I]
     |assumption..].
  unfold alternate. cbv beta iota zeta delta [basis_update activation_update].
  rewrite Hd.
  assert (E0 : (2 - 2) / 2 = 0) by lra.
  assert (E1 : 2 / 2 = 1) by lra.
  rewrite !(mpow_one _ _ E1), !(mpow_zero _ _ E0).
  reflexivity.
Qed.

Lemma kl_step_at_domain_2_example :
  let ones := mmap (fun _ : num => Fin 1) in
  let o := factorised_example "mm" (fun input target => Ok input) in
  let T' :=
    let TV := mfloor (eps o) (matmul [[Fin 1]] [[Fin 2]]) in
    mmul [[Fin 1]]
         (mdiv (matmul (mdiv [[Fin 2]] TV) (transpose [[Fin 2]]))
               (mfloor (eps o) (matmul (ones TV) (transpose [[Fin 2]])))) in
  let V' :=
    let TV := mfloor (eps o) (matmul T' [[Fin 2]]) in
    mmul [[Fin 2]]
         (mdiv (matmul (transpose T') (mdiv [[Fin 2]] TV))
               (mfloor (eps o) (matmul (transpose T') (ones TV)))) in
  update_once_of (KullbackLeibler (fun input target => input))
                 (o, constant_half)
  = ((set_activation V' (set_basis T' o), constant_half), Ok tt).
Proof.
  apply (kl_step_at_domain_2 (fun input target => input)
           (factorised_example "mm" (fun input target => Ok input))
           constant_half [[Fin 2]] [[Fin 1]] [[Fin 2]] 1%nat 1%nat 1%nat).
  - reflexivity.
  - reflexivity.
  - reflexivity.
  - reflexivity.
  - reflexivity.
  - lia.
  - lia.
  - lia.
  - split; [reflexivity|repeat constructor].
  - split; [reflexivity|repeat constructor].
  - split; [reflexivity|repeat constructor].
Defined.

(** ** Squared errors are never negative *)

Lemma not_negative_fsqr (x : num) : not_negative (fsqr x).
Proof.
  destruct x as [a| | |]; cbn; [left|right; left|right; left|right; right];
    try reflexivity.
  exists (a * a). split; [reflexivity|]. apply Rle_0_sqr.
Qed.

Lemma not_negative_fadd (x y : num) :
  not_negative x -> not_negative y -> not_negative (fadd x y).
Proof.
  intros [(a & -> & Ha) | [-> | ->]] [(b & -> & Hb) | [-> | ->]]; cbn;
    try (right; left; reflexivity); try (right; right; reflexivity).
  left. exists (a + b). split; [reflexivity|lra].
Qed.

Lemma not_negative_fsum (l : list num) :
  Forall not_negative l -> not_negative (fsum l).
Proof.
  induction 1 as [|x l Hx _ IH]; cbn.
  - left. apply nn_zero.
  - now apply not_negative_fadd.
Qed.

Lemma not_negative_msum (M : matrix) :
  mat not_negative M -> not_negative (msum M).
Proof.
  intros H. unfold msum. apply not_negative_fsum.
  apply (Forall_map_imp (Forall not_negative)); [|exact H].
  apply not_negative_fsum.
Qed.

Lemma squared_difference_not_negative (A B : matrix) :
  mat not_negative (msqr (msub A B)).
Proof.
  unfold msqr, mat, mmap. apply Forall_map, Forall_forall. intros row _.
  apply Forall_map, Forall_forall. intros x _. apply not_negative_fsqr.
Qed.

Lemma Forall_map2_any {A B C : Type} (P : C -> Prop) (f : A -> B -> C)
  (l : list A) (m : list B) :
  (forall a b, P (f a b)) -> Forall P (map2 f l m).
Proof.
  intros Hf. revert m. induction l as [|a l IH]; intros [|b m]; cbn;
    constructor; auto.
Qed.

Lemma complex_criterion_not_negative (input : matrix) (target : cmatrix) :
  mat not_negative (ComplexEUCNMF.criterion input target).
Proof.
  unfold ComplexEUCNMF.criterion, mat, mmap2.
  apply Forall_map2_any. intros r z. apply Forall_map2_any.
  intros x w. apply not_negative_fsqr.
Qed.

(** X23.  The Euclidean engine never logs a negative loss, whatever the target
    holds: every entry appended by a run is a finite non-negative number,
    plus infinity, or NaN. *)
Theorem euclidean_run_never_logs_negative_loss (o : NMF) (g : RandomState)
  (tgt : matrix) (it : nat) :
  euclidean_instance o ->
  exists o' g' T V new,
    call_of Euclidean (Some tgt) it (o, g) = ((o', g'), Ok (T, V))
    /\ loss o' = loss o ++ new /\ List.length new = it
    /\ Forall not_negative new.
Proof.
  intros Hi.
  pose proof (euclidean_instance_configured o Hi) as Hc.
  destruct Hi as (_ & _ & Hcr).
  destruct (call_ok Euclidean o g tgt (fun _ _ => True) not_negative Hc)
    with (it := it)
    as (o' & g' & T & V & new & E & _ & _ & _ & _ & Hl & Hn & HQ); auto.
  - intros T V m _ Hm. rewrite Hcr in Hm. injection Hm as <-.
    apply not_negative_msum, squared_difference_not_negative.
  - exists o', g', T, V, new. auto.
Qed.

Lemma euclidean_run_never_logs_negative_loss_example :
  exists o' g' T V new,
    call_of Euclidean (Some [[Fin (-4)]]) 2 (euclidean_example, constant_half)
    = ((o', g'), Ok (T, V))
    /\ loss o' = loss euclidean_example ++ new /\ List.length new = 2%nat
    /\ Forall not_negative new.
Proof.
  apply (euclidean_run_never_logs_negative_loss euclidean_example
           constant_half [[Fin (-4)]] 2).
  split; [reflexivity|]. split; [cbn; lra|reflexivity].
Defined.

(** X24.  The complex engine never logs a negative loss: every entry appended by
    a run is a finite non-negative number, plus infinity, or NaN. *)
Theorem complex_run_never_logs_negative_loss (o : ComplexEUCNMF.t)
  (g : RandomState) (tgt : cmatrix) (it : nat) :
  exists o' g' r new,
    ComplexEUCNMF.__call__ (Some tgt) it (o, g) = ((o', g'), Ok r)
    /\ ComplexEUCNMF.loss o' = ComplexEUCNMF.loss o ++ new
    /\ List.length new = it
    /\ Forall not_negative new.
Proof.
  destruct (complex_reset_ok o g tgt) as (w1 & Er & Hr1 & Ht1 & Hl1).
  pose (P := fun (k : nat) (w : World ComplexEUCNMF.t) =>
               complex_ready w
               /\ exists new, ComplexEUCNMF.loss (fst w)
                              = ComplexEUCNMF.loss o ++ new
                              /\ List.length new = k
                              /\ Forall not_negative new).
  set (body :=
         (ComplexEUCNMF.update_once ;;
          T <- self_attr "basis" ComplexEUCNMF.basis ;;
          V <- self_attr "activation" ComplexEUCNMF.activation ;;
          Phi <- self_attr "phase" ComplexEUCNMF.phase ;;
          let TVPhi := sum_axis1 fadd (t3map2 fmul (outer T V) Phi) in
          let l := ComplexEUCNMF.criterion TVPhi tgt in
          update_self (fun o => ComplexEUCNMF.set_loss
                                  (ComplexEUCNMF.loss o ++ [msum l]) o))).
  assert (Hbody : forall k s, P k s ->
             exists s', body s = (s', Ok tt) /\ P (S k) s').
  { intros k s (Hs & new & Hl & Hn & HQ).
    destruct (complex_step_ok s Hs)
      as ([o2 g2] & E & ((t & Ht) & (T & HT) & (V & HV) & (Ph & HP) & (B & HB))
          & _ & Hl2).
    cbn [fst] in *. unfold body. rewrite (bind_ok _ _ _ _ _ E).
    cxsimpl. rewrite HT. cxsimpl. rewrite HV. cxsimpl. rewrite HP. cxsimpl.
    eexists. split; [reflexivity|].
    unfold P, complex_ready. cxsimpl. split; [repeat split; eauto|].
    exists (new ++ [msum (ComplexEUCNMF.criterion
                            (sum_axis1 fadd (t3map2 fmul (outer T V) Ph)) tgt)]).
    rewrite Hl2, Hl, <- app_assoc. split; [reflexivity|]. split.
    - rewrite length_app. cbn. lia.
    - apply Forall_app. split; [assumption|]. constructor; [|constructor].
      apply not_negative_msum, complex_criterion_not_negative. }
  destruct (for_range_total P body Hbody it 0%nat w1)
    as ([o' g'] & E & (Hr' & new & Hl & Hn & HQ)).
  { split; [exact Hr1|]. exists []. rewrite app_nil_r. auto. }
  destruct Hr' as (_ & (T & HT) & (V & HV) & (Ph & HP) & _).
  cbn [fst] in *.
  exists o', g', (T, V, Ph), new. split; [|auto].
  unfold ComplexEUCNMF.__call__.
  rewrite <- (bind_assoc (update_self (ComplexEUCNMF.set_target (Some tgt)))
                         (fun _ => ComplexEUCNMF._reset)).
  rewrite (bind_ok _ _ _ _ _ Er).
  unfold ComplexEUCNMF.update. rewrite bind_assoc.
  unfold bind at 1. unfold self_attr at 1, attr at 1. rewrite Ht1.
  fold body. rewrite (bind_ok _ _ _ _ _ E).
  cxsimpl. rewrite HT. cxsimpl. rewrite HV. cxsimpl. rewrite HP. reflexivity.
Qed.



(** ** The reconstruction of a cold start *)












(** ** No update rule returns a negative entry *)

Lemma not_negative_fin (a : R) : 0 <= a -> not_negative (Fin a).
Proof. intros H. left. now exists a. Qed.

Lemma not_negative_inf_times (a : R) : 0 <= a -> not_negative (inf_times a).
Proof.
  intros Ha. unfold inf_times. destruct (Rltb 0 a); [right; now left|].
  rewrite Rltb_false by lra. right; now right.
Qed.

Lemma not_negative_fmul (x y : num) :
  not_negative x -> not_negative y -> not_negative (fmul x y).
Proof.
  intros [(a & -> & Ha)|[->| ->]] [(b & -> & Hb)|[->| ->]]; cbn [fmul];
    try (right; left; reflexivity); try (right; right; reflexivity);
    try now apply not_negative_inf_times.
  apply not_negative_fin. now apply Rmult_le_pos.
Qed.

Lemma not_negative_fdiv (x y : num) :
  not_negative x -> not_negative y -> not_negative (fdiv x y).
Proof.
  intros [(a & -> & Ha)|[->| ->]] [(b & -> & Hb)|[->| ->]]; cbn [fdiv];
    try (right; left; reflexivity); try (right; right; reflexivity);
    try (apply not_negative_fin; lra).
  - unfold Reqb. destruct (Req_dec_T b 0).
    + now apply not_negative_inf_times.
    + apply not_negative_fin. apply exponent_nonneg; lra.
  - rewrite Rltb_false by lra. right; now left.
Qed.

Lemma not_negative_fpow (x : num) (y : R) :
  not_negative x -> not_negative (fpow x y).
Proof.
  intros Hx. unfold fpow. destruct (Reqb y 0); [apply not_negative_fin; lra|].
  destruct Hx as [(a & -> & Ha)|[->| ->]].
  - destruct (Rlt_dec 0 a).
    + rewrite Rltb_true by assumption. apply not_negative_fin.
      unfold Rpower. left. apply exp_pos.
    + rewrite Rltb_false by assumption. rewrite Reqb_true by lra.
      destruct (Rltb 0 y); [apply not_negative_fin; lra|right; now left].
  - destruct (Rltb 0 y); [right; now left|apply not_negative_fin; lra].
  - right; now right.
Qed.

Lemma not_negative_fsqrt (x : num) : not_negative x -> not_negative (fsqrt x).
Proof.
  intros [(a & -> & Ha)|[->| ->]]; cbn [fsqrt].
  - rewrite Rltb_false by lra. apply not_negative_fin, sqrt_pos.
  - right; now left.
  - right; now right.
Qed.

Lemma not_negative_floor_at (eps : R) (x : num) :
  0 <= eps -> not_negative x -> not_negative (floor_at eps x).
Proof.
  intros He Hx. unfold floor_at.
  destruct (flt x (Fin eps)); [now apply not_negative_fin|exact Hx].
Qed.

Lemma not_negative_fmaximum (eps : R) (x : num) :
  0 <= eps -> not_negative x -> not_negative (fmaximum x eps).
Proof.
  intros He Hx. unfold fmaximum.
  destruct x; try exact Hx;
    (destruct (flt _ (Fin eps)); [now apply not_negative_fin|exact Hx]).
Qed.

Lemma not_negative_transpose (M : matrix) :
  mat not_negative M -> mat not_negative (transpose M).
Proof.
  intros H. apply mat_transpose_n; [|assumption].
  apply Forall_forall. intros r _. left. apply not_negative_fin. lra.
Qed.

Lemma not_negative_matmul (A B : matrix) :
  mat not_negative A -> mat not_negative B -> mat not_negative (matmul A B).
Proof.
  intros HA HB. unfold matmul.
  apply (Forall_map_imp (Forall not_negative)); [|exact HA].
  intros r Hr.
  apply (Forall_map_imp (Forall not_negative));
    [|now apply not_negative_transpose].
  intros c Hc. unfold dot. apply not_negative_fsum.
  apply (Forall_map2 not_negative not_negative not_negative);
    auto using not_negative_fmul.
Qed.

Lemma not_negative_sum_div_frames (V TV : matrix) :
  mat not_negative V -> mat not_negative TV ->
  mat not_negative (sum_div_frames V TV).
Proof.
  intros HV HTV. unfold sum_div_frames.
  apply (Forall_map_imp (Forall not_negative)); [|exact HTV].
  intros TVi Hi. apply (Forall_map_imp (Forall not_negative)); [|exact HV].
  intros Vk Hk. apply not_negative_fsum.
  apply (Forall_map2 not_negative not_negative not_negative);
    auto using not_negative_fdiv.
Qed.

Lemma not_negative_sum_div_bins (T TV : matrix) :
  mat not_negative T -> mat not_negative TV ->
  mat not_negative (sum_div_bins T TV).
Proof.
  intros HT HTV. unfold sum_div_bins.
  apply (Forall_map_imp (Forall not_negative));
    [|now apply not_negative_transpose].
  intros Tk Hk.
  apply (Forall_map_imp (Forall not_negative));
    [|now apply not_negative_transpose].
  intros TVj Hj. apply not_negative_fsum.
  apply (Forall_map2 not_negative not_negative not_negative);
    auto using not_negative_fdiv.
Qed.

Lemma not_negative_mmul (A B : matrix) :
  mat not_negative A -> mat not_negative B -> mat not_negative (mmul A B).
Proof. apply mat_mmap2, not_negative_fmul. Qed.

Lemma not_negative_mdiv (A B : matrix) :
  mat not_negative A -> mat not_negative B -> mat not_negative (mdiv A B).
Proof. apply mat_mmap2, not_negative_fdiv. Qed.

Lemma not_negative_madd (A B : matrix) :
  mat not_negative A -> mat not_negative B -> mat not_negative (madd A B).
Proof. apply mat_mmap2, not_negative_fadd. Qed.

Lemma not_negative_mpow (M : matrix) (y : R) :
  mat not_negative M -> mat not_negative (mpow M y).
Proof. apply mat_mmap. intros x. apply not_negative_fpow. Qed.

Lemma not_negative_msqrt (M : matrix) :
  mat not_negative M -> mat not_negative (msqrt M).
Proof. apply mat_mmap, not_negative_fsqrt. Qed.

Lemma not_negative_msqr (M : matrix) : mat not_negative (msqr M).
Proof.
  unfold msqr, mat, mmap. apply Forall_map, Forall_forall. intros row _.
  apply Forall_map, Forall_forall. intros x _. apply not_negative_fsqr.
Qed.

Lemma not_negative_mscale (c : R) (M : matrix) :
  0 <= c -> mat not_negative M -> mat not_negative (mscale c M).
Proof.
  intros Hc. apply mat_mmap. intros x.
  apply not_negative_fmul. now apply not_negative_fin.
Qed.

Lemma not_negative_mfloor (eps : R) (M : matrix) :
  0 <= eps -> mat not_negative M -> mat not_negative (mfloor eps M).
Proof. intros He. apply mat_mmap. intros x. now apply not_negative_floor_at. Qed.

Lemma not_negative_recip (M : matrix) :
  mat not_negative M -> mat not_negative (recip M).
Proof.
  apply mat_mmap. intros x. apply not_negative_fdiv.
  apply not_negative_fin. lra.
Qed.

Lemma not_negative_harmonic (eps nu : R) (target TV : matrix) :
  0 <= eps -> 0 <= nu -> mat not_negative target -> mat not_negative TV ->
  mat not_negative (harmonic eps nu target TV).
Proof.
  intros He Hnu Ht HTV. unfold harmonic.
  apply not_negative_recip, not_negative_madd.
  - apply (mat_mmap not_negative not_negative).
    + intros x. apply not_negative_fdiv. apply not_negative_fin. lra.
    + apply not_negative_mscale; [lra|assumption].
  - apply (mat_mmap not_negative not_negative).
    + intros x. apply not_negative_fdiv. now apply not_negative_fin.
    + apply not_negative_mscale; [lra|].
      apply (mat_mmap not_negative not_negative); [|assumption].
      intros x. now apply not_negative_fmaximum.
Qed.

Ltac never_negative :=
  repeat match goal with
    | |- mat not_negative (mmul _ _) => apply not_negative_mmul
    | |- mat not_negative (mdiv _ _) => apply not_negative_mdiv
    | |- mat not_negative (madd _ _) => apply not_negative_madd
    | |- mat not_negative (matmul _ _) => apply not_negative_matmul
    | |- mat not_negative (transpose _) => apply not_negative_transpose
    | |- mat not_negative (mpow _ _) => apply not_negative_mpow
    | |- mat not_negative (msqrt _) => apply not_negative_msqrt
    | |- mat not_negative (msqr _) => apply not_negative_msqr
    | |- mat not_negative (mscale _ _) => apply not_negative_mscale
    | |- mat not_negative (mfloor _ _) => apply not_negative_mfloor
    | |- mat not_negative (recip _) => apply not_negative_recip
    | |- mat not_negative (harmonic _ _ _ _) => apply not_negative_harmonic
    | |- mat not_negative (sum_div_frames _ _) =>
        apply not_negative_sum_div_frames
    | |- mat not_negative (sum_div_bins _ _) =>
        apply not_negative_sum_div_bins
    | |- _ => assumption
    | |- _ <= _ => lra
    end.

Lemma basis_update_not_negative (r : rule) (target : matrix) (d e v : R)
  (T V : matrix) :
  0 <= e -> (r = t_mm -> 0 <= v) ->
  mat not_negative target -> mat not_negative T -> mat not_negative V ->
  mat not_negative (basis_update r target d e v T V).
Proof.
  intros He Hv Ht HT HV.
  destruct r; try (assert (0 <= v) by (apply Hv; reflexivity));
    cbv beta iota zeta delta [basis_update]; never_negative.
Qed.

Lemma activation_update_not_negative (r : rule) (target : matrix) (d e v : R)
  (T V : matrix) :
  0 <= e -> (r = t_mm -> 0 <= v) ->
  mat not_negative target -> mat not_negative T -> mat not_negative V ->
  mat not_negative (activation_update r target d e v T V).
Proof.
  intros He Hv Ht HT HV.
  destruct r; try (assert (0 <= v) by (apply Hv; reflexivity));
    cbv beta iota zeta delta [activation_update]; never_negative.
Qed.

(** X3.  No run returns a negative entry.  For each of the nine update
    rules, the Cauchy 'me' rule included, a run on a target whose entries
    are not negative (finite and non-negative, plus infinity, or NaN), with
    draws that are not negative and [eps > 0], returns factors whose
    entries are not negative either: each is a finite non-negative number,
    plus infinity, or NaN. *)
Theorem run_never_returns_negative_entries (c : engine) (r : rule) (o : NMF)
  (g : RandomState) (tgt : matrix) (it : nat) :
  configured c o -> rule_of c (algorithm o) = Some r ->
  0 < eps o -> (r = t_mm -> 0 <= nu_of o) ->
  mat not_negative tgt -> draws_nonneg g ->
  exists o' g' T V,
    call_of c (Some tgt) it (o, g) = ((o', g'), Ok (T, V))
    /\ mat not_negative T /\ mat not_negative V.
Proof.
  intros Hc Hr He0 Hnu Ht Hg.
  assert (He : 0 <= eps o) by lra.
  destruct (call_ok c o g tgt
              (fun T V => mat not_negative T /\ mat not_negative V)
              (fun _ => True) Hc) with (it := it)
    as (o' & g' & T & V & new & E & _ & _ & _ & (HT & HV) & _).
  - intros o1 g1 T V T' V' Hs HT HV (HnT & HnV) E.
    destruct (same_config_after_reset c r o o1 tgt g Hc Hr Hs)
      as (Hr1 & Hsc1 & Ht1 & He1 & Hd1 & Hn1 & _).
    destruct (update_once_result c r o1 g1 tgt T V T' V' Hr1 Hsc1 Ht1 HT HV E)
      as (E1 & E2).
    assert (HnT' : mat not_negative T').
    { rewrite E1. apply basis_update_not_negative; try assumption.
      - now rewrite He1.
      - now rewrite Hn1. }
    split; [exact HnT'|].
    rewrite E2. apply activation_update_not_negative; try assumption.
    + now rewrite He1.
    + now rewrite Hn1.
  - trivial.
  - split; (eapply mat_imp; [|apply nn_rand_matrix; exact Hg]);
      intros x Hx; now left.
  - exists o', g', T, V. auto.
Qed.

Lemma run_never_returns_negative_entries_example :
  exists o' g' T V,
    call_of Cauchy (Some [[Fin 4; PInf]]) 2
      (mkNMF 1 [] 1e-12 2 "me" None
         (fun input target =>
            Ok (CauchyNMF.cauchy_divergence 1e-12 input target))
         None None None, constant_half)
    = ((o', g'), Ok (T, V))
    /\ mat not_negative T /\ mat not_negative V.
Proof.
  apply (run_never_returns_negative_entries Cauchy Cauchy_me).
  - split.
    + intros a b. eexists. reflexivity.
    + split; reflexivity.
  - reflexivity.
  - cbn. lra.
  - discriminate.
  - constructor; [|constructor].
    constructor; [left; exists 4; split; [reflexivity|lra]|].
    constructor; [right; now left|constructor].
  - intros i. cbn. lra.
Defined.

(** ** The updates are multiplicative *)

Lemma fmul_zero_l (y : num) : fmul (Fin 0) y = Fin 0 \/ fmul (Fin 0) y = NaN.
Proof.
  destruct y as [b| | |]; cbn [fmul].
  - left. f_equal. lra.
  - right. now apply inf_times_zero.
  - right. now rewrite inf_times_zero.
  - now right.
Qed.

Lemma map2_fmul_keeps_zeros (u v : vector) :
  List.length u = List.length v ->
  Forall2 (fun old new => old = Fin 0 -> new = Fin 0 \/ new = NaN)
          u (map2 fmul u v).
Proof.
  revert v. induction u as [|x u IH]; intros [|y v] Hl; cbn in *;
    try discriminate; constructor.
  - intros ->. apply fmul_zero_l.
  - apply IH. lia.
Qed.

Lemma mmul_keeps_zeros (b k : nat) (T R : matrix) :
  shape b k T -> shape b k R -> keeps_zeros T (mmul T R).
Proof.
  intros (Hl & Hc) (Hl' & Hc'). unfold keeps_zeros, mmul, mmap2.
  subst b. revert R Hl' Hc'.
  induction Hc as [|row T Hrow _ IH]; intros [|row' R] Hl' Hc';
    cbn in *; try discriminate; constructor.
  - inversion Hc'; subst. apply map2_fmul_keeps_zeros; congruence.
  - inversion Hc'; subst. apply IH; auto.
Qed.

Lemma basis_update_keeps_zeros (r : rule) (target : matrix) (d e v : R)
  (T V : matrix) (b k f : nat) :
  (0 < b)%nat -> (0 < k)%nat -> (0 < f)%nat ->
  shape b f target -> shape b k T -> shape k f V ->
  keeps_zeros T (basis_update r target d e v T V).
Proof.
  intros Hb Hk Hf Hst HsT HsV.
  destruct r; cbv beta iota zeta delta [basis_update];
    apply (mmul_keeps_zeros b k); try assumption; shapes.
Qed.

Lemma activation_update_keeps_zeros (r : rule) (target : matrix) (d e v : R)
  (T V : matrix) (b k f : nat) :
  (0 < b)%nat -> (0 < k)%nat -> (0 < f)%nat ->
  shape b f target -> shape b k T -> shape k f V ->
  keeps_zeros V (activation_update r target d e v T V).
Proof.
  intros Hb Hk Hf Hst HsT HsV.
  destruct r; cbv beta iota zeta delta [activation_update];
    apply (mmul_keeps_zeros k f); try assumption; shapes.
Qed.

(** X4.  The updates are multiplicative: under each of the nine rules, an
    entry of the Basis or of the Activation that is zero before an update
    step is zero after it, or NaN where the factor it is multiplied by is
    an infinity or NaN; the step never turns a zero into another number. *)
Theorem update_step_keeps_zero_entries (c : engine) (r : rule) (o : NMF)
  (g : RandomState) (t T V : matrix) (n_bins n_frames : nat) :
  rule_of c (algorithm o) = Some r ->
  step_configured c o ->
  target o = Some t -> basis o = Some T -> activation o = Some V ->
  (0 < n_bins)%nat -> (0 < n_basis o)%nat -> (0 < n_frames)%nat ->
  shape n_bins n_frames t -> shape n_bins (n_basis o) T ->
  shape (n_basis o) n_frames V ->
  exists T' V',
    update_once_of c (o, g)
    = ((set_activation V' (set_basis T' o), g), Ok tt)
    /\ keeps_zeros T T' /\ keeps_zeros V V'.
Proof.
  intros Hr Hc Ht HT HV Hb Hk Hf Hst HsT HsV.
  rewrite (update_once_alternates c r o g t T V Hr Hc Ht HT HV).
  unfold alternate. eexists _, _. split; [reflexivity|]. split.
  - now apply (basis_update_keeps_zeros _ _ _ _ _ _ _ n_bins (n_basis o)
                 n_frames).
  - apply (activation_update_keeps_zeros _ _ _ _ _ _ _ n_bins (n_basis o)
             n_frames); try assumption.
    now apply (basis_update_shape _ _ _ _ _ _ _ _ _ n_frames).
Qed.

Lemma update_step_keeps_zero_entries_example :
  exists T' V',
    update_once_of Cauchy
      (mkNMF 1 [] 1e-12 2 "me" None
         (fun input target =>
            Ok (CauchyNMF.cauchy_divergence 1e-12 input target))
         (Some [[Fin 1]]) (Some [[Fin 0]]) (Some [[Fin (1 / 2)]]),
       constant_half)
    = ((set_activation V'
          (set_basis T'
             (mkNMF 1 [] 1e-12 2 "me" None
                (fun input target =>
                   Ok (CauchyNMF.cauchy_divergence 1e-12 input target))
                (Some [[Fin 1]]) (Some [[Fin 0]]) (Some [[Fin (1 / 2)]]))),
        constant_half), Ok tt)
    /\ keeps_zeros [[Fin 0]] T' /\ keeps_zeros [[Fin (1 / 2)]] V'.
Proof.
  apply (update_step_keeps_zero_entries Cauchy Cauchy_me _ constant_half
           [[Fin 1]] [[Fin 0]] [[Fin (1 / 2)]] 1 1).
  - reflexivity.
  - split; reflexivity.
  - reflexivity.
  - reflexivity.
  - reflexivity.
  - lia.
  - cbn. lia.
  - lia.
  - split; [reflexivity|]. repeat constructor.
  - split; [reflexivity|]. repeat constructor.
  - split; [reflexivity|]. repeat constructor.
Defined.

(** ** The multichannel engine: cold and warm start *)






(** ** How the loss trace grows, and which runs return *)

(** Every instance that a constructor builds for an algorithm its
    [update_once] knows is one on which a run returns, provided [domain] is
    [2] where the rule asserts it, except a Student-t instance with
    [nu = 0], whose criterion divides by [nu]. *)
Lemma constructed_configured (c : engine) (n : nat) (d : R) (a : string)
  (e : R) (o : NMF) :
  construct c n d a e = Ok o ->
  known_algorithm c a = true ->
  match c with
  | ItakuraSaito _ => a = "me"%string -> d = 2
  | StudentT nu => d = 2 /\ nu <> 0
  | _ => True
  end ->
  configured c o.
Proof.
  intros Hc Hk Hd.
  destruct (construct_algorithm c n d a e o Hc)
    as (_ & Ed & Ea & _).
  assert (Hs : step_configured c o).
  { split; [rewrite Ea; exact Hk|].
    destruct c; auto.
    - rewrite Ea, Ed. exact Hd.
    - split; [rewrite Ed; apply Hd|].
      cbn in Hc. unfold tNMF.__init__ in Hc.
      destruct (negb _); [discriminate|]. injection Hc as <-. cbn. eauto.
    - cbn in Hc. unfold CauchyNMF.__init__ in Hc. unfold Reqb in Hc.
      destruct (Req_dec_T d 2) as [E2|]; [|discriminate].
      rewrite Ed. exact E2. }
  split; [|exact Hs].
  intros x y.
  destruct c; cbn in Hc;
    unfold EUCNMF.__init__, KLNMF.__init__, ISNMF.__init__, tNMF.__init__,
      CauchyNMF.__init__ in Hc;
    repeat match type of Hc with
      | (if ?b then _ else _) = _ => destruct b; try discriminate
      end;
    injection Hc as <-; cbn [criterion]; try (eexists; reflexivity).
  unfold tNMF.t_divergence. rewrite Reqb_false by apply Hd.
  eexists; reflexivity.
Qed.

Lemma euclidean_call_losses (o : NMF) (g : RandomState) (tgt : matrix)
  (it : nat) :
  euclidean_instance o ->
  exists o' g' T V new,
    call_of Euclidean (Some tgt) it (o, g) = ((o', g'), Ok (T, V))
    /\ loss o' = loss o ++ new /\ List.length new = it
    /\ Forall not_negative new
    /\ euclidean_instance o' /\ eps o' = eps o.
Proof.
  intros Hi.
  pose proof (euclidean_instance_configured o Hi) as Hc.
  destruct Hi as (Ha & Hd & Hcr).
  destruct (call_ok Euclidean o g tgt (fun _ _ => True) not_negative Hc)
    with (it := it)
    as (o' & g' & T & V & new & E & Hs & _ & _ & _ & Hl & Hn & HQ); auto.
  - intros T V m _ Hm. rewrite Hcr in Hm. injection Hm as <-.
    apply not_negative_msum, squared_difference_not_negative.
  - exists o', g', T, V, new.
    destruct Hs as (_ & He1 & Hd1 & Ha1 & _ & Hc1 & _).
    cbn [fst after_reset eps domain algorithm criterion set_target set_basis
         set_activation] in He1, Hd1, Ha1, Hc1.
    repeat split; try assumption; try congruence; rewrite Hd1; lra.
Qed.

(** C2, as the code has it.  A run of [iterations] steps appends exactly
    [iterations] entries to the loss trace the instance already holds; the
    constructor creates the trace empty, so the trace holds exactly
    [iterations] entries after the first run and the entries of all runs
    after later ones.  A run of a real-valued engine returns when
    [update_once] accepts the configuration and the criterion does not
    raise; every instance a constructor builds for a known algorithm, with
    [domain = 2] where the rule asserts it, is such an instance, except a
    Student-t one with [nu = 0].  A run of the complex engine returns; for
    the multichannel engine the count holds of every run that returns.  The
    entries of a Euclidean engine are never negative, whatever the target:
    each is a finite non-negative number, plus infinity, or NaN. *)
Theorem loss_trace_grows_by_iterations :
  (forall c o g tgt it,
      configured c o ->
      exists o' g' T V new,
        call_of c (Some tgt) it (o, g) = ((o', g'), Ok (T, V))
        /\ loss o' = loss o ++ new /\ List.length new = it
        /\ configured c o')
  /\ (forall c n d a e o,
         construct c n d a e = Ok o ->
         known_algorithm c a = true ->
         match c with
         | ItakuraSaito _ => a = "me"%string -> d = 2
         | StudentT nu => d = 2 /\ nu <> 0
         | _ => True
         end ->
         configured c o)
  /\ (forall o g tgt it,
         exists o' g' r new,
           ComplexEUCNMF.__call__ (Some tgt) it (o, g) = ((o', g'), Ok r)
           /\ ComplexEUCNMF.loss o' = ComplexEUCNMF.loss o ++ new
           /\ List.length new = it)
  /\ (forall inv solve div tgt it o g o' g' r,
         MultichannelISNMF.__call__ inv solve div tgt it (o, g)
         = ((o', g'), Ok r) ->
         exists new,
           MultichannelISNMF.loss o' = MultichannelISNMF.loss o ++ new
           /\ List.length new = it)
  /\ ((forall c n d a e o, construct c n d a e = Ok o -> loss o = [])
      /\ (forall n r p e,
             ComplexEUCNMF.loss (ComplexEUCNMF.__init__ n r p e) = [])
      /\ (forall n b e,
             MultichannelISNMF.loss (MultichannelISNMF.__init__ n b e) = []))
  /\ (forall o g tgt it,
         euclidean_instance o ->
         exists o' g' T V new,
           call_of Euclidean (Some tgt) it (o, g) = ((o', g'), Ok (T, V))
           /\ loss o' = loss o ++ new /\ List.length new = it
           /\ Forall not_negative new
           /\ euclidean_instance o' /\ eps o' = eps o).
Proof.
  split; [intros; now apply real_call_total|].
  split; [apply constructed_configured|].
  split; [intros; apply complex_call_ok|].
  split; [intros; eapply multichannel_call_loss; eauto|].
  split.
  { split; [apply construct_loss_empty|]. split; reflexivity. }
  apply euclidean_call_losses.
Qed.

Lemma loss_trace_grows_by_iterations_example :
  (exists o,
      construct (StudentT 4) 1 2 "mm" 1e-12 = Ok o
      /\ exists o' g' T V new,
           call_of (StudentT 4) (Some [[Fin (1 / 4)]]) 3 (o, constant_half)
           = ((o', g'), Ok (T, V))
           /\ loss o' = loss o ++ new /\ List.length new = 3%nat
           /\ configured (StudentT 4) o')
  /\ (exists o' g' T V new,
         call_of Euclidean (Some [[Fin (-4)]]) 3
                 (euclidean_example, constant_half)
         = ((o', g'), Ok (T, V))
         /\ loss o' = loss euclidean_example ++ new
         /\ List.length new = 3%nat
         /\ Forall not_negative new
         /\ euclidean_instance o' /\ eps o' = eps euclidean_example).
Proof.
  destruct loss_trace_grows_by_iterations
    as (Hrun & Hbuilt & _ & _ & _ & Heuc).
  split.
  - assert (Hr : domain_in_range 2 = true)
      by (apply domain_in_range_true; lra).
    eexists. split.
    + cbn [construct]. unfold tNMF.__init__. rewrite Hr. reflexivity.
    + apply Hrun.
      apply (Hbuilt (StudentT 4) 1%nat 2 "mm"%string 1e-12).
      * cbn [construct]. unfold tNMF.__init__. rewrite Hr. reflexivity.
      * reflexivity.
      * split; [reflexivity|lra].
  - apply Heuc.
    split; [reflexivity|]. split; [cbn; lra|reflexivity].
Defined.

(** ** [update_beta] under rounding *)

(** With exact operations [beta_with] is the array of the exact model. *)
Lemma beta_of_as_beta_with (eps : R) (T V : matrix) :
  beta_of eps T V = beta_with fmul fadd fdiv (floor_at eps) T V.
Proof. reflexivity. Qed.

Lemma beta_with_unfold {A : Type} (mul add div : A -> A -> A)
  (floor : A -> A) (T V : list (list A)) :
  beta_with mul add div floor T V
  = map (fun TVi =>
           map (fun r => map2 div r (map floor (sum_rows add TVi))) TVi)
        (outer_with mul T V).
Proof.
  unfold beta_with, over_bases, mmap, sum_axis1. cbv zeta.
  rewrite map_map.
  induction (outer_with mul T V) as [|X l IH]; cbn; [reflexivity|].
  now rewrite IH.
Qed.

Lemma length_fold_map2 {A : Type} (add : A -> A -> A) (n : nat)
  (rest : list (list A)) (acc : list A) :
  List.length acc = n -> Forall (fun r => List.length r = n) rest ->
  List.length (fold_left (map2 add) rest acc) = n.
Proof.
  revert acc. induction rest as [|c rest IH]; intros acc Ha Hr; cbn;
    [exact Ha|].
  inversion Hr; subst. apply IH; [|assumption].
  rewrite length_map2; congruence.
Qed.

Lemma shape_outer_with {A : Type} (mul : A -> A -> A) (T V : list (list A))
  (n_bins n_basis n_frames : nat) :
  shape n_bins n_basis T -> shape n_basis n_frames V ->
  shape3 n_bins n_basis n_frames (outer_with mul T V).
Proof.
  intros (HlT & HT) (HlV & HV). unfold outer_with. split.
  - now rewrite length_map.
  - apply Forall_map. eapply Forall_impl; [|exact HT].
    intros Ti Hi. cbv beta. split.
    + rewrite length_map2; congruence.
    + clear HlT HT HlV Hi. revert Ti.
      induction HV as [|Vk V Hk _ IH]; intros [|t Ti]; cbn;
        constructor; [now rewrite length_map|apply IH].
Qed.

Lemma shape_beta_with {A : Type} (mul add div : A -> A -> A)
  (floor : A -> A) (T V : list (list A)) (n_bins n_basis n_frames : nat) :
  shape n_bins n_basis T -> shape n_basis n_frames V ->
  shape3 n_bins n_basis n_frames (beta_with mul add div floor T V).
Proof.
  intros HT HV. rewrite beta_with_unfold.
  destruct (shape_outer_with mul T V _ _ _ HT HV) as (Hl & Hs).
  split; [now rewrite length_map|].
  apply Forall_map. eapply Forall_impl; [|exact Hs].
  intros TVi (Hli & Hi). cbv beta. split; [now rewrite length_map|].
  apply Forall_map. apply Forall_forall. intros r Hr.
  rewrite Forall_forall in Hi.
  rewrite length_map2; [now apply Hi|].
  rewrite length_map, (Hi r Hr).
  destruct TVi as [|r0 rest]; [contradiction|]. cbn [sum_rows].
  symmetry. apply length_fold_map2.
  - apply Hi. now left.
  - apply Forall_forall. intros c Hc. apply Hi. now right.
Qed.

Lemma nth_map2 {A B C : Type} (f : A -> B -> C) (l : list A) (m : list B)
  (k : nat) (a : A) (b : B) (c : C) :
  (k < List.length l)%nat -> (k < List.length m)%nat ->
  nth k (map2 f l m) c = f (nth k l a) (nth k m b).
Proof.
  revert m k. induction l as [|x l IH]; intros [|y m] [|k] Hl Hm;
    cbn in *; try lia; [reflexivity|].
  apply IH; lia.
Qed.

Lemma nth_map_lt {A B : Type} (f : A -> B) (l : list A) (k : nat)
  (a : A) (b : B) :
  (k < List.length l)%nat -> nth k (map f l) b = f (nth k l a).
Proof.
  intros H. rewrite (nth_indep _ b (f a)) by now rewrite length_map.
  apply map_nth.
Qed.

Lemma nth_fold_map2 {A : Type} (add : A -> A -> A) (d : A) (n j : nat)
  (rest : list (list A)) (acc : list A) :
  List.length acc = n -> Forall (fun r => List.length r = n) rest ->
  (j < n)%nat ->
  nth j (fold_left (map2 add) rest acc) d
  = fold_left add (map (fun r => nth j r d) rest) (nth j acc d).
Proof.
  intros Ha Hr Hj. revert acc Ha.
  induction Hr as [|r rest Hl _ IH]; intros acc Ha; cbn; [reflexivity|].
  rewrite IH by (rewrite length_map2; congruence).
  now rewrite (nth_map2 add acc r j d d d) by lia.
Qed.

Lemma nth_sum_rows {A : Type} (add : A -> A -> A) (d : A) (n j : nat)
  (M : list (list A)) :
  Forall (fun r => List.length r = n) M -> (j < n)%nat -> M <> [] ->
  nth j (sum_rows add M) d = sum_of add d (map (fun r => nth j r d) M).
Proof.
  intros HM Hj Hne. destruct M as [|r rest]; [contradiction|].
  inversion HM; subst. cbn [sum_rows sum_of map].
  now apply nth_fold_map2 with (n := List.length r).
Qed.

Lemma columns_of_outer_row {A : Type} (mul : A -> A -> A) (d : A)
  (n j : nat) (Ti : list A) (V : list (list A)) :
  Forall (fun r => List.length r = n) V -> (j < n)%nat ->
  map (fun r => nth j r d) (map2 (fun t Vk => map (mul t) Vk) Ti V)
  = products mul d Ti V j.
Proof.
  intros HV Hj. unfold products. revert Ti.
  induction HV as [|Vk V Hk _ IH]; intros [|t Ti]; cbn; try reflexivity.
  rewrite IH. f_equal. apply nth_map_lt. lia.
Qed.

(** The entries of the array [update_beta] stores: Beta[i,k,j] is the
    quotient of [T[i,k] * V[k,j]] by the floored sum of the products of
    the cell. *)
Lemma beta_with_entry {A : Type} (mul add div : A -> A -> A)
  (floor : A -> A) (d : A) (T V : list (list A))
  (n_bins n_basis n_frames i k j : nat) :
  shape n_bins n_basis T -> shape n_basis n_frames V ->
  (i < n_bins)%nat -> (k < n_basis)%nat -> (j < n_frames)%nat ->
  nth j (nth k (nth i (beta_with mul add div floor T V) []) []) d
  = div (mul (nth k (nth i T []) d) (nth j (nth k V []) d))
        (floor (sum_of add d (products mul d (nth i T []) V j))).
Proof.
  intros (HlT & HT) (HlV & HV) Hi Hk Hj.
  assert (HTi : List.length (nth i T []) = n_basis).
  { rewrite Forall_forall in HT. apply HT, nth_In. lia. }
  assert (HVk : List.length (nth k V []) = n_frames).
  { rewrite Forall_forall in HV. apply HV, nth_In. lia. }
  rewrite beta_with_unfold. unfold outer_with.
  rewrite map_map.
  rewrite (nth_map_lt _ T i []) by lia.
  set (TVi := map2 (fun t Vk => map (mul t) Vk) (nth i T []) V).
  assert (HlTVi : List.length TVi = n_basis).
  { unfold TVi. rewrite length_map2; congruence. }
  assert (HTVi : Forall (fun r => List.length r = n_frames) TVi).
  { unfold TVi. clear -HV. revert HV. generalize (nth i T []).
    intros Ti HV. revert Ti.
    induction HV as [|Vk V' Hk _ IH]; intros [|t Ti]; cbn; constructor;
      [now rewrite length_map|apply IH]. }
  rewrite (nth_map_lt _ TVi k []) by lia.
  assert (Hrow : nth k TVi [] = map (mul (nth k (nth i T []) d)) (nth k V [])).
  { unfold TVi. rewrite (nth_map2 _ _ _ k d [] []) by lia. reflexivity. }
  assert (Hls : List.length (sum_rows add TVi) = n_frames).
  { destruct TVi as [|r0 rest] eqn:E; [cbn in HlTVi; lia|]. cbn [sum_rows].
    inversion HTVi; subst. now apply length_fold_map2. }
  rewrite (nth_map2 div _ _ j d d d)
    by (rewrite ?Hrow, ?length_map; lia).
  rewrite Hrow, (nth_map_lt _ _ j d) by lia.
  rewrite (nth_map_lt _ _ j d) by lia.
  rewrite (nth_sum_rows add d n_frames) by
    (try assumption; intros E; rewrite E in HlTVi; cbn in HlTVi; lia).
  unfold TVi. now rewrite (columns_of_outer_row mul d n_frames).
Qed.

Section RoundedArithmetic.

Variable rnd : R -> R.
Variable big : R.

(** What the rounding of a floating-point format satisfies: it is monotone,
    it leaves the values of the format alone, [0] and [1] among them, and
    [1] is not beyond the largest finite value. *)
Hypothesis rnd_monotone : forall x y, x <= y -> rnd x <= rnd y.
Hypothesis rnd_zero : rnd 0 = 0.
Hypothesis rnd_one : rnd 1 = 1.
Hypothesis rnd_idempotent : forall x, rnd (rnd x) = rnd x.
Hypothesis big_ge_one : 1 <= big.

Lemma rnd_nonneg (a : R) : 0 <= a -> 0 <= rnd a.
Proof. intros H. rewrite <- rnd_zero. now apply rnd_monotone. Qed.

Lemma round_fin_cases (a : R) :
  0 <= a ->
  round rnd big (Fin a) = PInf
  \/ (round rnd big (Fin a) = Fin (rnd a) /\ rnd a <= big).
Proof.
  intros Ha. pose proof (rnd_nonneg a Ha) as Hr. unfold round.
  destruct (Rlt_dec big (rnd a)) as [Hb|Hb].
  - left. now rewrite Rltb_true.
  - right. rewrite Rltb_false by assumption.
    rewrite Rltb_false by lra. split; [reflexivity|lra].
Qed.

Lemma round_nonneg (a : R) :
  0 <= a -> rounded_not_negative rnd (round rnd big (Fin a)).
Proof.
  intros Ha. destruct (round_fin_cases a Ha) as [->|(-> & _)].
  - exact I.
  - split; [now apply rnd_nonneg|apply rnd_idempotent].
Qed.

Lemma inf_times_nonneg (a : R) :
  0 <= a -> inf_times a = PInf \/ inf_times a = NaN.
Proof.
  intros Ha. unfold inf_times. destruct (Rltb 0 a); [now left|].
  rewrite Rltb_false by lra. now right.
Qed.

Lemma rmul_rnn (x y : num) :
  not_negative x -> not_negative y ->
  rounded_not_negative rnd (Rounded.fmul rnd big x y).
Proof.
  unfold Rounded.fmul.
  intros [(a & -> & Ha)|[->| ->]] [(b & -> & Hb)|[->| ->]];
    cbn [fmul]; try exact I.
  - apply round_nonneg. now apply Rmult_le_pos.
  - destruct (inf_times_nonneg a Ha) as [->| ->]; exact I.
  - destruct (inf_times_nonneg b Hb) as [->| ->]; exact I.
Qed.

Lemma radd_rnn (x y : num) :
  rounded_not_negative rnd x -> rounded_not_negative rnd y ->
  rounded_not_negative rnd (Rounded.fadd rnd big x y).
Proof.
  unfold Rounded.fadd.
  destruct x as [a| | |], y as [b| | |]; cbn [rounded_not_negative];
    intros Hx Hy; try contradiction; try exact I.
  cbn [fadd]. apply round_nonneg. lra.
Qed.

Lemma radd_not_nan (x y : num) :
  rounded_not_negative rnd x -> rounded_not_negative rnd y ->
  x <> NaN -> y <> NaN -> Rounded.fadd rnd big x y <> NaN.
Proof.
  unfold Rounded.fadd.
  destruct x as [a| | |], y as [b| | |]; cbn [rounded_not_negative];
    intros Hx Hy Nx Ny; try contradiction; try congruence;
    cbn [fadd]; try (cbn; discriminate).
  destruct (round_fin_cases (a + b)) as [->|(-> & _)];
    [lra|discriminate|discriminate].
Qed.

Lemma term_of_sum_refl (x : num) :
  rounded_not_negative rnd x -> term_of_sum x x.
Proof.
  destruct x as [a| | |]; cbn [rounded_not_negative]; intros H.
  - right; right; right. exists a, a. repeat split; lra.
  - right; right; left. split; [reflexivity|discriminate].
  - contradiction.
  - now left.
Qed.

(** Adding a term keeps the sum above the terms it already had. *)
Lemma term_of_sum_add_r (x s c : num) :
  rounded_not_negative rnd s -> rounded_not_negative rnd c ->
  term_of_sum x s -> term_of_sum x (Rounded.fadd rnd big s c).
Proof.
  unfold Rounded.fadd.
  intros Hs Hc [->|[->|[(-> & Hx)|(a & b & -> & -> & Hab)]]].
  - now left.
  - right; left. reflexivity.
  - destruct c as [g| | |]; cbn [rounded_not_negative] in Hc;
      try contradiction; cbn [fadd round].
    + right; right; left. auto.
    + right; right; left. auto.
    + right; left. reflexivity.
  - destruct c as [g| | |]; cbn [rounded_not_negative] in Hc;
      try contradiction; cbn [fadd].
    + cbn [rounded_not_negative] in Hs. destruct Hs as (Hb & Eb).
      destruct (round_fin_cases (b + g)) as [->|(-> & _)]; [lra| |].
      * right; right; left. split; [reflexivity|discriminate].
      * right; right; right. exists a, (rnd (b + g)).
        split; [reflexivity|]. split; [reflexivity|].
        split; [lra|]. apply Rle_trans with b; [lra|].
        rewrite <- Eb at 1. apply rnd_monotone. lra.
    + right; right; left. split; [reflexivity|discriminate].
    + right; left. reflexivity.
Qed.

(** The sum is above the term just added. *)
Lemma term_of_sum_add_l (s c : num) :
  rounded_not_negative rnd s -> rounded_not_negative rnd c ->
  term_of_sum c (Rounded.fadd rnd big s c).
Proof.
  unfold Rounded.fadd.
  destruct s as [b| | |], c as [g| | |]; cbn [rounded_not_negative];
    intros Hs Hc; try contradiction; cbn [fadd];
    try (now left); try (right; left; reflexivity);
    try (right; right; left; split; [reflexivity|discriminate]).
  destruct Hs as (Hb & Eb), Hc as (Hg & Eg).
  destruct (round_fin_cases (b + g)) as [->|(-> & _)]; [lra| |].
  - right; right; left. split; [reflexivity|discriminate].
  - right; right; right. exists g, (rnd (b + g)).
    split; [reflexivity|]. split; [reflexivity|].
    split; [lra|]. rewrite <- Eg at 1. apply rnd_monotone. lra.
Qed.

Lemma terms_of_sums_refl (r : vector) :
  Forall (rounded_not_negative rnd) r -> terms_of_sums r r.
Proof.
  unfold terms_of_sums. induction 1 as [|x r Hx _ IH]; cbn; constructor;
    [now apply term_of_sum_refl|exact IH].
Qed.

Lemma terms_of_sums_add_r (r s c : vector) :
  Forall (rounded_not_negative rnd) s ->
  Forall (rounded_not_negative rnd) c ->
  terms_of_sums r s -> terms_of_sums r (map2 (Rounded.fadd rnd big) s c).
Proof.
  unfold terms_of_sums. intros Hs. revert r c.
  induction Hs as [|y s Hy _ IH]; intros [|x r] [|z c] Hc H; cbn in *;
    try constructor.
  - inversion H; subst. inversion Hc; subst.
    now apply term_of_sum_add_r.
  - inversion H; subst. inversion Hc; subst. now apply IH.
Qed.

Lemma terms_of_sums_add_l (s c : vector) :
  Forall (rounded_not_negative rnd) s ->
  Forall (rounded_not_negative rnd) c ->
  terms_of_sums c (map2 (Rounded.fadd rnd big) s c).
Proof.
  unfold terms_of_sums. intros Hs. revert c.
  induction Hs as [|y s Hy _ IH]; intros [|z c] Hc; cbn; try constructor.
  - inversion Hc; subst. now apply term_of_sum_add_l.
  - inversion Hc; subst. now apply IH.
Qed.

Lemma map2_closed (P : num -> Prop) (f : num -> num -> num) (a b : vector) :
  (forall x y, P x -> P y -> P (f x y)) ->
  Forall P a -> Forall P b -> Forall P (map2 f a b).
Proof.
  intros Hf Ha. revert b.
  induction Ha as [|x a Hx _ IH]; intros [|y b] Hb; cbn; try constructor.
  - inversion Hb; subst. now apply Hf.
  - inversion Hb; subst. now apply IH.
Qed.

Lemma fold_closed (P : num -> Prop) (f : num -> num -> num)
  (rest : matrix) (acc : vector) :
  (forall x y, P x -> P y -> P (f x y)) ->
  Forall P acc -> mat P rest -> Forall P (fold_left (map2 f) rest acc).
Proof.
  intros Hf. revert acc.
  induction rest as [|c rest IH]; intros acc Hacc Hrest; cbn; [exact Hacc|].
  inversion Hrest; subst. apply IH; [|assumption].
  now apply map2_closed.
Qed.

Lemma sum_rows_closed (P : num -> Prop) (f : num -> num -> num)
  (M : matrix) :
  (forall x y, P x -> P y -> P (f x y)) ->
  mat P M -> Forall P (sum_rows f M).
Proof.
  intros Hf HM. destruct M as [|r0 rest]; cbn; [constructor|].
  inversion HM; subst. now apply fold_closed.
Qed.

Lemma fold_sum_terms (rest : matrix) (acc : vector) :
  Forall (rounded_not_negative rnd) acc ->
  mat (rounded_not_negative rnd) rest ->
  (forall r, terms_of_sums r acc ->
             terms_of_sums r (fold_left (map2 (Rounded.fadd rnd big))
                                        rest acc))
  /\ Forall (fun r => terms_of_sums r
                        (fold_left (map2 (Rounded.fadd rnd big)) rest acc))
            rest.
Proof.
  revert acc. induction rest as [|c rest IH]; intros acc Hacc Hrest; cbn.
  - split; auto.
  - inversion Hrest as [|c' rest' Hc Hrest']; subst.
    assert (Hacc' : Forall (rounded_not_negative rnd)
                           (map2 (Rounded.fadd rnd big) acc c))
      by (apply map2_closed; auto using radd_rnn).
    destruct (IH _ Hacc' Hrest') as (Hmono & Hall).
    split.
    + intros r Hr. apply Hmono. now apply terms_of_sums_add_r.
    + constructor; [|exact Hall]. apply Hmono.
      now apply terms_of_sums_add_l.
Qed.

(** Every row of an array of such values is a row of terms of the sum of
    the rows. *)
Lemma sum_rows_terms (M : matrix) :
  mat (rounded_not_negative rnd) M ->
  Forall (fun r => terms_of_sums r (sum_rows (Rounded.fadd rnd big) M)) M.
Proof.
  intros HM. destruct M as [|r0 rest]; cbn; [constructor|].
  inversion HM as [|r' rest' Hr0 Hrest]; subst.
  destruct (fold_sum_terms rest r0 Hr0 Hrest) as (Hmono & Hall).
  constructor; [|exact Hall]. apply Hmono. now apply terms_of_sums_refl.
Qed.

(** The quotient of a term by the floored sum. *)
Lemma quotient_cases (eps : R) (x s : num) :
  0 < eps -> rounded_not_negative rnd x -> term_of_sum x s ->
  unit_interval (Rounded.fdiv rnd big x (floor_at eps s))
  \/ (Rounded.fdiv rnd big x (floor_at eps s) = NaN
      /\ (x = NaN \/ x = PInf \/ s = NaN)).
Proof.
  intros He Hx H. unfold Rounded.fdiv.
  destruct H as [->|[->|[(-> & Nx)|(a & b & -> & -> & Hab)]]].
  - right. split; [reflexivity|auto].
  - right. rewrite floor_at_nan.
    split; [destruct x; reflexivity|auto].
  - assert (Ef : floor_at eps PInf = PInf) by reflexivity. rewrite Ef.
    destruct x as [a| | |]; cbn [fdiv]; try contradiction.
    + left. cbn [round]. rewrite rnd_zero.
      rewrite !Rltb_false by lra. exists 0. split; [reflexivity|lra].
    + right. split; [reflexivity|auto].
    + right. split; [reflexivity|auto].
  - left.
    assert (Hf : exists f, floor_at eps (Fin b) = Fin f /\ b <= f /\ 0 < f).
    { destruct (Rlt_dec b eps).
      - rewrite floor_at_fin_lt by assumption. exists eps. repeat split; lra.
      - rewrite floor_at_fin_ge by lra. exists b. repeat split; lra. }
    destruct Hf as (f & -> & Hbf & Hf). rewrite fdiv_fin by lra.
    assert (H0 : 0 <= a / f) by (apply exponent_nonneg; lra).
    assert (H1 : a / f <= 1).
    { apply Rmult_le_reg_r with (r := f); [assumption|].
      unfold Rdiv. rewrite Rmult_assoc, Rinv_l by lra. lra. }
    assert (Hr1 : rnd (a / f) <= 1)
      by (rewrite <- rnd_one; now apply rnd_monotone).
    destruct (round_fin_cases (a / f) H0) as [E|(-> & _)].
    + exfalso. unfold round in E.
      rewrite Rltb_false in E by lra.
      destruct (Rltb (rnd (a / f)) (- big)); discriminate.
    + exists (rnd (a / f)). split; [reflexivity|].
      split; [now apply rnd_nonneg|exact Hr1].
Qed.

Lemma quotients_unit_or_nan (eps : R) (r s : vector) :
  0 < eps -> Forall (rounded_not_negative rnd) r -> terms_of_sums r s ->
  Forall unit_interval_or_nan
         (map2 (Rounded.fdiv rnd big) r (map (floor_at eps) s)).
Proof.
  intros He Hr. unfold terms_of_sums. revert s.
  induction Hr as [|x r Hx _ IH]; intros [|y s] H; cbn in *;
    try constructor.
  - inversion H; subst. cbn [fst snd] in *.
    destruct (quotient_cases eps x y He Hx) as [Hu|(Hn & _)];
      [assumption|now left|now right].
  - inversion H; subst. now apply IH.
Qed.

Lemma quotients_unit (eps : R) (r s : vector) :
  0 < eps -> Forall (rounded_not_negative rnd) r -> terms_of_sums r s ->
  Forall finite r -> Forall (fun y => y <> NaN) s ->
  Forall unit_interval
         (map2 (Rounded.fdiv rnd big) r (map (floor_at eps) s)).
Proof.
  intros He Hr. unfold terms_of_sums. revert s.
  induction Hr as [|x r Hx _ IH]; intros [|y s] H Hf Hs; cbn in *;
    try constructor.
  - inversion H; subst. inversion Hf as [|? ? (a & Ea) _]; subst.
    inversion Hs; subst. cbn [fst snd] in *.
    destruct (quotient_cases eps (Fin a) y He Hx) as [Hu|(_ & [E|[E|E]])];
      [assumption|assumption|discriminate|discriminate|contradiction].
  - inversion H; subst. inversion Hf; subst. inversion Hs; subst.
    now apply IH.
Qed.

Lemma outer_with_rnn (T V : matrix) :
  mat not_negative T -> mat not_negative V ->
  Forall (mat (rounded_not_negative rnd))
         (outer_with (Rounded.fmul rnd big) T V).
Proof.
  intros HT HV. unfold outer_with.
  apply Forall_map. eapply Forall_impl; [|exact HT].
  intros Ti Hi. cbv beta. clear HT. revert V HV.
  induction Hi as [|t Ti Ht _ IH]; intros [|Vk V] HV; cbn;
    try constructor.
  - inversion HV; subst. apply Forall_map.
    eapply Forall_impl; [|eassumption].
    intros v Hv. now apply rmul_rnn.
  - inversion HV; subst. now apply IH.
Qed.

Lemma update_beta_computes_rounded (o : ComplexEUCNMF.t) (g : RandomState)
  (T V : matrix) :
  ComplexEUCNMF.basis o = Some T -> ComplexEUCNMF.activation o = Some V ->
  Rounded.update_beta rnd big (o, g)
  = ((ComplexEUCNMF.set_Beta
        (beta_with (Rounded.fmul rnd big) (Rounded.fadd rnd big)
                   (Rounded.fdiv rnd big)
                   (floor_at (ComplexEUCNMF.eps o)) T V) o, g), Ok tt).
Proof.
  intros HT HV. unfold Rounded.update_beta. cxsimpl.
  rewrite HT. cxsimpl. rewrite HV. reflexivity.
Qed.

(** C10, as the code has it.  In every floating-point arithmetic whose
    rounding is monotone and leaves the values of the format alone,
    [update_beta] on a Basis and an Activation of matching shapes whose
    entries are not negative (with [eps > 0]) stores a Beta of [n_bins]
    blocks of [n_basis] rows and [n_frames] columns; its entry [(i, k, j)]
    is the rounded quotient of the rounded product [T[i,k] * V[k,j]] by the
    sum of the products of the cell, added up from the left and floored at
    [eps]; each entry is in [0, 1] or NaN; and every entry is in [0, 1]
    when each product, as rounded, is finite.  That the entries of a cell
    sum to 1 is not among the conclusions: the quotients are rounded. *)
Theorem beta_entries_in_unit_interval (o : ComplexEUCNMF.t)
  (g : RandomState) (T V : matrix) (n_bins n_basis n_frames : nat) :
  0 < ComplexEUCNMF.eps o ->
  ComplexEUCNMF.basis o = Some T -> ComplexEUCNMF.activation o = Some V ->
  shape n_bins n_basis T -> shape n_basis n_frames V ->
  mat not_negative T -> mat not_negative V ->
  exists B,
    Rounded.update_beta rnd big (o, g)
    = ((ComplexEUCNMF.set_Beta B o, g), Ok tt)
    /\ shape3 n_bins n_basis n_frames B
    /\ (forall i k j : nat,
          (i < n_bins)%nat -> (k < n_basis)%nat -> (j < n_frames)%nat ->
          nth j (nth k (nth i B []) []) NaN
          = Rounded.fdiv rnd big
              (Rounded.fmul rnd big (nth k (nth i T []) NaN)
                                    (nth j (nth k V []) NaN))
              (floor_at (ComplexEUCNMF.eps o)
                 (sum_of (Rounded.fadd rnd big) NaN
                    (products (Rounded.fmul rnd big) NaN (nth i T []) V j))))
    /\ Forall (Forall (Forall unit_interval_or_nan)) B
    /\ (Forall (mat finite) (outer_with (Rounded.fmul rnd big) T V) ->
        Forall (Forall (Forall unit_interval)) B).
Proof.
  intros He HT HV HsT HsV HnT HnV. set (eps := ComplexEUCNMF.eps o) in *.
  eexists. split; [exact (update_beta_computes_rounded o g T V HT HV)|].
  split; [now apply shape_beta_with|].
  split; [intros i k j Hi Hk Hj; fold eps;
          now apply beta_with_entry with (n_bins := n_bins)
                (n_basis := n_basis) (n_frames := n_frames)|].
  pose proof (outer_with_rnn T V HnT HnV) as Hout.
  rewrite beta_with_unfold. fold eps. split.
  - apply Forall_map. eapply Forall_impl; [|exact Hout].
    intros TVi Hi. cbv beta.
    pose proof (sum_rows_terms TVi Hi) as Hterms.
    apply Forall_map. apply Forall_forall. intros r Hr.
    unfold mat in Hi. rewrite Forall_forall in Hi, Hterms.
    apply quotients_unit_or_nan; [assumption|now apply Hi|now apply Hterms].
  - intros Hfin. apply Forall_map.
    rewrite Forall_forall in Hout, Hfin. apply Forall_forall.
    intros TVi Hin. specialize (Hout TVi Hin). specialize (Hfin TVi Hin).
    pose proof (sum_rows_terms TVi Hout) as Hterms.
    assert (Hs : Forall (fun y => rounded_not_negative rnd y /\ y <> NaN)
                        (sum_rows (Rounded.fadd rnd big) TVi)).
    { apply sum_rows_closed.
      - intros x y (Hx & Nx) (Hy & Ny).
        split; [now apply radd_rnn|now apply radd_not_nan].
      - unfold mat in *. rewrite Forall_forall in Hout, Hfin.
        apply Forall_forall. intros r Hr.
        specialize (Hout r Hr). specialize (Hfin r Hr).
        rewrite Forall_forall in Hout, Hfin. apply Forall_forall.
        intros x Hx. split; [now apply Hout|].
        destruct (Hfin x Hx) as (a & ->). discriminate. }
    apply Forall_map. apply Forall_forall. intros r Hr.
    unfold mat in Hout, Hfin. rewrite Forall_forall in Hout, Hfin, Hterms.
    apply quotients_unit; [assumption|now apply Hout|now apply Hterms
                          |now apply Hfin|].
    eapply Forall_impl; [|exact Hs]. now intros y (_ & Hy).
Qed.

End RoundedArithmetic.

(** Rounding down to a multiple of [1/8] is such a rounding. *)
Lemma round_to_eighths_monotone (x y : R) :
  x <= y -> round_to_eighths x <= round_to_eighths y.
Proof.
  intros H. unfold round_to_eighths.
  apply Rmult_le_compat_r; [lra|].
  apply IZR_le, Zfloor_le. lra.
Qed.

Lemma round_to_eighths_multiple (z : Z) :
  round_to_eighths (IZR z / 8) = IZR z / 8.
Proof.
  unfold round_to_eighths.
  replace (IZR z / 8 * 8) with (IZR z) by field.
  now rewrite ZfloorZ.
Qed.

Lemma round_to_eighths_idempotent (x : R) :
  round_to_eighths (round_to_eighths x) = round_to_eighths x.
Proof. unfold round_to_eighths at 2 3. apply round_to_eighths_multiple. Qed.

Lemma round_to_eighths_zero : round_to_eighths 0 = 0.
Proof.
  replace 0 with (IZR 0 / 8) at 1 by (cbn; lra).
  rewrite round_to_eighths_multiple. cbn. lra.
Qed.

Lemma round_to_eighths_one : round_to_eighths 1 = 1.
Proof.
  replace 1 with (IZR 8 / 8) at 1 by (cbn; lra).
  rewrite round_to_eighths_multiple. cbn. lra.
Qed.

Lemma beta_entries_in_unit_interval_example :
  exists B,
    Rounded.update_beta round_to_eighths 16
      (two_component_example, constant_half)
    = ((ComplexEUCNMF.set_Beta B two_component_example, constant_half),
       Ok tt)
    /\ shape3 1 2 1 B
    /\ (forall i k j : nat,
          (i < 1)%nat -> (k < 2)%nat -> (j < 1)%nat ->
          nth j (nth k (nth i B []) []) NaN
          = Rounded.fdiv round_to_eighths 16
              (Rounded.fmul round_to_eighths 16
                 (nth k (nth i [[Fin (1 / 2); Fin (1 / 2)]] []) NaN)
                 (nth j (nth k [[Fin (1 / 2)]; [Fin 1]] []) NaN))
              (floor_at (ComplexEUCNMF.eps two_component_example)
                 (sum_of (Rounded.fadd round_to_eighths 16) NaN
                    (products (Rounded.fmul round_to_eighths 16) NaN
                       (nth i [[Fin (1 / 2); Fin (1 / 2)]] [])
                       [[Fin (1 / 2)]; [Fin 1]] j))))
    /\ Forall (Forall (Forall unit_interval_or_nan)) B
    /\ (Forall (mat finite)
               (outer_with (Rounded.fmul round_to_eighths 16)
                           [[Fin (1 / 2); Fin (1 / 2)]]
                           [[Fin (1 / 2)]; [Fin 1]]) ->
        Forall (Forall (Forall unit_interval)) B).
Proof.
  apply (beta_entries_in_unit_interval round_to_eighths 16
           round_to_eighths_monotone round_to_eighths_zero
           round_to_eighths_one round_to_eighths_idempotent
           ltac:(lra)
           two_component_example constant_half
           [[Fin (1 / 2); Fin (1 / 2)]] [[Fin (1 / 2)]; [Fin 1]]
           1%nat 2%nat 1%nat).
  - cbn. lra.
  - reflexivity.
  - reflexivity.
  - split; [reflexivity|repeat constructor].
  - split; [reflexivity|repeat constructor].
  - repeat first [apply Forall_nil | apply Forall_cons
                 | left; eexists; split; [reflexivity|lra]].
  - repeat first [apply Forall_nil | apply Forall_cons
                 | left; eexists; split; [reflexivity|lra]].
Defined.

(** C10, as stated, fails on the doubles the code computes with.  For the
    Basis row (0.5, 0.5, 0.5), the Activation column (0.1, 0.2, 0.3) and
    [eps = 1e-12], every entry is non-negative, the sum of the three
    products is above [eps], every entry of Beta is in [0, 1], and the
    entries of Beta sum to [1 - 2^-53], in whichever order the three are
    added: not to 1.  And for a Basis and an Activation whose one entry is
    [2^600] the product overflows and the entry of Beta is NaN, which is
    not in [0, 1]. *)
Lemma beta_does_not_sum_to_one_in_binary64 :
  let T := Binary64.basis_example in
  let V := Binary64.activation_example in
  let eps := Binary64.eps_default in
  let Beta := Binary64.update_beta eps T V in
  forallb (forallb (PrimFloat.leb Binary64.zero)) T = true
  /\ forallb (forallb (PrimFloat.leb Binary64.zero)) V = true
  /\ forallb (forallb (PrimFloat.leb eps))
             (sum_axis1 PrimFloat.add (outer_with PrimFloat.mul T V)) = true
  /\ forallb (forallb (forallb
                (fun b => PrimFloat.leb Binary64.zero b
                          && PrimFloat.leb b Binary64.one))) Beta = true
  /\ sum_axis1 PrimFloat.add Beta = [[Binary64.below_one]]
  /\ PrimFloat.eqb Binary64.below_one Binary64.one = false
  /\ (exists b1 b2 b3,
         Beta = [[[b1]; [b2]; [b3]]]
         /\ PrimFloat.eqb (PrimFloat.add b1 (PrimFloat.add b2 b3))
                          Binary64.one = false
         /\ PrimFloat.eqb (PrimFloat.add (PrimFloat.add b1 b3) b2)
                          Binary64.one = false)
  /\ PrimFloat.leb Binary64.zero Binary64.huge = true
  /\ (exists b,
         Binary64.update_beta eps [[Binary64.huge]] [[Binary64.huge]]
         = [[[b]]]
         /\ PrimFloat.is_nan b = true
         /\ PrimFloat.leb Binary64.zero b = false
         /\ PrimFloat.leb b Binary64.one = false).
Proof.
  cbv zeta.
  repeat (split; [vm_compute; reflexivity|]).
  split.
  - eexists _, _, _. split; [vm_compute; reflexivity|].
    split; vm_compute; reflexivity.
  - split; [vm_compute; reflexivity|].
    eexists. split; [vm_compute; reflexivity|].
    repeat split; vm_compute; reflexivity.
Qed.
